(** * V4L2 capture test program: a shallow embedding of [src/hack/v4l2-test.cpp]

    The program talks to the kernel through system calls ([stat], [open],
    [ioctl], [mmap], [munmap], [close], [select]).  The kernel is modelled as
    a script of replies, consumed one per system call; every call and every
    callback invocation is appended to a trace.  The C++ code becomes
    computations in a small state-and-exception monad over that world. *)

From stdpp Require Import base numbers list strings.

Local Open Scope Z_scope.

(** ** Constants of the system headers *)

(** <errno.h> (Linux values). *)
Definition EINTR : Z := 4.
Definition EAGAIN : Z := 11.
Definition EINVAL : Z := 22.

(** <sys/stat.h>, <fcntl.h>, <sys/mman.h>. *)
Definition S_IFMT : Z := 61440.
Definition S_IFCHR : Z := 8192.
Definition S_ISCHR (mode : Z) : bool := Z.land mode S_IFMT =? S_IFCHR.
Definition O_RDWR : Z := 2.
Definition O_NONBLOCK : Z := 2048.
Definition PROT_READ : Z := 1.
Definition PROT_WRITE : Z := 2.
Definition MAP_SHARED : Z := 1.
Definition MAP_FAILED : Z := -1.

(** <linux/videodev2.h>. *)
Definition V4L2_BUF_TYPE_VIDEO_CAPTURE : Z := 1.
Definition V4L2_MEMORY_MMAP : Z := 1.
Definition V4L2_CAP_VIDEO_CAPTURE : Z := 1.
Definition V4L2_CAP_STREAMING : Z := 67108864.
Definition V4L2_PIX_FMT_YUYV : Z := 1448695129.
Definition V4L2_FIELD_INTERLACED : Z := 4.

(** [unsigned int] arithmetic: results are reduced modulo 2^32. *)
Definition u32 (x : Z) : Z := x `mod` 2 ^ 32.

(** ** Kernel structures (the fields the program touches) *)

Record v4l2_capability := { cap_capabilities : Z }.

Record v4l2_rect := { rect_left : Z; rect_top : Z; rect_width : Z; rect_height : Z }.

Record v4l2_cropcap := { cropcap_type : Z; cropcap_defrect : v4l2_rect }.

Record v4l2_crop := { crop_type : Z; crop_c : v4l2_rect }.

Record v4l2_pix_format := {
  pix_width : Z;
  pix_height : Z;
  pix_pixelformat : Z;
  pix_field : Z;
  pix_bytesperline : Z;
  pix_sizeimage : Z
}.

Record v4l2_format := { fmt_type : Z; fmt_pix : v4l2_pix_format }.

Record v4l2_requestbuffers := { req_count : Z; req_type : Z; req_memory : Z }.

Record v4l2_buffer := {
  buf_index : Z;
  buf_type : Z;
  buf_bytesused : Z;
  buf_memory : Z;
  buf_offset : Z;
  buf_length : Z
}.

(** Value-initialised structures ([T x = {}]). *)
Definition rect0 : v4l2_rect := {| rect_left := 0; rect_top := 0; rect_width := 0; rect_height := 0 |}.
Definition cap0 : v4l2_capability := {| cap_capabilities := 0 |}.
Definition pix0 : v4l2_pix_format :=
  {| pix_width := 0; pix_height := 0; pix_pixelformat := 0; pix_field := 0;
     pix_bytesperline := 0; pix_sizeimage := 0 |}.
Definition buf0 : v4l2_buffer :=
  {| buf_index := 0; buf_type := 0; buf_bytesused := 0; buf_memory := 0;
     buf_offset := 0; buf_length := 0 |}.

(** [struct buffer { void * start; size_t length; }]. *)
Record buffer := { b_start : Z; b_length : Z }.

(** [struct z16y8_pixel { uint16_t z; uint8_t y; }], packed: 3 bytes. *)
Record z16y8_pixel := { px_z : Z; px_y : Z }.

(** ** The kernel interface *)

Inductive request :=
  | VIDIOC_QUERYCAP | VIDIOC_CROPCAP | VIDIOC_S_CROP | VIDIOC_S_FMT | VIDIOC_G_FMT
  | VIDIOC_REQBUFS | VIDIOC_QUERYBUF | VIDIOC_QBUF | VIDIOC_DQBUF
  | VIDIOC_STREAMON | VIDIOC_STREAMOFF.

Global Instance request_eq_dec : EqDecision request.
Proof. solve_decision. Defined.

(** The structure behind the [void *] argument of a call. *)
Inductive arg :=
  | ACap (c : v4l2_capability)
  | ACropcap (c : v4l2_cropcap)
  | ACrop (c : v4l2_crop)
  | AFmt (f : v4l2_format)
  | AReq (r : v4l2_requestbuffers)
  | ABuf (b : v4l2_buffer)
  | AType (t : Z)
  | AStat (st_mode : Z).

Definition get_cap (a : arg) : v4l2_capability := match a with ACap c => c | _ => cap0 end.
Definition get_cropcap (a : arg) : v4l2_cropcap :=
  match a with ACropcap c => c | _ => {| cropcap_type := 0; cropcap_defrect := rect0 |} end.
Definition get_fmt (a : arg) : v4l2_format :=
  match a with AFmt f => f | _ => {| fmt_type := 0; fmt_pix := pix0 |} end.
Definition get_req (a : arg) : v4l2_requestbuffers :=
  match a with AReq r => r | _ => {| req_count := 0; req_type := 0; req_memory := 0 |} end.
Definition get_buf (a : arg) : v4l2_buffer := match a with ABuf b => b | _ => buf0 end.
Definition get_mode (a : arg) : Z := match a with AStat m => m | _ => 0 end.

(** One answer of the kernel: the value the call returns, the [errno] it
    leaves when that value is negative, what it stored through the argument
    pointer (nothing when [None]), and the mapped regions the device has
    filled by the time the call returns (base address, contents). *)
Record reply := {
  ret : Z;
  err : Z;
  out : option arg;
  dma : list (Z * list Z)
}.

Inductive event :=
  | EvStat (path : string) (rp : reply)
  | EvOpen (path : string) (flags : Z) (rp : reply)
  | EvIoctl (fd : Z) (rq : request) (a : arg) (rp : reply)
  | EvMmap (len prot flags fd off : Z) (rp : reply)
  | EvMunmap (addr len : Z) (rp : reply)
  | EvClose (fd : Z) (rp : reply)
  | EvSelect (nfds fd tv_sec tv_usec : Z) (rp : reply)
  | EvCallback (data size : Z) (view : list Z)
  | EvStderr (msg : string) (code : Z).

(** The application's frame buffers of [main] and what it printed. *)
Record frames := {
  app_yuy2 : list Z;
  app_z : list Z;
  app_y : list Z;
  app_stdout : list (Z * Z)
}.

Record world := {
  script : list reply;
  trace : list event;
  errno : Z;
  shm : Z → list Z;
  app : frames
}.

(** ** The monad *)

Inductive outcome (A : Type) :=
  | Ret (a : A)          (* normal completion *)
  | Throw (what : string) (* std::runtime_error *)
  | Crash                (* failed assert or access outside an object *)
  | Stuck.               (* the kernel has not answered (script exhausted) *)
Arguments Ret {A} a.
Arguments Throw {A} what.
Arguments Crash {A}.
Arguments Stuck {A}.

Definition M (A : Type) : Type := world → outcome A * world.

Definition ret_ {A} (a : A) : M A := λ w, (Ret a, w).
Definition throw {A} (what : string) : M A := λ w, (Throw what, w).
Definition crash {A} : M A := λ w, (Crash, w).

Definition bind {A B} (m : M A) (k : A → M B) : M B := λ w,
  match m w with
  | (Ret a, w') => k a w'
  | (Throw s, w') => (Throw s, w')
  | (Crash, w') => (Crash, w')
  | (Stuck, w') => (Stuck, w')
  end.

Notation "'let*' x := m 'in' k" := (bind m (λ x, k))
  (at level 10, x pattern, m at level 100, k at level 200).
Notation "m ;;; k" := (bind m (λ _, k)) (at level 100, k at level 200, right associativity).

Definition when_ (c : bool) (m : M unit) : M unit := if c then m else ret_ tt.

Definition get_errno : M Z := λ w, (Ret (errno w), w).

Definition log (e : event) : M unit := λ w,
  (Ret tt, {| script := script w; trace := trace w ++ [e]; errno := errno w;
              shm := shm w; app := app w |}).

(** The device fills mapped regions behind the program's back. *)
Definition store (m : Z → list Z) (wr : Z * list Z) : Z → list Z :=
  λ a, if a =? wr.1 then wr.2 else m a.

(** The world once the kernel has answered [rp] to the call recorded by
    [mk], with [s] the replies still to come. *)
Definition answered (w : world) (mk : reply → event) (rp : reply) (s : list reply) : world :=
  {| script := s; trace := trace w ++ [mk rp];
     errno := if ret rp <? 0 then err rp else errno w;
     shm := foldl store (shm w) (dma rp); app := app w |}.

(** A system call: take the kernel's next reply, record the call, set
    [errno] on failure. *)
Definition syscall (mk : reply → event) : M reply := λ w,
  match script w with
  | [] => (Stuck, w)
  | rp :: s => (Ret rp, answered w mk rp s)
  end.

Definition stat (path : string) : M (Z * Z) :=
  let* rp := syscall (EvStat path) in
  ret_ (ret rp, get_mode (default (AStat 0) (out rp))).

Definition open (path : string) (flags mode : Z) : M Z :=
  let* rp := syscall (EvOpen path flags) in ret_ (ret rp).

Definition ioctl (fh : Z) (rq : request) (a : arg) : M (Z * arg) :=
  let* rp := syscall (EvIoctl fh rq a) in ret_ (ret rp, default a (out rp)).

Definition mmap (len prot flags fd off : Z) : M Z :=
  let* rp := syscall (EvMmap len prot flags fd off) in ret_ (ret rp).

Definition munmap (addr len : Z) : M Z :=
  let* rp := syscall (EvMunmap addr len) in ret_ (ret rp).

Definition close (fd : Z) : M Z :=
  let* rp := syscall (EvClose fd) in ret_ (ret rp).

Definition select (nfds fd tv_sec tv_usec : Z) : M Z :=
  let* rp := syscall (EvSelect nfds fd tv_sec tv_usec) in ret_ (ret rp).

(** ** xioctl

    [do { r = ioctl(fh, request, arg); } while (r < 0 && errno == EINTR);]
    Each round consumes one reply, so the length of the script bounds the
    number of rounds. *)
Fixpoint xioctl_loop (n : nat) (fh : Z) (rq : request) (a : arg) : M (Z * arg) :=
  match n with
  | O => λ w, (Stuck, w)
  | S n' =>
      let* (r, a') := ioctl fh rq a in
      let* e := get_errno in
      if (r <? 0) && (e =? EINTR) then xioctl_loop n' fh rq a' else ret_ (r, a')
  end.

Definition xioctl (fh : Z) (rq : request) (a : arg) : M (Z * arg) := λ w,
  xioctl_loop (S (length (script w))) fh rq a w.

(** [throw_error] builds a message with [errno] in it but throws only [s]. *)
Definition throw_error {A} (s : string) : M A := throw s.

Definition warn_error (s : string) : M unit :=
  let* e := get_errno in log (EvStderr s e).

(** ** class subdevice *)

Record subdevice := { dev_name : string; fd : Z; buffers : list buffer }.

(** Lines 55-71: the path must name a character device; open it read/write,
    non-blocking. *)
Definition open_device (name : string) : M Z :=
  let* (r, mode) := stat name in
  if r <? 0 then
    (let* e := get_errno in log (EvStderr "Cannot identify" e)) ;;; throw "bad"
  else if negb (S_ISCHR mode) then throw (name +:+ " is no device")
  else
    let* h := open name (Z.lor O_RDWR O_NONBLOCK) 0 in
    if h <? 0 then
      (let* e := get_errno in log (EvStderr "Cannot open" e)) ;;; throw "bad"
    else ret_ h.

(** Lines 73-81. *)
Definition query_caps (name : string) (h : Z) : M unit :=
  let* (r, a) := xioctl h VIDIOC_QUERYCAP (ACap cap0) in
  (if r <? 0 then
     let* e := get_errno in
     if e =? EINVAL then throw (name +:+ " is no V4L2 device")
     else throw_error "VIDIOC_QUERYCAP"
   else ret_ tt) ;;;
  let cap := get_cap a in
  if Z.land (cap_capabilities cap) V4L2_CAP_VIDEO_CAPTURE =? 0
  then throw (name +:+ " is no video capture device")
  else if Z.land (cap_capabilities cap) V4L2_CAP_STREAMING =? 0
  then throw (name +:+ " does not support streaming I/O")
  else ret_ tt.

(** Lines 84-99: cropping is reset to the default rectangle; errors ignored. *)
Definition reset_crop (h : Z) : M unit :=
  let* (r, a) := xioctl h VIDIOC_CROPCAP
      (ACropcap {| cropcap_type := V4L2_BUF_TYPE_VIDEO_CAPTURE; cropcap_defrect := rect0 |}) in
  if r =? 0 then
    let* _ := xioctl h VIDIOC_S_CROP
      (ACrop {| crop_type := V4L2_BUF_TYPE_VIDEO_CAPTURE;
                crop_c := cropcap_defrect (get_cropcap a) |}) in
    ret_ tt
  else ret_ tt.

(** Lines 101-116. *)
Definition negotiate_format (h : Z) (force_format : bool) : M v4l2_format :=
  if force_format then
    let* (r, a) := xioctl h VIDIOC_S_FMT
      (AFmt {| fmt_type := V4L2_BUF_TYPE_VIDEO_CAPTURE;
               fmt_pix := {| pix_width := 640; pix_height := 480;
                             pix_pixelformat := V4L2_PIX_FMT_YUYV;
                             pix_field := V4L2_FIELD_INTERLACED;
                             pix_bytesperline := 0; pix_sizeimage := 0 |} |}) in
    if r <? 0 then throw_error "VIDIOC_S_FMT" else ret_ (get_fmt a)
  else
    let* (r, a) := xioctl h VIDIOC_G_FMT
      (AFmt {| fmt_type := V4L2_BUF_TYPE_VIDEO_CAPTURE; fmt_pix := pix0 |}) in
    if r <? 0 then throw_error "VIDIOC_G_FMT" else ret_ (get_fmt a).

(** Lines 118-122, "Buggy driver paranoia"; [min] is an [unsigned int]. *)
Definition driver_paranoia (fmt : v4l2_format) : v4l2_format :=
  let pix := fmt_pix fmt in
  let min := u32 (pix_width pix * 2) in
  let bytesperline := if pix_bytesperline pix <? min then min else pix_bytesperline pix in
  let min := u32 (bytesperline * pix_height pix) in
  let sizeimage := if pix_sizeimage pix <? min then min else pix_sizeimage pix in
  {| fmt_type := fmt_type fmt;
     fmt_pix := {| pix_width := pix_width pix; pix_height := pix_height pix;
                   pix_pixelformat := pix_pixelformat pix; pix_field := pix_field pix;
                   pix_bytesperline := bytesperline; pix_sizeimage := sizeimage |} |}.

(** Lines 125-137: ask for 4 buffers, need at least 2. *)
Definition request_buffers (name : string) (h : Z) : M Z :=
  let* (r, a) := xioctl h VIDIOC_REQBUFS
      (AReq {| req_count := 4; req_type := V4L2_BUF_TYPE_VIDEO_CAPTURE;
               req_memory := V4L2_MEMORY_MMAP |}) in
  (if r <? 0 then
     let* e := get_errno in
     if e =? EINVAL then throw (name +:+ " does not support memory mapping")
     else throw_error "VIDIOC_REQBUFS"
   else ret_ tt) ;;;
  let req := get_req a in
  if req_count req <? 2 then throw ("Insufficient buffer memory on " +:+ name)
  else ret_ (req_count req).

(** Lines 140-155: the loop body runs for [i], then for the [n] remaining
    indices. *)
Fixpoint map_loop (n : nat) (i : nat) (h : Z) (bufs : list buffer) : M (list buffer) :=
  match n with
  | O => ret_ bufs
  | S n' =>
      let* (r, a) := xioctl h VIDIOC_QUERYBUF
        (ABuf {| buf_index := Z.of_nat i; buf_type := V4L2_BUF_TYPE_VIDEO_CAPTURE;
                 buf_bytesused := 0; buf_memory := V4L2_MEMORY_MMAP;
                 buf_offset := 0; buf_length := 0 |}) in
      if r <? 0 then throw_error "VIDIOC_QUERYBUF" else
      let buf := get_buf a in
      let* p := mmap (buf_length buf) (Z.lor PROT_READ PROT_WRITE) MAP_SHARED h
                     (buf_offset buf) in
      let bufs' := <[i := {| b_start := p; b_length := buf_length buf |}]> bufs in
      if p =? MAP_FAILED then throw_error "mmap" else map_loop n' (S i) h bufs'
  end.

(** Line 139 and the loop: [buffers.resize(req.count)], then fill.  The
    vector is taken to be allocated and the [int] counters of the loops at
    lines 140 and 158 not to overflow; what depends on this is stated for
    counts up to VIDEO_MAX_FRAME. *)
Definition map_buffers (h : Z) (count : Z) : M (list buffer) :=
  map_loop (Z.to_nat count) 0 h
    (replicate (Z.to_nat count) {| b_start := 0; b_length := 0 |}).

(** Lines 158-165. *)
Fixpoint queue_loop (n : nat) (i : nat) (h : Z) : M unit :=
  match n with
  | O => ret_ tt
  | S n' =>
      let* (r, _) := xioctl h VIDIOC_QBUF
        (ABuf {| buf_index := Z.of_nat i; buf_type := V4L2_BUF_TYPE_VIDEO_CAPTURE;
                 buf_bytesused := 0; buf_memory := V4L2_MEMORY_MMAP;
                 buf_offset := 0; buf_length := 0 |}) in
      if r <? 0 then throw_error "VIDIOC_QBUF" else queue_loop n' (S i) h
  end.

(** Lines 167-168. *)
Definition stream_on (h : Z) : M unit :=
  let* (r, _) := xioctl h VIDIOC_STREAMON (AType V4L2_BUF_TYPE_VIDEO_CAPTURE) in
  if r <? 0 then throw_error "VIDIOC_STREAMON" else ret_ tt.

(** Lines 139-168: map every granted buffer, queue them all, start the
    stream. *)
Definition start_streaming (name : string) (h : Z) (count : Z) : M subdevice :=
  let* bufs := map_buffers h count in
  queue_loop (length bufs) 0 h ;;;
  stream_on h ;;;
  ret_ {| dev_name := name; fd := h; buffers := bufs |}.

(** The constructor.  An exception leaves it at once: the object never
    existed, so [~subdevice] does not run for it. *)
Definition subdevice_ctor (name : string) (force_format : bool) : M subdevice :=
  let* h := open_device name in
  query_caps name h ;;;
  reset_crop h ;;;
  let* fmt := negotiate_format h force_format in
  let fmt := driver_paranoia fmt in
  let* count := request_buffers name h in
  start_streaming name h count.

(** Lines 176-179. *)
Fixpoint unmap_loop (bufs : list buffer) : M unit :=
  match bufs with
  | [] => ret_ tt
  | b :: rest =>
      let* r := munmap (b_start b) (b_length b) in
      when_ (r <? 0) (warn_error "munmap") ;;;
      unmap_loop rest
  end.

(** The destructor. *)
Definition subdevice_dtor (dev : subdevice) : M unit :=
  let* (r, _) := xioctl (fd dev) VIDIOC_STREAMOFF (AType V4L2_BUF_TYPE_VIDEO_CAPTURE) in
  when_ (r <? 0) (warn_error "VIDIOC_STREAMOFF") ;;;
  unmap_loop (buffers dev) ;;;
  let* r := close (fd dev) in
  when_ (r <? 0) (warn_error "close").

(** ** poll *)

(** What [poll] is given: a function of the buffer's address and the byte
    count, which reads mapped memory and updates the application's buffers;
    [None] when it reads or writes outside an object.  The trace records
    each invocation together with the bytes mapped at that address then. *)
Definition callback : Type := Z → Z → (Z → list Z) → frames → option frames.

Definition invoke (f : callback) (data size : Z) : M unit :=
  (λ w, log (EvCallback data size (shm w data)) w) ;;;
  λ w, match f data size (shm w) (app w) with
       | Some fr => (Ret tt, {| script := script w; trace := trace w; errno := errno w;
                                shm := shm w; app := fr |})
       | None => (Crash, w)
       end.

(** [assert(buf.index < buffers.size())]; both sides are unsigned. *)
Definition index_ok (dev : subdevice) (buf : v4l2_buffer) : bool :=
  (0 <=? buf_index buf) && (buf_index buf <? Z.of_nat (length (buffers dev))).

Definition buffer_at (dev : subdevice) (i : Z) : buffer :=
  default {| b_start := 0; b_length := 0 |} (buffers dev !! Z.to_nat i).

(** Lines 188-209 of the [for (;;)] loop: wait for the descriptor to become
    readable; [false] is [continue].  [tv] is set to 2 s in every round.
    [FD_SET] is taken to stay inside the [fd_set], which holds for a
    descriptor below FD_SETSIZE. *)
Definition wait_ready (dev : subdevice) : M bool :=
  let* r := select (fd dev + 1) (fd dev) 2 0 in
  let* e := get_errno in
  if r =? -1 then
    if e =? EINTR then ret_ false else throw_error "select"
  else if r =? 0 then throw_error "select timeout"
  else ret_ true.

(** Lines 211-224: dequeue, hand to the callback, queue again; [false] is
    [continue], [true] is [break]. *)
Definition exchange (dev : subdevice) (f : callback) : M bool :=
  let* (r, a) := xioctl (fd dev) VIDIOC_DQBUF
    (ABuf {| buf_index := 0; buf_type := V4L2_BUF_TYPE_VIDEO_CAPTURE;
             buf_bytesused := 0; buf_memory := V4L2_MEMORY_MMAP;
             buf_offset := 0; buf_length := 0 |}) in
  let* e := get_errno in
  if r <? 0 then
    if e =? EAGAIN then ret_ false else throw_error "VIDIOC_DQBUF"
  else
    let buf := get_buf a in
    if negb (index_ok dev buf) then crash else
    invoke f (b_start (buffer_at dev (buf_index buf))) (buf_bytesused buf) ;;;
    let* (r, _) := xioctl (fd dev) VIDIOC_QBUF (ABuf buf) in
    if r <? 0 then throw_error "VIDIOC_QBUF" else ret_ true.

(** One round of the loop. *)
Definition poll_round (dev : subdevice) (f : callback) : M bool :=
  let* ready := wait_ready dev in
  if ready then exchange dev f else ret_ false.

(** Every round consumes at least the reply to [select]. *)
Fixpoint poll_loop (n : nat) (dev : subdevice) (f : callback) : M unit :=
  match n with
  | O => λ w, (Stuck, w)
  | S n' =>
      let* done := poll_round dev f in
      if done then ret_ tt else poll_loop n' dev f
  end.

Definition poll (dev : subdevice) (f : callback) : M unit := λ w,
  poll_loop (S (length (script w))) dev f w.

(** ** main: the two callbacks *)

(** [memcpy(dst, src, n)] into an array [dst]: the first [n] bytes are
    replaced; reading past [src] or writing past [dst] is undefined. *)
Definition memcpy (dst src : list Z) (n : Z) : option (list Z) :=
  if (0 <=? n) && (n <=? Z.of_nat (length src)) && (n <=? Z.of_nat (length dst))
  then Some (take (Z.to_nat n) src ++ drop (Z.to_nat n) dst)
  else None.

(** [a[i] = v] on a fixed-size array. *)
Definition array_set (a : list Z) (i : nat) (v : Z) : option (list Z) :=
  if decide (i < length a)%nat then Some (<[i := v]> a) else None.

(** [in[i]] for [in = reinterpret_cast<const z16y8_pixel *>(data)]: three
    bytes at offset [3 i], the 16-bit field least significant byte first. *)
Definition read_pixel (data : list Z) (i : nat) : option z16y8_pixel :=
  b0 ← data !! (3 * i)%nat;
  b1 ← data !! (3 * i + 1)%nat;
  b2 ← data !! (3 * i + 2)%nat;
  Some {| px_z := b0 + 256 * b1; px_y := b2 |}.

(** The loop of lines 255-259, at index [i] with [n] rounds to go. *)
Fixpoint decode_loop (data : list Z) (n i : nat) (z y : list Z) : option (list Z * list Z) :=
  match n with
  | O => Some (z, y)
  | S n' =>
      px ← read_pixel data i;
      z' ← array_set z i (px_z px);
      y' ← array_set y i (px_y px);
      decode_loop data n' (S i) z' y'
  end.

(** Lines 246-250. *)
Definition color_callback : callback := λ data size mem fr,
  yuy2 ← memcpy (app_yuy2 fr) (mem data) size;
  Some {| app_yuy2 := yuy2; app_z := app_z fr; app_y := app_y fr;
          app_stdout := app_stdout fr ++ [(size, 640 * 480 * 2)] |}.

(** Lines 252-261. *)
Definition depth_callback : callback := λ data size mem fr,
  zy ← decode_loop (mem data) (Z.to_nat (320 * 240)) 0 (app_z fr) (app_y fr);
  Some {| app_yuy2 := app_yuy2 fr; app_z := zy.1; app_y := zy.2;
          app_stdout := app_stdout fr ++ [(size, 320 * 240 * 3)] |}.

(** Lines 246-261: one capture tick of the main loop. *)
Definition capture_tick (dev0 dev1 : subdevice) : M unit :=
  poll dev0 color_callback ;;;
  poll dev1 depth_callback.


(** ** Reading traces *)

(** A reply that makes [xioctl] go round again. *)
Definition eintr (rp : reply) : bool := (ret rp <? 0) && (err rp =? EINTR).

(** The callback invocations of a trace, in order. *)
Fixpoint callbacks (t : list event) : list (Z * Z) :=
  match t with
  | [] => []
  | EvCallback data size _ :: t' => (data, size) :: callbacks t'
  | _ :: t' => callbacks t'
  end.

(** Who holds a buffer (section 3 of the design): the device after a
    successful VIDIOC_QBUF of its index, the application after a successful
    VIDIOC_DQBUF that reported its index. *)
Inductive ownership := Free | QueuedToDevice | FilledReadyForApp.

Definition owner_step (i : Z) (o : ownership) (e : event) : ownership :=
  match e with
  | EvIoctl _ VIDIOC_QBUF a rp =>
      if (0 <=? ret rp) && (buf_index (get_buf a) =? i) then QueuedToDevice else o
  | EvIoctl _ VIDIOC_DQBUF a rp =>
      if (0 <=? ret rp) && (buf_index (get_buf (default a (out rp))) =? i)
      then FilledReadyForApp else o
  | _ => o
  end.

Definition owner (t : list event) (i : Z) : ownership := foldl (owner_step i) Free t.

(** ** Runs as relations

    The retry loop of [xioctl] and the loop of [poll], described by what
    they add to the trace. *)

(** The rounds of the retry loop, as a relation: how [xioctl], called with
    argument [a] in world [w], ends. *)
Inductive xioctl_run (fh : Z) (rq : request) : arg → world → outcome (Z * arg) * world → Prop :=
  | xioctl_stuck a w :
      script w = [] → xioctl_run fh rq a w (Stuck, w)
  | xioctl_done a w rp s :
      script w = rp :: s → eintr rp = false →
      xioctl_run fh rq a w
        (Ret (ret rp, default a (out rp)), answered w (EvIoctl fh rq a) rp s)
  | xioctl_again a w rp s res :
      script w = rp :: s → eintr rp = true →
      xioctl_run fh rq (default a (out rp)) (answered w (EvIoctl fh rq a) rp s) res →
      xioctl_run fh rq a w res.

(** The calls [xioctl] makes when the kernel answers [l], one reply per
    round, and the argument as the kernel leaves it. *)
Fixpoint ioctl_events (fh : Z) (rq : request) (a : arg) (l : list reply) : list event :=
  match l with
  | [] => []
  | rp :: l' => EvIoctl fh rq a rp :: ioctl_events fh rq (default a (out rp)) l'
  end.

Definition arg_after (a : arg) (l : list reply) : arg :=
  foldl (λ a rp, default a (out rp)) a l.

(** The kernel's replies recorded in a trace. *)
Fixpoint replies (t : list event) : list reply :=
  match t with
  | [] => []
  | e :: t' =>
      match e with
      | EvStat _ rp | EvOpen _ _ rp | EvIoctl _ _ _ rp | EvMmap _ _ _ _ _ rp
      | EvMunmap _ _ rp | EvClose _ rp | EvSelect _ _ _ _ rp => rp :: replies t'
      | EvCallback _ _ _ | EvStderr _ _ => replies t'
      end
  end.

Definition dq_arg : arg :=
  ABuf {| buf_index := 0; buf_type := V4L2_BUF_TYPE_VIDEO_CAPTURE;
          buf_bytesused := 0; buf_memory := V4L2_MEMORY_MMAP;
          buf_offset := 0; buf_length := 0 |}.

(** How re-submission ends, from the kernel's replies to it. *)
Inductive requeue_end : list reply → outcome bool → Prop :=
  | requeue_stuck l :
      Forall (λ x, eintr x = true) l → requeue_end l Stuck
  | requeue_failed l rp :
      Forall (λ x, eintr x = true) l → eintr rp = false → ret rp < 0 →
      requeue_end (l ++ [rp]) (Throw "VIDIOC_QBUF")
  | requeue_ok l rp :
      Forall (λ x, eintr x = true) l → 0 ≤ ret rp →
      requeue_end (l ++ [rp]) (Ret true).

(** What lines 211-224 can do: the events recorded, the outcome, and the
    application's buffers before and after. *)
Inductive exchange_shape (dev : subdevice) (f : callback) (fr : frames) :
    list event → outcome bool → frames → Prop :=
  | ex_dq_stuck l :
      Forall (λ x, eintr x = true) l →
      exchange_shape dev f fr (ioctl_events (fd dev) VIDIOC_DQBUF dq_arg l) Stuck fr
  | ex_dq_again l rp :
      Forall (λ x, eintr x = true) l → ret rp < 0 → err rp = EAGAIN →
      exchange_shape dev f fr
        (ioctl_events (fd dev) VIDIOC_DQBUF dq_arg (l ++ [rp])) (Ret false) fr
  | ex_dq_failed l rp :
      Forall (λ x, eintr x = true) l → ret rp < 0 → err rp ≠ EAGAIN → err rp ≠ EINTR →
      exchange_shape dev f fr
        (ioctl_events (fd dev) VIDIOC_DQBUF dq_arg (l ++ [rp])) (Throw "VIDIOC_DQBUF") fr
  | ex_bad_index l rp :
      Forall (λ x, eintr x = true) l → 0 ≤ ret rp →
      index_ok dev (get_buf (arg_after dq_arg (l ++ [rp]))) = false →
      exchange_shape dev f fr
        (ioctl_events (fd dev) VIDIOC_DQBUF dq_arg (l ++ [rp])) Crash fr
  | ex_callback_crash l rp mem :
      let buf := get_buf (arg_after dq_arg (l ++ [rp])) in
      let data := b_start (buffer_at dev (buf_index buf)) in
      Forall (λ x, eintr x = true) l → 0 ≤ ret rp →
      index_ok dev buf = true →
      f data (buf_bytesused buf) mem fr = None →
      exchange_shape dev f fr
        (ioctl_events (fd dev) VIDIOC_DQBUF dq_arg (l ++ [rp]) ++
         [EvCallback data (buf_bytesused buf) (mem data)]) Crash fr
  | ex_requeue l rp mem fr' lq o :
      let buf := get_buf (arg_after dq_arg (l ++ [rp])) in
      let data := b_start (buffer_at dev (buf_index buf)) in
      Forall (λ x, eintr x = true) l → 0 ≤ ret rp →
      index_ok dev buf = true →
      f data (buf_bytesused buf) mem fr = Some fr' →
      requeue_end lq o →
      exchange_shape dev f fr
        (ioctl_events (fd dev) VIDIOC_DQBUF dq_arg (l ++ [rp]) ++
         EvCallback data (buf_bytesused buf) (mem data) ::
         ioctl_events (fd dev) VIDIOC_QBUF (ABuf buf) lq) o fr'.

Definition ev_select (dev : subdevice) (rp : reply) : event :=
  EvSelect (fd dev + 1) (fd dev) 2 0 rp.

(** What a call of [poll] can do. *)
Inductive poll_shape (dev : subdevice) (f : callback) :
    frames → list event → outcome unit → frames → Prop :=
  | poll_waiting fr :
      poll_shape dev f fr [] Stuck fr
  | poll_interrupted fr rp t o fr' :
      ret rp = -1 → err rp = EINTR →
      poll_shape dev f fr t o fr' →
      poll_shape dev f fr (ev_select dev rp :: t) o fr'
  | poll_select_failed fr rp :
      ret rp = -1 → err rp ≠ EINTR →
      poll_shape dev f fr [ev_select dev rp] (Throw "select") fr
  | poll_timeout fr rp :
      ret rp = 0 →
      poll_shape dev f fr [ev_select dev rp] (Throw "select timeout") fr
  | poll_again fr rp t1 fr1 t o fr' :
      ret rp ≠ -1 → ret rp ≠ 0 →
      exchange_shape dev f fr t1 (Ret false) fr1 →
      poll_shape dev f fr1 t o fr' →
      poll_shape dev f fr (ev_select dev rp :: t1 ++ t) o fr'
  | poll_delivered fr rp t1 fr' :
      ret rp ≠ -1 → ret rp ≠ 0 →
      exchange_shape dev f fr t1 (Ret true) fr' →
      poll_shape dev f fr (ev_select dev rp :: t1) (Ret tt) fr'
  | poll_thrown fr rp t1 s fr' :
      ret rp ≠ -1 → ret rp ≠ 0 →
      exchange_shape dev f fr t1 (Throw s) fr' →
      poll_shape dev f fr (ev_select dev rp :: t1) (Throw s) fr'
  | poll_crashed fr rp t1 fr' :
      ret rp ≠ -1 → ret rp ≠ 0 →
      exchange_shape dev f fr t1 Crash fr' →
      poll_shape dev f fr (ev_select dev rp :: t1) Crash fr'
  | poll_blocked fr rp t1 fr' :
      ret rp ≠ -1 → ret rp ≠ 0 →
      exchange_shape dev f fr t1 Stuck fr' →
      poll_shape dev f fr (ev_select dev rp :: t1) Stuck fr'.

(** An interrupted call did not happen: it leaves its argument alone. *)
Definition quiet (rp : reply) : Prop := eintr rp = true → out rp = None.

(** The events of a round that ends in [continue]. *)
Definition waiting_event (e : event) : Prop :=
  match e with
  | EvSelect _ _ _ _ _ | EvIoctl _ VIDIOC_DQBUF _ _ => True
  | _ => False
  end.

(** The world once the callback has been handed [size] bytes at [data] and
    left the application's buffers as [fr]. *)
Definition delivered_to (w : world) (data size : Z) (fr : frames) : world :=
  {| script := script w; trace := trace w ++ [EvCallback data size (shm w data)];
     errno := errno w; shm := shm w; app := fr |}.

(** The world after the kernel answered the replies [l] to [select], with
    [s] the replies still to come. *)
Fixpoint interrupted (dev : subdevice) (w : world) (l s : list reply) : world :=
  match l with
  | [] => w
  | rp :: l' => interrupted dev (answered w (ev_select dev) rp (l' ++ s)) l' s
  end.

Definition req_arg : arg :=
  AReq {| req_count := 4; req_type := V4L2_BUF_TYPE_VIDEO_CAPTURE;
          req_memory := V4L2_MEMORY_MMAP |}.

Definition querybuf_arg (i : nat) : arg :=
  ABuf {| buf_index := Z.of_nat i; buf_type := V4L2_BUF_TYPE_VIDEO_CAPTURE;
          buf_bytesused := 0; buf_memory := V4L2_MEMORY_MMAP;
          buf_offset := 0; buf_length := 0 |}.

(** ** Properties of traces *)

(** Every interrupted [ioctl] of a trace is followed at once by the same
    request on the same descriptor, with the argument as the kernel left
    it (or it is the last event). *)
Fixpoint retried (t : list event) : Prop :=
  match t with
  | [] => True
  | EvIoctl fh rq a rp :: t' =>
      (eintr rp = true →
       match t' with
       | [] => True
       | e :: _ => ∃ rp', e = EvIoctl fh rq (default a (out rp)) rp'
       end) ∧ retried t'
  | _ :: t' => retried t'
  end.

(** The trace ends with an interrupted [ioctl]. *)
Definition pending (t : list event) : Prop :=
  ∃ fh rq a rp, last t = Some (EvIoctl fh rq a rp) ∧ eintr rp = true.

(** A computation that leaves no interrupted [ioctl] behind: in every
    world, what it adds to the trace is [retried], and it ends on an
    interrupted call only when the kernel gives no further answer. *)
Definition retrying {A} (m : M A) : Prop :=
  ∀ w, ∃ t, trace (m w).2 = trace w ++ t ∧ retried t ∧ (pending t → (m w).1 = Stuck).

(** Calls other than [ioctl], and what the program writes itself. *)
Definition not_ioctl (e : event) : Prop :=
  match e with EvIoctl _ _ _ _ => False | _ => True end.

(** Calls that give a resource back. *)
Definition is_release (e : event) : Prop :=
  match e with EvMunmap _ _ _ | EvClose _ _ => True | _ => False end.

(** The regions mapped and the descriptors opened in a trace. *)
Fixpoint mappings (t : list event) : list (Z * Z) :=
  match t with
  | [] => []
  | EvMmap len _ _ _ _ rp :: t' =>
      if ret rp =? MAP_FAILED then mappings t' else (ret rp, len) :: mappings t'
  | _ :: t' => mappings t'
  end.

Fixpoint opened (t : list event) : list Z :=
  match t with
  | [] => []
  | EvOpen _ _ rp :: t' => if ret rp <? 0 then opened t' else ret rp :: opened t'
  | _ :: t' => opened t'
  end.

(** A computation all of whose events satisfy [P]. *)
Definition emits (P : event → Prop) {A} (m : M A) : Prop :=
  ∀ w, ∃ t, trace (m w).2 = trace w ++ t ∧ Forall P t.

(** The three frame buffers, without the printed lines. *)
Definition planes (fr : frames) : list Z * list Z * list Z :=
  (app_yuy2 fr, app_z fr, app_y fr).

(** ** The memory image of packed elements *)

(** The memory image of a packed element: the depth sample, 16 bits, least
    significant byte first, then the intensity sample. *)
Definition pack (px : z16y8_pixel) : list Z :=
  [px_z px `mod` 256; px_z px `div` 256; px_y px].

Definition pack_all (pxs : list z16y8_pixel) : list Z := concat (pack <$> pxs).

(** ** Example devices, scripts and frames *)

Definition reply_ok (r : Z) (o : option arg) : reply :=
  {| ret := r; err := 0; out := o; dma := [] |}.
Definition reply_fail (e : Z) : reply :=
  {| ret := -1; err := e; out := None; dma := [] |}.
Definition reply_dqbuf (i n : Z) (filled : list (Z * list Z)) : reply :=
  {| ret := 0; err := 0;
     out := Some (ABuf {| buf_index := i; buf_type := V4L2_BUF_TYPE_VIDEO_CAPTURE;
                          buf_bytesused := n; buf_memory := V4L2_MEMORY_MMAP;
                          buf_offset := 0; buf_length := 0 |});
     dma := filled |}.

Definition no_frames : frames :=
  {| app_yuy2 := []; app_z := []; app_y := []; app_stdout := [] |}.

Definition world_of (s : list reply) (fr : frames) : world :=
  {| script := s; trace := []; errno := 0; shm := λ _, []; app := fr |}.

(** A session with two mapped buffers, and a callback that only looks. *)
Definition dev_ex : subdevice :=
  {| dev_name := "/dev/video0"; fd := 3;
     buffers := [ {| b_start := 4096; b_length := 16 |};
                  {| b_start := 8192; b_length := 16 |} ] |}.
Definition cb_ex : callback := λ _ _ _ fr, Some fr.

(** select interrupted, select ready, dequeue says try again, select ready,
    dequeue interrupted, buffer 1 dequeued with 7 bytes, queue interrupted,
    queue succeeds. *)
Definition script_ex : list reply :=
  [ reply_fail EINTR; reply_ok 1 None; reply_fail EAGAIN; reply_ok 1 None;
    reply_fail EINTR; reply_dqbuf 1 7 []; reply_fail EINTR; reply_ok 0 None ].



(** The format a depth camera reports, and the replies of a device up to
    the buffer request: a character device, opened as descriptor 3, that
    captures and streams, does not crop, and reports [fmt_ex]. *)
Definition fmt_ex : v4l2_format :=
  {| fmt_type := V4L2_BUF_TYPE_VIDEO_CAPTURE;
     fmt_pix := {| pix_width := 320; pix_height := 240;
                   pix_pixelformat := 0; pix_field := 1;
                   pix_bytesperline := 960; pix_sizeimage := 230400 |} |}.

Definition script_prelude : list reply :=
  [ reply_ok 0 (Some (AStat S_IFCHR));
    reply_ok 3 None;
    reply_ok 0 (Some (ACap {| cap_capabilities :=
                               Z.lor V4L2_CAP_VIDEO_CAPTURE V4L2_CAP_STREAMING |}));
    reply_fail EINVAL;
    reply_ok 0 (Some (AFmt fmt_ex)) ].

Definition granted (n : Z) : reply :=
  reply_ok 0 (Some (AReq {| req_count := n; req_type := V4L2_BUF_TYPE_VIDEO_CAPTURE;
                            req_memory := V4L2_MEMORY_MMAP |})).

Definition described (i len off : Z) : reply :=
  reply_ok 0 (Some (ABuf {| buf_index := i; buf_type := V4L2_BUF_TYPE_VIDEO_CAPTURE;
                            buf_bytesused := 0; buf_memory := V4L2_MEMORY_MMAP;
                            buf_offset := off; buf_length := len |})).

Definition script_two : list reply :=
  script_prelude ++
  [ reply_fail EINTR; granted 2;
    described 0 16 0; reply_ok 4096 None; described 1 16 16; reply_ok 8192 None;
    reply_ok 0 None; reply_ok 0 None; reply_ok 0 None ].

(** Four buffers granted; mapping the third one fails with ENOMEM. *)
Definition script_mmap_fails : list reply :=
  script_prelude ++
  [ granted 4;
    described 0 16 0; reply_ok 4096 None;
    described 1 16 16; reply_ok 8192 None;
    described 2 16 32; reply_fail 12 ].

Definition blank_frames : frames :=
  {| app_yuy2 := replicate (Z.to_nat (640 * 480 * 2)) 0;
     app_z := replicate (Z.to_nat (320 * 240)) 0;
     app_y := replicate (Z.to_nat (320 * 240)) 0;
     app_stdout := [] |}.

Definition frame_ex : list z16y8_pixel :=
  {| px_z := 100; px_y := 10 |} :: {| px_z := 4000; px_y := 250 |} ::
  replicate (Z.to_nat 76798) {| px_z := 0; px_y := 0 |}.

(** ** Further trace readers *)

(** <linux/videodev2.h>: the most buffers a queue holds. *)
Definition VIDEO_MAX_FRAME : Z := 32.

(** <sys/select.h>: the descriptors an [fd_set] has room for. *)
Definition FD_SETSIZE : Z := 1024.

(** An answer to VIDIOC_REQBUFS that grants at most [n] buffers; any other
    event passes. *)
Definition grants_at_most (n : Z) (e : event) : Prop :=
  match e with
  | EvIoctl _ VIDIOC_REQBUFS a rp => req_count (get_req (default a (out rp))) ≤ n
  | _ => True
  end.

(** The regions handed to [munmap] and the descriptors handed to [close]
    in a trace, whether or not the kernel reports success. *)
Fixpoint unmaps (t : list event) : list (Z * Z) :=
  match t with
  | [] => []
  | EvMunmap addr len _ :: t' => (addr, len) :: unmaps t'
  | _ :: t' => unmaps t'
  end.

Fixpoint closes (t : list event) : list Z :=
  match t with
  | [] => []
  | EvClose h _ :: t' => h :: closes t'
  | _ :: t' => closes t'
  end.

(** What was written to stderr. *)
Fixpoint warnings (t : list event) : list string :=
  match t with
  | [] => []
  | EvStderr msg _ :: t' => msg :: warnings t'
  | _ :: t' => warnings t'
  end.

(** A computation that never fails an assertion or leaves an object, and
    throws nothing but the messages of [L]. *)
Definition tame (L : list string) {A} (m : M A) : Prop :=
  ∀ w, match (m w).1 with Throw s => s ∈ L | Crash => False | _ => True end.

(** The messages of the exceptions in the constructor. *)
Definition ctor_errors (name : string) : list string :=
  [ "bad"; name +:+ " is no device"; name +:+ " is no V4L2 device";
    "VIDIOC_QUERYCAP"; name +:+ " is no video capture device";
    name +:+ " does not support streaming I/O"; "VIDIOC_S_FMT"; "VIDIOC_G_FMT";
    name +:+ " does not support memory mapping"; "VIDIOC_REQBUFS";
    "Insufficient buffer memory on " +:+ name; "VIDIOC_QUERYBUF"; "mmap";
    "VIDIOC_QBUF"; "VIDIOC_STREAMON" ].

(** What a failed call adds to stderr through [warn_error]. *)
Definition warned (s : string) (rp : reply) : list event :=
  if ret rp <? 0 then [EvStderr s (err rp)] else [].

(** The calls of lines 176-179 when the kernel answers [rps], one reply per
    buffer. *)
Fixpoint unmap_events (bufs : list buffer) (rps : list reply) : list event :=
  match bufs, rps with
  | b :: bufs', rp :: rps' =>
      EvMunmap (b_start b) (b_length b) rp :: warned "munmap" rp ++ unmap_events bufs' rps'
  | _, _ => []
  end.

(** The world after a call answered by [rp] whose failure, if any, was
    reported through [warn_error s]. *)
Definition after_call (w : world) (mk : reply → event) (s : string) (rp : reply)
    (rest : list reply) : world :=
  {| script := rest; trace := trace w ++ mk rp :: warned s rp;
     errno := if ret rp <? 0 then err rp else errno w;
     shm := foldl store (shm w) (dma rp); app := app w |}.

(** The line a failed call leaves on stderr. *)
Definition complaint (s : string) (rp : reply) : list string :=
  if ret rp <? 0 then [s] else [].

Definition streamoff_arg : arg := AType V4L2_BUF_TYPE_VIDEO_CAPTURE.

(** The messages of the exceptions in [poll]. *)
Definition poll_errors : list string :=
  [ "select"; "select timeout"; "VIDIOC_DQBUF"; "VIDIOC_QBUF" ].

(** The events a session can cause: waits and control calls on its
    descriptor, and callbacks on the buffers of its pool. *)
Definition on_device (dev : subdevice) (e : event) : Prop :=
  match e with
  | EvSelect nfds h _ _ _ => h = fd dev ∧ nfds = fd dev + 1
  | EvIoctl h _ _ _ => h = fd dev
  | EvCallback data _ _ => ∃ b, b ∈ buffers dev ∧ data = b_start b
  | _ => False
  end.

(** The mapped memory once the device has written what the replies [l]
    announce, in order. *)
Definition filled (m : Z → list Z) (l : list reply) : Z → list Z :=
  foldl (λ m rp, foldl store m (dma rp)) m l.

(** A second session, for the depth stream. *)
Definition dev_depth_ex : subdevice :=
  {| dev_name := "/dev/video1"; fd := 4;
     buffers := [ {| b_start := 1048576; b_length := 230400 |};
                  {| b_start := 2097152; b_length := 230400 |} ] |}.

(** One frame from each device: four bytes of color, a full depth frame. *)
Definition script_tick : list reply :=
  [ reply_ok 1 None; reply_dqbuf 0 4 [(4096, [89; 85; 89; 86])]; reply_ok 0 None;
    reply_ok 1 None;
    reply_dqbuf 1 230400 [(2097152, replicate (Z.to_nat 230400) 1)]; reply_ok 0 None ].

(** The session that the replies of [script_two] set up. *)
Definition dev_video1_ex : subdevice :=
  {| dev_name := "/dev/video1"; fd := 3;
     buffers := [ {| b_start := 4096; b_length := 16 |};
                  {| b_start := 8192; b_length := 16 |} ] |}.

(** ** The trace of a start that succeeds *)

Definition streamon_arg : arg := AType V4L2_BUF_TYPE_VIDEO_CAPTURE.

(** Control calls that move no buffer between the program and the device. *)
Definition control_event (e : event) : Prop :=
  match e with
  | EvIoctl _ rq _ _ => rq ≠ VIDIOC_QBUF ∧ rq ≠ VIDIOC_DQBUF
  | _ => False
  end.

(** Calls made on the descriptor [h]. *)
Definition on_handle (h : Z) (e : event) : Prop :=
  match e with
  | EvIoctl h' _ _ _ | EvMmap _ _ _ h' _ _ => h' = h
  | _ => False
  end.

(** What [map_loop n i h bufs] has added to the trace when it returns
    [bufs']: for each index a VIDIOC_QUERYBUF, retried while interrupted and
    then successful, and an [mmap] of the length and offset it reported. *)
Fixpoint map_post (h : Z) (n i : nat) (bufs bufs' : list buffer) (t : list event) : Prop :=
  match n with
  | O => t = [] ∧ bufs' = bufs
  | S n' =>
      ∃ l rq rm t',
        let buf := get_buf (arg_after (querybuf_arg i) (l ++ [rq])) in
        t = ioctl_events h VIDIOC_QUERYBUF (querybuf_arg i) (l ++ [rq]) ++
            EvMmap (buf_length buf) (Z.lor PROT_READ PROT_WRITE) MAP_SHARED h
                   (buf_offset buf) rm :: t' ∧
        Forall (λ x, eintr x = true) l ∧ 0 ≤ ret rq ∧ ret rm ≠ MAP_FAILED ∧
        map_post h n' (S i)
          (<[i := {| b_start := ret rm; b_length := buf_length buf |}]> bufs) bufs' t'
  end.

(** What [queue_loop n i h] has added to the trace when it returns: for
    each index a VIDIOC_QBUF, retried while interrupted and then
    successful. *)
Fixpoint queue_post (h : Z) (n i : nat) (t : list event) : Prop :=
  match n with
  | O => t = []
  | S n' =>
      ∃ l rp t',
        t = ioctl_events h VIDIOC_QBUF (querybuf_arg i) (l ++ [rp]) ++ t' ∧
        Forall (λ x, eintr x = true) l ∧ 0 ≤ ret rp ∧ queue_post h n' (S i) t'
  end.

(** The trace of a constructor that returns the session [dev]. *)
Definition start_trace (name : string) (dev : subdevice) (t : list event) : Prop :=
  ∃ rs ro tc count tm tq l rp,
    t = EvStat name rs :: EvOpen name (Z.lor O_RDWR O_NONBLOCK) ro ::
        tc ++ tm ++ tq ++
        ioctl_events (fd dev) VIDIOC_STREAMON streamon_arg (l ++ [rp]) ∧
    dev_name dev = name ∧ fd dev = ret ro ∧ 0 ≤ ret ro ∧
    0 ≤ ret rs ∧ S_ISCHR (get_mode (default (AStat 0) (out rs))) = true ∧
    Forall control_event tc ∧ Forall (on_handle (fd dev)) tc ∧ 2 ≤ count ∧
    map_post (fd dev) (Z.to_nat count) 0
      (replicate (Z.to_nat count) {| b_start := 0; b_length := 0 |}) (buffers dev) tm ∧
    queue_post (fd dev) (length (buffers dev)) 0 tq ∧
    Forall (λ x, eintr x = true) l ∧ 0 ≤ ret rp.

(** ** Scripts under which the start succeeds *)

(** The length that an answer to VIDIOC_QUERYBUF reports (0 when the kernel
    stored nothing). *)
Definition reported_length (q : reply) : Z :=
  match out q with Some a => buf_length (get_buf a) | None => 0 end.

(** The pool entry made of an answer to VIDIOC_QUERYBUF and an answer to
    [mmap]. *)
Definition mapped (p : reply * reply) : buffer :=
  {| b_start := ret p.2; b_length := reported_length p.1 |}.

(** The answers in the order the calls are made: describe, map, describe,
    map, ... *)
Definition interleaved (pairs : list (reply * reply)) : list reply :=
  pairs ≫= λ p, [p.1; p.2].

(** ** What the constructor's exceptions say *)

(** The messages that are the name of the request that failed. *)
Definition blamed : list (string * request) :=
  [ ("VIDIOC_QUERYCAP", VIDIOC_QUERYCAP); ("VIDIOC_S_FMT", VIDIOC_S_FMT);
    ("VIDIOC_G_FMT", VIDIOC_G_FMT); ("VIDIOC_REQBUFS", VIDIOC_REQBUFS);
    ("VIDIOC_QUERYBUF", VIDIOC_QUERYBUF); ("VIDIOC_QBUF", VIDIOC_QBUF);
    ("VIDIOC_STREAMON", VIDIOC_STREAMON) ].

(** [ctor_failure name s e]: the constructor throws [s] right after the
    event [e]. *)
Inductive ctor_failure (name : string) : string → event → Prop :=
  | fail_identify code :
      ctor_failure name "bad" (EvStderr "Cannot identify" code)
  | fail_open code :
      ctor_failure name "bad" (EvStderr "Cannot open" code)
  | fail_no_device rs :
      0 ≤ ret rs → S_ISCHR (get_mode (default (AStat 0) (out rs))) = false →
      ctor_failure name (name +:+ " is no device") (EvStat name rs)
  | fail_no_v4l2 h a rp :
      ret rp < 0 → err rp = EINVAL →
      ctor_failure name (name +:+ " is no V4L2 device") (EvIoctl h VIDIOC_QUERYCAP a rp)
  | fail_no_capture h a rp :
      0 ≤ ret rp →
      Z.land (cap_capabilities (get_cap (default a (out rp)))) V4L2_CAP_VIDEO_CAPTURE = 0 →
      ctor_failure name (name +:+ " is no video capture device")
        (EvIoctl h VIDIOC_QUERYCAP a rp)
  | fail_no_streaming h a rp :
      0 ≤ ret rp →
      Z.land (cap_capabilities (get_cap (default a (out rp)))) V4L2_CAP_STREAMING = 0 →
      ctor_failure name (name +:+ " does not support streaming I/O")
        (EvIoctl h VIDIOC_QUERYCAP a rp)
  | fail_no_mmap h a rp :
      ret rp < 0 → err rp = EINVAL →
      ctor_failure name (name +:+ " does not support memory mapping")
        (EvIoctl h VIDIOC_REQBUFS a rp)
  | fail_few h a rp :
      0 ≤ ret rp → req_count (get_req (default a (out rp))) < 2 →
      ctor_failure name ("Insufficient buffer memory on " +:+ name)
        (EvIoctl h VIDIOC_REQBUFS a rp)
  | fail_mmap len prot flags h off rp :
      ret rp = MAP_FAILED →
      ctor_failure name "mmap" (EvMmap len prot flags h off rp)
  | fail_call s rq h a rp :
      (s, rq) ∈ blamed → ret rp < 0 → err rp ≠ EINTR →
      (rq = VIDIOC_QUERYCAP ∨ rq = VIDIOC_REQBUFS → err rp ≠ EINVAL) →
      ctor_failure name s (EvIoctl h rq a rp).

(** The trace of [w] continues [base]. *)
Definition extends (base : list event) (w : world) : Prop :=
  ∃ t, trace w = base ++ t.

(** The exception [s] is explained by the last event, which was recorded
    after [base]. *)
Definition explained (name : string) (base : list event) (s : string) (w : world) : Prop :=
  ∃ t e, trace w = base ++ t ++ [e] ∧ ctor_failure name s e.

(** [m], run in [w], returns with [Q], or throws an exception that is
    explained, or waits for the kernel. *)
Definition wp {A} (E : string → world → Prop) (m : M A) (Q : A → world → Prop)
    (w : world) : Prop :=
  match m w with
  | (Ret a, w') => Q a w'
  | (Throw s, w') => E s w'
  | (Crash, _) => False
  | (Stuck, _) => True
  end.

(** * Properties *)


(** ** Equations and run relation of [xioctl] *)

Lemma xioctl_nil fh rq a w :
  script w = [] → xioctl fh rq a w = (Stuck, w).
Proof.
  intros H. unfold xioctl. rewrite H. simpl.
  unfold bind, ioctl, syscall, bind. by rewrite H.
Qed.

Lemma xioctl_cons fh rq a w rp s :
  script w = rp :: s →
  xioctl fh rq a w =
    if eintr rp
    then xioctl fh rq (default a (out rp)) (answered w (EvIoctl fh rq a) rp s)
    else (Ret (ret rp, default a (out rp)), answered w (EvIoctl fh rq a) rp s).
Proof.
  intros H. unfold xioctl at 1. rewrite H.
  change (xioctl_loop (S (length (rp :: s))) fh rq a w)
    with (bind (ioctl fh rq a) (λ '(r, a'),
            bind get_errno (λ e,
              if (r <? 0) && (e =? EINTR)
              then xioctl_loop (S (length s)) fh rq a' else ret_ (r, a'))) w).
  unfold bind at 1. unfold ioctl, bind, syscall. rewrite H. simpl.
  unfold eintr. destruct (ret rp <? 0); simpl; [|done].
  destruct (err rp =? EINTR); done.
Qed.

Lemma xioctl_runs fh rq a w : xioctl_run fh rq a w (xioctl fh rq a w).
Proof.
  remember (script w) as s eqn:Hs. revert a w Hs.
  induction s as [|rp s IH]; intros a w Hs.
  - rewrite xioctl_nil by done. by constructor.
  - rewrite (xioctl_cons _ _ _ _ rp s) by done.
    destruct (eintr rp) eqn:E.
    + eapply xioctl_again; [done..|]. by apply IH.
    + by apply xioctl_done.
Qed.

Lemma ioctl_events_app fh rq a l1 l2 :
  ioctl_events fh rq a (l1 ++ l2) =
  ioctl_events fh rq a l1 ++ ioctl_events fh rq (arg_after a l1) l2.
Proof.
  revert a. induction l1 as [|rp l1 IH]; intros a; simpl; [done|].
  by rewrite IH.
Qed.

Lemma replies_app t1 t2 : replies (t1 ++ t2) = replies t1 ++ replies t2.
Proof.
  induction t1 as [|e t1 IH]; simpl; [done|]. destruct e; simpl; by rewrite ?IH.
Qed.

Lemma replies_ioctl_events fh rq a l : replies (ioctl_events fh rq a l) = l.
Proof. revert a. induction l as [|rp l IH]; intros a; simpl; [done|]. by rewrite IH. Qed.

Lemma callbacks_app t1 t2 : callbacks (t1 ++ t2) = callbacks t1 ++ callbacks t2.
Proof.
  induction t1 as [|e t1 IH]; simpl; [done|]. destruct e; simpl; by rewrite ?IH.
Qed.

Lemma callbacks_ioctl_events fh rq a l : callbacks (ioctl_events fh rq a l) = [].
Proof. revert a. induction l as [|rp l IH]; intros a; simpl; [done|]. by rewrite IH. Qed.

(** What a run of [xioctl] amounts to: it consumed a prefix [l] of the
    script, recorded one call per reply, left the application's buffers
    alone; when it returns, every reply but the last was an interruption
    and the last was not. *)
Lemma xioctl_run_facts fh rq a w res :
  xioctl_run fh rq a w res →
  ∃ l, script w = l ++ script res.2 ∧
       trace res.2 = trace w ++ ioctl_events fh rq a l ∧
       app res.2 = app w ∧
       match res.1 with
       | Ret (r, a') =>
           ∃ l0 rp, l = l0 ++ [rp] ∧ Forall (λ x, eintr x = true) l0 ∧
                    eintr rp = false ∧ r = ret rp ∧ a' = arg_after a l ∧
                    (r < 0 → errno res.2 = err rp)
       | Stuck => script res.2 = [] ∧ Forall (λ x, eintr x = true) l
       | _ => False
       end.
Proof.
  induction 1 as [a w H|a w rp s H E|a w rp s res H E Hrun IH].
  - exists []. simpl. rewrite H, app_nil_r. done.
  - exists [rp]. simpl. rewrite H. repeat split; try done.
    exists [], rp. repeat split; try done.
    intros Hneg. apply Z.ltb_lt in Hneg. by rewrite Hneg.
  - destruct IH as (l & Hs & Ht & Ha & Hres). simpl in Hs, Ht, Ha.
    exists (rp :: l). rewrite H, Hs, Ht, Ha. simpl. rewrite <- app_assoc.
    repeat split; try done.
    destruct res as [[[r a']| | |] w']; simpl in *; try done.
    + destruct Hres as (l0 & rp' & -> & Hl0 & E' & -> & -> & He).
      exists (rp :: l0), rp'. repeat split; try done. by constructor.
    + destruct Hres as [? ?]. split; [done|]. by constructor.
Qed.

Lemma xioctl_facts fh rq a w :
  ∃ l, script w = l ++ script (xioctl fh rq a w).2 ∧
       trace (xioctl fh rq a w).2 = trace w ++ ioctl_events fh rq a l ∧
       app (xioctl fh rq a w).2 = app w ∧
       match (xioctl fh rq a w).1 with
       | Ret (r, a') =>
           ∃ l0 rp, l = l0 ++ [rp] ∧ Forall (λ x, eintr x = true) l0 ∧
                    eintr rp = false ∧ r = ret rp ∧ a' = arg_after a l ∧
                    (r < 0 → errno (xioctl fh rq a w).2 = err rp)
       | Stuck => script (xioctl fh rq a w).2 = [] ∧ Forall (λ x, eintr x = true) l
       | _ => False
       end.
Proof. apply xioctl_run_facts, xioctl_runs. Qed.

(** ** Runs of [poll], as shapes of the trace *)

Lemma eintr_false_neg rp :
  eintr rp = false → ret rp < 0 → err rp ≠ EINTR.
Proof.
  unfold eintr. intros E Hneg. apply Z.ltb_lt in Hneg. rewrite Hneg in E.
  simpl in E. by apply Z.eqb_neq in E.
Qed.

Ltac script_tac :=
  rewrite ?replies_app; simpl; rewrite ?replies_ioctl_events, ?app_nil_r;
  repeat match goal with
         | H : script ?w = _ |- context [script ?w] => rewrite H
         end;
  simpl; rewrite <- ?app_assoc; simpl; done.

Lemma exchange_sound dev f w o w' :
  exchange dev f w = (o, w') →
  ∃ t, trace w' = trace w ++ t ∧
       exchange_shape dev f (app w) t o (app w') ∧
       script w = replies t ++ script w'.
Proof.
  unfold exchange. fold dq_arg. unfold bind, get_errno, invoke, bind, log, ret_,
    throw_error, throw, crash.
  destruct (xioctl_facts (fd dev) VIDIOC_DQBUF dq_arg w) as (l & Hs & Ht & Ha & Hres).
  destruct (xioctl (fd dev) VIDIOC_DQBUF dq_arg w) as [[[r a]| | |] w1];
    simpl in Hs, Ht, Ha, Hres; try done.
  2:{ destruct Hres as [Hnil Hl]. intros [= <- <-].
      eexists. split; [done|]. split; [|script_tac].
      rewrite Ha. by apply ex_dq_stuck. }
  destruct Hres as (l0 & rp & -> & Hl0 & E & -> & -> & He).
  destruct (ret rp <? 0) eqn:Hr.
  - apply Z.ltb_lt in Hr. rewrite (He Hr).
    destruct (err rp =? EAGAIN) eqn:Hag; intros [= <- <-].
    + apply Z.eqb_eq in Hag. eexists. split; [done|]. split; [|script_tac].
      rewrite Ha. by apply ex_dq_again.
    + apply Z.eqb_neq in Hag. eexists. split; [done|]. split; [|script_tac].
      rewrite Ha. apply ex_dq_failed; auto using eintr_false_neg.
  - apply Z.ltb_ge in Hr.
    destruct (index_ok dev (get_buf (arg_after dq_arg (l0 ++ [rp])))) eqn:Hix; simpl.
    2:{ intros [= <- <-]. eexists. split; [done|]. split; [|script_tac].
        rewrite Ha. by apply ex_bad_index. }
    destruct (f _ _ (shm w1) (app w1)) as [fr'|] eqn:Hf; simpl.
    2:{ intros [= <- <-]. eexists. simpl. split; [by rewrite Ht, <- app_assoc|].
        split; [|script_tac]. rewrite Ha in *. by apply ex_callback_crash. }
    match goal with |- context [xioctl ?h ?q ?b ?w2] =>
      destruct (xioctl_facts h q b w2) as (lq & Hs2 & Ht2 & Ha2 & Hres2);
      destruct (xioctl h q b w2) as [[[r2 a2]| | |] w3] end;
      simpl in Hs2, Ht2, Ha2, Hres2; try done.
    + destruct Hres2 as (l1 & rq & -> & Hl1 & E2 & -> & _ & He2).
      destruct (ret rq <? 0) eqn:Hr2; intros [= <- <-].
      * apply Z.ltb_lt in Hr2. eexists. split.
        { rewrite Ht2, Ht, <- !app_assoc. simpl. done. }
        split; [|script_tac].
        rewrite Ha2, Ha in *. apply ex_requeue; try done.
        by apply requeue_failed.
      * apply Z.ltb_ge in Hr2. eexists. split.
        { rewrite Ht2, Ht, <- !app_assoc. simpl. done. }
        split; [|script_tac].
        rewrite Ha2, Ha in *. apply ex_requeue; try done.
        by apply requeue_ok.
    + destruct Hres2 as [Hnil Hlq]. intros [= <- <-]. eexists. split.
      { rewrite Ht2, Ht, <- !app_assoc. simpl. done. }
      split; [|script_tac].
      rewrite Ha2, Ha in *. apply ex_requeue; try done.
      by apply requeue_stuck.
Qed.

Lemma wait_ready_nil dev w : script w = [] → wait_ready dev w = (Stuck, w).
Proof. intros H. unfold wait_ready, bind, select, bind, syscall. by rewrite H. Qed.

Lemma wait_ready_cons dev w rp s :
  script w = rp :: s →
  wait_ready dev w =
    (if ret rp =? -1 then if err rp =? EINTR then Ret false else Throw "select"
     else if ret rp =? 0 then Throw "select timeout" else Ret true,
     answered w (ev_select dev) rp s).
Proof.
  intros H. unfold wait_ready, bind, select, bind, syscall. rewrite H. simpl.
  destruct (ret rp =? -1) eqn:E1.
  - apply Z.eqb_eq in E1. rewrite E1. simpl. by destruct (err rp =? EINTR).
  - by destruct (ret rp =? 0).
Qed.

Lemma poll_round_consumes dev f w b w' :
  poll_round dev f w = (Ret b, w') → (length (script w') < length (script w))%nat.
Proof.
  unfold poll_round, bind. destruct (script w) as [|rp s] eqn:Hs.
  - by rewrite wait_ready_nil.
  - rewrite (wait_ready_cons _ _ rp s) by done.
    destruct (ret rp =? -1); [destruct (err rp =? EINTR)|destruct (ret rp =? 0)];
      try done.
    + intros [= <- <-]. simpl. lia.
    + intros H. apply exchange_sound in H as (t & _ & _ & Hl).
      change (script (answered w (ev_select dev) rp s)) with s in Hl.
      rewrite Hl. simpl. rewrite length_app. lia.
Qed.

Lemma poll_loop_fuel dev f n m w :
  (length (script w) < n)%nat → (length (script w) < m)%nat →
  poll_loop n dev f w = poll_loop m dev f w.
Proof.
  revert m w. induction n as [|n IH]; intros m w Hn Hm; [lia|].
  destruct m as [|m]; [lia|]. simpl. unfold bind.
  destruct (poll_round dev f w) as [[[|]| | |] w'] eqn:Hr; try done.
  apply poll_round_consumes in Hr. apply IH; lia.
Qed.

(** The loop, one round at a time. *)
Lemma poll_unfold dev f w :
  poll dev f w =
    match poll_round dev f w with
    | (Ret true, w') => (Ret tt, w')
    | (Ret false, w') => poll dev f w'
    | (Throw s, w') => (Throw s, w')
    | (Crash, w') => (Crash, w')
    | (Stuck, w') => (Stuck, w')
    end.
Proof.
  unfold poll at 1. simpl. unfold bind.
  destruct (poll_round dev f w) as [[[|]| | |] w'] eqn:Hr; try done.
  apply poll_round_consumes in Hr. unfold poll. apply poll_loop_fuel; lia.
Qed.

Lemma poll_sound dev f w :
  ∃ t, trace (poll dev f w).2 = trace w ++ t ∧
       script w = replies t ++ script (poll dev f w).2 ∧
       poll_shape dev f (app w) t (poll dev f w).1 (app (poll dev f w).2).
Proof.
  remember (length (script w)) as n eqn:Hn. revert w Hn.
  induction (lt_wf n) as [n _ IH]. intros w ->.
  rewrite poll_unfold.
  destruct (poll_round dev f w) as [o w'] eqn:Hround.
  assert (Hc : ∀ b, o = Ret b → (length (script w') < length (script w))%nat)
    by (intros b ->; by eapply poll_round_consumes).
  revert Hround. unfold poll_round, bind.
  destruct (script w) as [|rp s] eqn:Hs.
  { rewrite wait_ready_nil by done. intros [= <- <-]. exists []. simpl.
    rewrite app_nil_r. repeat split; [done|]. constructor. }
  rewrite (wait_ready_cons _ _ rp s) by done.
  destruct (ret rp =? -1) eqn:E1.
  { apply Z.eqb_eq in E1. destruct (err rp =? EINTR) eqn:E2.
    - apply Z.eqb_eq in E2. intros [= <- <-].
      destruct (IH _ (Hc _ eq_refl) _ eq_refl) as (t & Ht & Hsc & Hsh).
      exists (ev_select dev rp :: t). rewrite Ht. simpl. rewrite <- app_assoc.
      split; [done|]. split; [by rewrite <- Hsc|]. by apply poll_interrupted.
    - apply Z.eqb_neq in E2. intros [= <- <-]. exists [ev_select dev rp].
      simpl. repeat split. by apply poll_select_failed. }
  apply Z.eqb_neq in E1. destruct (ret rp =? 0) eqn:E0.
  { apply Z.eqb_eq in E0. intros [= <- <-]. exists [ev_select dev rp].
    simpl. repeat split. by apply poll_timeout. }
  apply Z.eqb_neq in E0. intros Hex.
  apply exchange_sound in Hex as (t1 & Ht1 & Hsh1 & Hsc1). simpl in Ht1, Hsh1, Hsc1.
  destruct o as [[|]| | |].
  - exists (ev_select dev rp :: t1). simpl. rewrite Ht1, <- app_assoc.
    split; [done|]. split; [by rewrite <- Hsc1|]. by apply poll_delivered.
  - destruct (IH _ (Hc _ eq_refl) _ eq_refl) as (t & Ht & Hsc & Hsh).
    exists (ev_select dev rp :: t1 ++ t). rewrite Ht, Ht1. simpl.
    rewrite <- !app_assoc. split; [done|].
    split; [by rewrite replies_app, <- app_assoc, <- Hsc, <- Hsc1|].
    by eapply poll_again.
  - exists (ev_select dev rp :: t1). simpl. rewrite Ht1, <- app_assoc.
    split; [done|]. split; [by rewrite <- Hsc1|]. by apply poll_thrown.
  - exists (ev_select dev rp :: t1). simpl. rewrite Ht1, <- app_assoc.
    split; [done|]. split; [by rewrite <- Hsc1|]. by apply poll_crashed.
  - exists (ev_select dev rp :: t1). simpl. rewrite Ht1, <- app_assoc.
    split; [done|]. split; [by rewrite <- Hsc1|]. by apply poll_blocked.
Qed.

(** ** Facts about recorded calls *)

Lemma arg_after_snoc a l rp :
  arg_after a (l ++ [rp]) = default (arg_after a l) (out rp).
Proof. unfold arg_after. by rewrite foldl_snoc. Qed.

Lemma arg_after_quiet a l :
  Forall (λ x, eintr x = true) l → Forall quiet l → arg_after a l = a.
Proof.
  induction l as [|rp l IH] using rev_ind; [done|].
  rewrite !Forall_app, !Forall_singleton. intros [? E] [? Hq].
  rewrite arg_after_snoc, IH by done. by rewrite (Hq E).
Qed.

Lemma ioctl_events_quiet fh rq a l :
  Forall (λ x, eintr x = true) l → Forall quiet l →
  ioctl_events fh rq a l = EvIoctl fh rq a <$> l.
Proof.
  induction l as [|rp l IH]; [done|].
  rewrite !Forall_cons. intros [E ?] [Hq ?]. simpl.
  rewrite (Hq E). simpl. by rewrite IH.
Qed.

Lemma ioctl_events_snoc fh rq a l rp :
  ioctl_events fh rq a (l ++ [rp]) =
  ioctl_events fh rq a l ++ [EvIoctl fh rq (arg_after a l) rp].
Proof. by rewrite ioctl_events_app. Qed.

Lemma waiting_ioctl_events fh a l :
  Forall waiting_event (ioctl_events fh VIDIOC_DQBUF a l).
Proof. revert a. induction l as [|rp l IH]; intros a; simpl; by constructor. Qed.

Lemma waiting_no_callbacks t : Forall waiting_event t → callbacks t = [].
Proof.
  induction 1 as [|e t He _ IH]; [done|]. by destruct e.
Qed.

(** The trace of a call of [poll] that returns. *)
Lemma poll_delivered_shape dev f fr t o fr' :
  poll_shape dev f fr t o fr' → o = Ret tt →
  ∃ t_wait a rp mem lq rq,
    let buf := get_buf (default a (out rp)) in
    let data := b_start (buffer_at dev (buf_index buf)) in
    t = t_wait ++ EvIoctl (fd dev) VIDIOC_DQBUF a rp ::
                  EvCallback data (buf_bytesused buf) (mem data) ::
                  ioctl_events (fd dev) VIDIOC_QBUF (ABuf buf) (lq ++ [rq]) ∧
    Forall waiting_event t_wait ∧ 0 ≤ ret rp ∧ index_ok dev buf = true ∧
    Forall (λ x, eintr x = true) lq ∧ 0 ≤ ret rq ∧
    f data (buf_bytesused buf) mem fr = Some fr'.
Proof.
  induction 1 as [fr|fr rp t o fr' R E Hsh IH|fr rp R E|fr rp R
                 |fr rp t1 fr1 t o fr' R1 R0 Hex Hsh IH|fr rp t1 fr' R1 R0 Hex
                 |fr rp t1 s fr' R1 R0 Hex|fr rp t1 fr' R1 R0 Hex
                 |fr rp t1 fr' R1 R0 Hex];
    intros Ho; try done.
  - destruct (IH Ho) as (tw & a & rp' & mem & lq & rq & -> & Hw & ?).
    exists (ev_select dev rp :: tw), a, rp', mem, lq, rq.
    split; [done|]. split; [by constructor|done].
  - destruct (IH Ho) as (tw & a & rp' & mem & lq & rq & -> & Hw & ?).
    inversion Hex as [|l rp0 Hl Hr He Ht1| | | |l rp0 mem0 fr0 lq0 o0 buf data Hl Hr Hix Hf Hend];
      subst; [|by inversion Hend].
    exists (ev_select dev rp :: ioctl_events (fd dev) VIDIOC_DQBUF dq_arg (l ++ [rp0]) ++ tw),
      a, rp', mem, lq, rq.
    split; [simpl; by rewrite <- app_assoc|]. split; [|done].
    constructor; [done|]. apply Forall_app. split; [apply waiting_ioctl_events|done].
  - inversion Hex as [| | | | |l rp0 mem fr0 lq0 o0 buf data Hl Hr Hix Hf Hend]; subst.
    inversion Hend as [| |l1 rq Hl1 Hrq]; subst.
    exists (ev_select dev rp :: ioctl_events (fd dev) VIDIOC_DQBUF dq_arg l),
      (arg_after dq_arg l), rp0, mem, l1, rq.
    subst buf data. rewrite arg_after_snoc in *.
    split; [|split; [constructor; [done|apply waiting_ioctl_events]|done]].
    rewrite ioctl_events_snoc. simpl. by rewrite <- app_assoc.
Qed.





Lemma callbacks_fmap_ioctl fh rq a (l : list reply) :
  callbacks (EvIoctl fh rq a <$> l) = [].
Proof. induction l as [|rp l IH]; [done|]. exact IH. Qed.

(** ** C1 *)




Example poll_run :
  let w' := (poll dev_ex cb_ex (world_of script_ex no_frames)).2 in
  callbacks (trace w') = [(8192, 7)] ∧
  owner (trace w') 1 = QueuedToDevice ∧ owner (trace w') 0 = Free ∧
  length (trace w') = 9%nat.
Proof. by vm_compute. Qed.

(** ** Rounds of [poll] on a given script *)

Lemma poll_round_eq dev f w rp s :
  script w = rp :: s →
  poll_round dev f w =
    let w1 := answered w (ev_select dev) rp s in
    if ret rp =? -1 then
      if err rp =? EINTR then (Ret false, w1) else (Throw "select", w1)
    else if ret rp =? 0 then (Throw "select timeout", w1)
    else exchange dev f w1.
Proof.
  intros H. unfold poll_round, bind. rewrite (wait_ready_cons _ _ rp s) by done.
  simpl. destruct (ret rp =? -1); [by destruct (err rp =? EINTR)|].
  by destruct (ret rp =? 0).
Qed.

Lemma exchange_eq dev f w :
  exchange dev f w =
    match xioctl (fd dev) VIDIOC_DQBUF dq_arg w with
    | (Ret (r, a), w1) =>
        if r <? 0 then
          if errno w1 =? EAGAIN then (Ret false, w1) else (Throw "VIDIOC_DQBUF", w1)
        else if index_ok dev (get_buf a) then
          let data := b_start (buffer_at dev (buf_index (get_buf a))) in
          let size := buf_bytesused (get_buf a) in
          match f data size (shm w1) (app w1) with
          | Some fr =>
              match xioctl (fd dev) VIDIOC_QBUF (ABuf (get_buf a))
                      (delivered_to w1 data size fr) with
              | (Ret (r2, _), w2) =>
                  if r2 <? 0 then (Throw "VIDIOC_QBUF", w2) else (Ret true, w2)
              | (Throw s, w2) => (Throw s, w2)
              | (Crash, w2) => (Crash, w2)
              | (Stuck, w2) => (Stuck, w2)
              end
          | None => (Crash, delivered_to w1 data size (app w1))
          end
        else (Crash, w1)
    | (Throw s, w1) => (Throw s, w1)
    | (Crash, w1) => (Crash, w1)
    | (Stuck, w1) => (Stuck, w1)
    end.
Proof.
  unfold exchange. fold dq_arg. unfold bind, get_errno, invoke, bind, log, ret_,
    throw_error, throw, crash, delivered_to.
  destruct (xioctl (fd dev) VIDIOC_DQBUF dq_arg w) as [[[r a]| | |] w1]; try done.
  destruct (r <? 0); [by destruct (errno w1 =? EAGAIN)|].
  destruct (index_ok dev (get_buf a)); simpl; [|done].
  destruct (f _ _ (shm w1) (app w1)) as [fr|]; simpl; [|done].
  match goal with |- context [xioctl ?h ?q ?b ?w2] =>
    destruct (xioctl h q b w2) as [[[r2 a2]| | |] w3] end; try done.
  by destruct (r2 <? 0).
Qed.

Lemma interrupted_facts dev l : ∀ w s,
  script w = l ++ s →
  script (interrupted dev w l s) = s ∧
  trace (interrupted dev w l s) =
    trace w ++ (EvSelect (fd dev + 1) (fd dev) 2 0 <$> l) ∧
  app (interrupted dev w l s) = app w.
Proof.
  induction l as [|rp l IH]; intros w s Hs; simpl.
  - by rewrite app_nil_r.
  - destruct (IH (answered w (ev_select dev) rp (l ++ s)) s eq_refl) as (-> & -> & ->).
    simpl. by rewrite <- app_assoc.
Qed.

Lemma poll_interruptions dev f l : ∀ w s,
  script w = l ++ s →
  Forall (λ rp, ret rp = -1 ∧ err rp = EINTR) l →
  poll dev f w = poll dev f (interrupted dev w l s).
Proof.
  induction l as [|rp l IH]; intros w s Hs Hl; [done|].
  apply Forall_cons in Hl as [[Hr He] Hl]. simpl.
  rewrite poll_unfold, (poll_round_eq _ _ _ rp (l ++ s)) by done. simpl.
  rewrite Hr, He. simpl. by apply IH.
Qed.

(** A ready descriptor, a filled buffer, a successful re-submission. *)
Lemma poll_delivers dev f w rp_ready rp_dq rp_q s fr :
  script w = rp_ready :: rp_dq :: rp_q :: s →
  ret rp_ready ≠ -1 → ret rp_ready ≠ 0 → 0 ≤ ret rp_dq → 0 ≤ ret rp_q →
  let w1 := answered w (ev_select dev) rp_ready (rp_dq :: rp_q :: s) in
  let w2 := answered w1 (EvIoctl (fd dev) VIDIOC_DQBUF dq_arg) rp_dq (rp_q :: s) in
  let buf := get_buf (default dq_arg (out rp_dq)) in
  let data := b_start (buffer_at dev (buf_index buf)) in
  index_ok dev buf = true →
  f data (buf_bytesused buf) (shm w2) (app w) = Some fr →
  poll dev f w =
    (Ret tt, answered (delivered_to w2 data (buf_bytesused buf) fr)
               (EvIoctl (fd dev) VIDIOC_QBUF (ABuf buf)) rp_q s).
Proof.
  intros Hs R1 R0 Hdq Hq w1 w2 buf data Hix Hf.
  assert (Edq : eintr rp_dq = false).
  { unfold eintr. apply Z.ltb_ge in Hdq. by rewrite Hdq. }
  assert (Eq : eintr rp_q = false).
  { unfold eintr. apply Z.ltb_ge in Hq. by rewrite Hq. }
  rewrite poll_unfold, (poll_round_eq _ _ _ rp_ready (rp_dq :: rp_q :: s)) by done.
  simpl. apply Z.eqb_neq in R1, R0. rewrite R1, R0.
  rewrite exchange_eq.
  rewrite (xioctl_cons _ _ _ _ rp_dq (rp_q :: s)) by done. rewrite Edq.
  apply Z.ltb_ge in Hdq. rewrite Hdq. fold buf. rewrite Hix.
  subst w1 w2 data. simpl in Hf |- *. rewrite Hf.
  rewrite (xioctl_cons _ _ _ _ rp_q s) by done. rewrite Eq.
  apply Z.ltb_ge in Hq. by rewrite Hq.
Qed.

(** A call of [poll] starts by waiting: the first call it makes is
    [select], with a timeout of 2 s. *)
Lemma poll_first_event dev f w rp s :
  script w = rp :: s →
  ∃ t, trace (poll dev f w).2 =
       trace w ++ EvSelect (fd dev + 1) (fd dev) 2 0 rp :: t.
Proof.
  intros Hs. rewrite poll_unfold, (poll_round_eq _ _ _ rp s) by done. simpl.
  set (w1 := answered w (ev_select dev) rp s).
  assert (Hw1 : trace w1 = trace w ++ [EvSelect (fd dev + 1) (fd dev) 2 0 rp]) by done.
  assert (Hpoll : ∀ w2 t2, trace w2 = trace w1 ++ t2 →
            ∃ t, trace (poll dev f w2).2 =
                 trace w ++ EvSelect (fd dev + 1) (fd dev) 2 0 rp :: t).
  { intros w2 t2 H2. destruct (poll_sound dev f w2) as (t3 & -> & _).
    exists (t2 ++ t3). rewrite H2, Hw1, <- !app_assoc. done. }
  destruct (ret rp =? -1).
  { destruct (err rp =? EINTR); simpl.
    - apply (Hpoll w1 []). by rewrite app_nil_r.
    - exists []. done. }
  destruct (ret rp =? 0); [by exists []|].
  destruct (exchange dev f w1) as [o w2] eqn:Hex.
  apply exchange_sound in Hex as (t2 & Ht2 & _).
  destruct o as [[|]| | |]; simpl; try (exists t2; rewrite Ht2, Hw1, <- app_assoc; done).
  by apply (Hpoll w2 t2).
Qed.

(** ** C5 *)

(** C5. Replies [l] that interrupt the wait (select returns -1 with EINTR)
    are absorbed: each interrupted [select] was issued with the full timeout
    of 2 s and so is the next one, the application's buffers are untouched,
    and [poll] goes on as a fresh call would in the world where only the
    replies [s] remain.  However many interruptions there were, a frame that
    then becomes ready is dequeued, handed to the callback once and queued
    again, and [poll] returns. *)
Theorem poll_restarts_after_interruption dev f w l s :
  script w = l ++ s →
  Forall (λ rp, ret rp = -1 ∧ err rp = EINTR) l →
  let wi := interrupted dev w l s in
  trace wi = trace w ++ (EvSelect (fd dev + 1) (fd dev) 2 0 <$> l) ∧
  script wi = s ∧ app wi = app w ∧
  poll dev f w = poll dev f wi ∧
  (∀ rp_ready rp_dq rp_q s' fr,
     s = rp_ready :: rp_dq :: rp_q :: s' →
     ret rp_ready ≠ -1 → ret rp_ready ≠ 0 → 0 ≤ ret rp_dq → 0 ≤ ret rp_q →
     let w1 := answered wi (ev_select dev) rp_ready (rp_dq :: rp_q :: s') in
     let w2 := answered w1 (EvIoctl (fd dev) VIDIOC_DQBUF dq_arg) rp_dq (rp_q :: s') in
     let buf := get_buf (default dq_arg (out rp_dq)) in
     let data := b_start (buffer_at dev (buf_index buf)) in
     index_ok dev buf = true →
     f data (buf_bytesused buf) (shm w2) (app w) = Some fr →
     ∃ w',
       poll dev f w = (Ret tt, w') ∧
       trace w' = trace w ++ (EvSelect (fd dev + 1) (fd dev) 2 0 <$> l) ++
                  [ EvSelect (fd dev + 1) (fd dev) 2 0 rp_ready;
                    EvIoctl (fd dev) VIDIOC_DQBUF dq_arg rp_dq;
                    EvCallback data (buf_bytesused buf) (shm w2 data);
                    EvIoctl (fd dev) VIDIOC_QBUF (ABuf buf) rp_q ] ∧
       script w' = s' ∧ app w' = fr).
Proof.
  intros Hs Hl wi.
  destruct (interrupted_facts dev l w s Hs) as (Hsi & Hti & Hai).
  fold wi in Hsi, Hti, Hai.
  assert (Hp : poll dev f w = poll dev f wi) by by apply poll_interruptions.
  repeat split; try done.
  intros rp_ready rp_dq rp_q s' fr -> R1 R0 Hdq Hq w1 w2 buf data Hix Hf.
  eexists. split.
  - rewrite Hp. apply poll_delivers; try done. by rewrite Hai.
  - simpl. rewrite Hti, <- !app_assoc. done.
Qed.

Lemma poll_restarts_after_interruption_witness :
  ∃ w', poll dev_ex cb_ex
          (world_of ([reply_fail EINTR; reply_fail EINTR; reply_fail EINTR] ++
                     [reply_ok 1 None; reply_dqbuf 1 7 []; reply_ok 0 None]) no_frames)
        = (Ret tt, w') ∧
        callbacks (trace w') = [(8192, 7)] ∧ script w' = [].
Proof.
  destruct (poll_restarts_after_interruption dev_ex cb_ex
              (world_of ([reply_fail EINTR; reply_fail EINTR; reply_fail EINTR] ++
                         [reply_ok 1 None; reply_dqbuf 1 7 []; reply_ok 0 None]) no_frames)
              [reply_fail EINTR; reply_fail EINTR; reply_fail EINTR]
              [reply_ok 1 None; reply_dqbuf 1 7 []; reply_ok 0 None])
    as (_ & _ & _ & _ & H).
  - reflexivity.
  - repeat constructor.
  - destruct (H (reply_ok 1 None) (reply_dqbuf 1 7 []) (reply_ok 0 None) [] no_frames)
      as (w' & Hrun & Ht & Hsc & _); try done.
    exists w'. split; [exact Hrun|]. split; [|exact Hsc].
    rewrite Ht. reflexivity.
Defined.

(** ** C8 *)

Lemma poll_dequeue_failure dev f fr t o fr' :
  poll_shape dev f fr t o fr' → o = Throw "VIDIOC_DQBUF" →
  ∃ a rp, last t = Some (EvIoctl (fd dev) VIDIOC_DQBUF a rp) ∧
          ret rp < 0 ∧ err rp ≠ EAGAIN.
Proof.
  induction 1 as [fr|fr rp t o fr' R E Hsh IH|fr rp R E|fr rp R
                 |fr rp t1 fr1 t o fr' R1 R0 Hex Hsh IH|fr rp t1 fr' R1 R0 Hex
                 |fr rp t1 s fr' R1 R0 Hex|fr rp t1 fr' R1 R0 Hex
                 |fr rp t1 fr' R1 R0 Hex];
    intros Ho; try done.
  - destruct (IH Ho) as (a & rq & Hlast & ?). exists a, rq. split; [|done].
    rewrite last_cons, Hlast. done.
  - destruct (IH Ho) as (a & rq & Hlast & ?). exists a, rq. split; [|done].
    rewrite last_cons, last_app, Hlast. done.
  - injection Ho as ->.
    inversion Hex as [| |l rp0 Hl Hr He He'| | |l rp0 mem fr0 lq o0 buf data Hl Hr Hix Hf Hend];
      subst; [|by inversion Hend].
    exists (arg_after dq_arg l), rp0. split; [|done].
    by rewrite last_cons, ioctl_events_snoc, last_snoc.
Qed.

(** C8. When the wait reported readiness and VIDIOC_DQBUF then fails with
    EAGAIN, the round makes no callback and leaves the application's buffers
    alone, and [poll] goes on as a fresh call would from there, which starts
    with [select] again.  With any other error left by the failed
    VIDIOC_DQBUF, [poll] throws; and whenever [poll] throws in the dequeue
    step, the last call was a VIDIOC_DQBUF that failed with an error other
    than EAGAIN. *)
Theorem poll_dequeue_try_again dev f w rp s r a w2 :
  script w = rp :: s → ret rp ≠ -1 → ret rp ≠ 0 →
  xioctl (fd dev) VIDIOC_DQBUF dq_arg (answered w (ev_select dev) rp s) = (Ret (r, a), w2) →
  r < 0 →
  (∃ t, trace w2 = trace w ++ t ∧ callbacks t = [] ∧ app w2 = app w) ∧
  (errno w2 = EAGAIN →
     poll dev f w = poll dev f w2 ∧
     ∀ rp' s', script w2 = rp' :: s' →
       ∃ t', trace (poll dev f w).2 =
             trace w2 ++ EvSelect (fd dev + 1) (fd dev) 2 0 rp' :: t') ∧
  (errno w2 ≠ EAGAIN → poll dev f w = (Throw "VIDIOC_DQBUF", w2)) ∧
  (∀ w0 w', poll dev f w0 = (Throw "VIDIOC_DQBUF", w') →
     ∃ t a' rp', trace w' = trace w0 ++ t ∧
                 last t = Some (EvIoctl (fd dev) VIDIOC_DQBUF a' rp') ∧
                 ret rp' < 0 ∧ err rp' ≠ EAGAIN).
Proof.
  intros Hs R1 R0 Hx Hr.
  assert (Hround : poll_round dev f w =
            if errno w2 =? EAGAIN then (Ret false, w2) else (Throw "VIDIOC_DQBUF", w2)).
  { rewrite (poll_round_eq _ _ _ rp s) by done. simpl.
    apply Z.eqb_neq in R1, R0. rewrite R1, R0, exchange_eq, Hx.
    apply Z.ltb_lt in Hr. by rewrite Hr. }
  split; [|split; [|split]].
  - destruct (xioctl_facts (fd dev) VIDIOC_DQBUF dq_arg (answered w (ev_select dev) rp s))
      as (l & _ & Ht & Ha & _).
    rewrite Hx in Ht, Ha. simpl in Ht, Ha.
    eexists. split; [by rewrite Ht, <- app_assoc|]. split; [|done].
    simpl. apply callbacks_ioctl_events.
  - intros He. assert (Hp : poll dev f w = poll dev f w2).
    { rewrite poll_unfold, Hround. apply Z.eqb_eq in He. by rewrite He. }
    split; [done|]. intros rp' s' Hs2. rewrite Hp. by eapply poll_first_event.
  - intros He. rewrite poll_unfold, Hround. apply Z.eqb_neq in He. by rewrite He.
  - intros w0 w' Hrun. destruct (poll_sound dev f w0) as (t & Ht & _ & Hsh).
    rewrite Hrun in Ht, Hsh. simpl in Ht, Hsh.
    destruct (poll_dequeue_failure _ _ _ _ _ _ Hsh eq_refl) as (a' & rp' & ? & ? & ?).
    by exists t, a', rp'.
Qed.

Lemma poll_dequeue_try_again_witness :
  poll dev_ex cb_ex
    (world_of [reply_ok 1 None; reply_fail EAGAIN; reply_ok 1 None;
               reply_dqbuf 0 5 []; reply_ok 0 None] no_frames) =
  poll dev_ex cb_ex
    (xioctl 3 VIDIOC_DQBUF dq_arg
       (answered (world_of [reply_ok 1 None; reply_fail EAGAIN; reply_ok 1 None;
                            reply_dqbuf 0 5 []; reply_ok 0 None] no_frames)
          (ev_select dev_ex) (reply_ok 1 None)
          [reply_fail EAGAIN; reply_ok 1 None; reply_dqbuf 0 5 []; reply_ok 0 None])).2.
Proof.
  eapply (poll_dequeue_try_again dev_ex cb_ex
            (world_of [reply_ok 1 None; reply_fail EAGAIN; reply_ok 1 None;
                       reply_dqbuf 0 5 []; reply_ok 0 None] no_frames)
            (reply_ok 1 None)
            [reply_fail EAGAIN; reply_ok 1 None; reply_dqbuf 0 5 []; reply_ok 0 None]
            (-1) dq_arg).
  - reflexivity.
  - done.
  - done.
  - vm_compute. reflexivity.
  - lia.
  - reflexivity.
Defined.

(** ** Interrupted control calls in a trace *)

Lemma retried_app t1 t2 :
  retried t1 → ¬ pending t1 → retried t2 → retried (t1 ++ t2).
Proof.
  intros H1 Hp H2. induction t1 as [|e t1 IH]; [done|].
  assert (Hp' : ¬ pending t1).
  { intros (fh & rq & a & rp & Hl & E). apply Hp. exists fh, rq, a, rp.
    split; [|done]. by rewrite last_cons, Hl. }
  destruct e; simpl in *; try by apply IH.
  destruct H1 as [H1 H1']. split; [|by apply IH].
  intros E. destruct t1 as [|e' t1]; simpl; [|by apply H1].
  exfalso. apply Hp. by repeat eexists.
Qed.

Lemma pending_app t1 t2 : pending (t1 ++ t2) → (t2 = [] ∧ pending t1) ∨ pending t2.
Proof.
  intros (fh & rq & a & rp & Hl & E). rewrite last_app in Hl.
  destruct (last t2) as [e|] eqn:H2.
  - right. exists fh, rq, a, rp. by rewrite <- Hl.
  - left. apply last_None in H2. split; [done|]. by exists fh, rq, a, rp.
Qed.

Lemma retrying_ret {A} (a : A) : retrying (ret_ a).
Proof.
  intros w. exists []. simpl. rewrite app_nil_r.
  repeat split. by intros (? & ? & ? & ? & ? & ?).
Qed.

Lemma retrying_throw {A} s : retrying (@throw A s).
Proof.
  intros w. exists []. simpl. rewrite app_nil_r.
  repeat split. by intros (? & ? & ? & ? & ? & ?).
Qed.

Lemma retrying_crash {A} : retrying (@crash A).
Proof.
  intros w. exists []. simpl. rewrite app_nil_r.
  repeat split. by intros (? & ? & ? & ? & ? & ?).
Qed.

Lemma retrying_get_errno : retrying get_errno.
Proof.
  intros w. exists []. simpl. rewrite app_nil_r.
  repeat split. by intros (? & ? & ? & ? & ? & ?).
Qed.

Lemma retrying_bind {A B} (m : M A) (k : A → M B) :
  retrying m → (∀ a, retrying (k a)) → retrying (bind m k).
Proof.
  intros Hm Hk w. unfold bind. destruct (Hm w) as (t1 & Ht1 & Hr1 & Hp1).
  destruct (m w) as [[a| | |] w1]; simpl in *;
    try (exists t1; repeat split; try done; intros Hp; by specialize (Hp1 Hp)).
  destruct (Hk a w1) as (t2 & Ht2 & Hr2 & Hp2).
  exists (t1 ++ t2). rewrite Ht2, Ht1, <- app_assoc. split; [done|].
  assert (¬ pending t1) by (intros Hp; by specialize (Hp1 Hp)).
  split; [by apply retried_app|].
  intros [[-> Hp]|Hp]%pending_app; [done|by apply Hp2].
Qed.

Lemma retrying_syscall mk : (∀ rp, not_ioctl (mk rp)) → retrying (syscall mk).
Proof.
  intros Hmk w. unfold syscall. destruct (script w) as [|rp s]; simpl.
  - exists []. rewrite app_nil_r. by repeat split.
  - exists [mk rp]. specialize (Hmk rp). split; [done|].
    split; [by destruct (mk rp)|].
    intros (? & ? & ? & ? & [= Hl] & _). by rewrite Hl in Hmk.
Qed.

Lemma retrying_log e : not_ioctl e → retrying (log e).
Proof.
  intros He w. exists [e]. simpl. split; [done|]. split; [by destruct e|].
  intros (? & ? & ? & ? & [= Hl] & _). by rewrite Hl in He.
Qed.

Lemma retried_ioctl_events fh rq a l : retried (ioctl_events fh rq a l).
Proof.
  revert a. induction l as [|rp l IH]; intros a; simpl; [done|].
  split; [|apply IH]. intros _. destruct l; simpl; eauto.
Qed.

Lemma retrying_xioctl fh rq a : retrying (xioctl fh rq a).
Proof.
  intros w. destruct (xioctl_facts fh rq a w) as (l & _ & Ht & _ & Hres).
  exists (ioctl_events fh rq a l). split; [done|].
  split; [apply retried_ioctl_events|].
  intros (fh' & rq' & a' & rp' & Hl & E).
  destruct (xioctl fh rq a w) as [[[r a1]| | |] w1]; simpl in *; try done.
  destruct Hres as (l0 & rp & -> & _ & E' & _).
  rewrite ioctl_events_snoc, last_snoc in Hl. injection Hl as <- <- <- <-. congruence.
Qed.

Ltac retrying_step :=
  lazymatch goal with
  | |- retrying (bind _ _) => apply retrying_bind; [|intros ?]
  | |- retrying (ret_ _) => apply retrying_ret
  | |- retrying (throw _) => apply retrying_throw
  | |- retrying (throw_error _) => apply retrying_throw
  | |- retrying crash => apply retrying_crash
  | |- retrying get_errno => apply retrying_get_errno
  | |- retrying (xioctl _ _ _) => apply retrying_xioctl
  | |- retrying (syscall _) => apply retrying_syscall; by intros ?
  | |- retrying (log _) => by apply retrying_log
  | |- retrying (when_ ?c _) => unfold when_; destruct c
  | |- retrying (if ?c then _ else _) => destruct c
  | |- retrying (match ?x with _ => _ end) => destruct x
  end.

Lemma retrying_map_loop n : ∀ i h bufs, retrying (map_loop n i h bufs).
Proof.
  induction n as [|n IH]; intros i h bufs; simpl; [apply retrying_ret|].
  unfold mmap. repeat retrying_step. apply IH.
Qed.

Lemma retrying_queue_loop n : ∀ i h, retrying (queue_loop n i h).
Proof.
  induction n as [|n IH]; intros i h; simpl; [apply retrying_ret|].
  repeat retrying_step. apply IH.
Qed.

Lemma retrying_unmap_loop bufs : retrying (unmap_loop bufs).
Proof.
  induction bufs as [|b bufs IH]; simpl; [apply retrying_ret|].
  unfold munmap, warn_error. repeat retrying_step. apply IH.
Qed.

Lemma retrying_ctor name force : retrying (subdevice_ctor name force).
Proof.
  unfold subdevice_ctor, open_device, query_caps, reset_crop, negotiate_format,
    request_buffers, start_streaming, map_buffers, stream_on, stat, open.
  repeat first [apply retrying_map_loop | apply retrying_queue_loop | retrying_step].
Qed.

Lemma retrying_dtor dev : retrying (subdevice_dtor dev).
Proof.
  unfold subdevice_dtor, close, warn_error.
  repeat first [apply retrying_unmap_loop | retrying_step].
Qed.

Lemma retrying_invoke f data size : retrying (invoke f data size).
Proof.
  intros w. unfold invoke, bind, log. simpl.
  exists [EvCallback data size (shm w data)].
  destruct (f data size (shm w) (app w)); simpl;
    (split; [done|]; split; [done|]; by intros (? & ? & ? & ? & [=] & _)).
Qed.

Lemma retrying_poll_loop dev f n : retrying (poll_loop n dev f).
Proof.
  induction n as [|n IH]; simpl.
  - intros w. exists []. simpl. rewrite app_nil_r. by repeat split.
  - unfold poll_round, wait_ready, exchange, select.
    repeat first [apply retrying_invoke | apply IH | retrying_step].
Qed.

Lemma retrying_poll dev f : retrying (poll dev f).
Proof. intros w. apply retrying_poll_loop. Qed.

(** ** C9 *)

Lemma xioctl_absorbs fh rq l : ∀ a w rp s,
  script w = l ++ rp :: s →
  Forall (λ x, eintr x = true) l → eintr rp = false →
  ∃ w', xioctl fh rq a w = (Ret (ret rp, arg_after a (l ++ [rp])), w') ∧
        trace w' = trace w ++ ioctl_events fh rq a (l ++ [rp]) ∧
        script w' = s.
Proof.
  induction l as [|r0 l IH]; intros a w rp s Hs Hl E.
  - rewrite (xioctl_cons _ _ _ _ rp s), E by done. eexists. by split.
  - apply Forall_cons in Hl as [E0 Hl].
    rewrite (xioctl_cons _ _ _ _ r0 (l ++ rp :: s)), E0 by done.
    destruct (IH (default a (out r0)) (answered w (EvIoctl fh rq a) r0 (l ++ rp :: s))
                 rp s eq_refl Hl E) as (w' & -> & Ht & Hs').
    exists w'. split; [done|]. split; [|done].
    rewrite Ht. simpl. by rewrite <- app_assoc.
Qed.

(** C9. [xioctl] is the only way the session issues a control request, for
    every request alike: however many times the kernel answers with EINTR,
    the request is issued again, and what [xioctl] returns is the first
    answer that is not an interruption, so a result of [xioctl] is never a
    failure with [errno] = EINTR.  In the traces of the constructor, of
    [poll] and of the destructor every interrupted control call is followed
    at once by the same request on the same descriptor; the run ends on an
    interrupted call only while the kernel has not answered the retry. *)
Theorem control_calls_retry_eintr :
  (∀ fh rq a w l rp s,
     script w = l ++ rp :: s →
     Forall (λ x, eintr x = true) l → eintr rp = false →
     ∃ w', xioctl fh rq a w = (Ret (ret rp, arg_after a (l ++ [rp])), w') ∧
           trace w' = trace w ++ ioctl_events fh rq a (l ++ [rp]) ∧
           script w' = s) ∧
  (∀ fh rq a w r a' w',
     xioctl fh rq a w = (Ret (r, a'), w') → ¬ (r < 0 ∧ errno w' = EINTR)) ∧
  (∀ name force_format, retrying (subdevice_ctor name force_format)) ∧
  (∀ dev f, retrying (poll dev f)) ∧
  (∀ dev, retrying (subdevice_dtor dev)).
Proof.
  split; [intros; by apply xioctl_absorbs|].
  split; [|auto using retrying_ctor, retrying_poll, retrying_dtor].
  intros fh rq a w r a' w' Hrun [Hneg He].
  destruct (xioctl_facts fh rq a w) as (l & _ & _ & _ & Hres).
  rewrite Hrun in Hres. simpl in Hres.
  destruct Hres as (l0 & rp & _ & _ & E & -> & _ & Herr).
  rewrite (Herr Hneg) in He. by apply (eintr_false_neg rp).
Qed.

Lemma control_calls_retry_eintr_witness :
  ∃ w', xioctl 3 VIDIOC_STREAMON (AType V4L2_BUF_TYPE_VIDEO_CAPTURE)
          (world_of [reply_fail EINTR; reply_fail EINTR; reply_ok 0 None] no_frames)
        = (Ret (0, AType V4L2_BUF_TYPE_VIDEO_CAPTURE), w') ∧
        length (trace w') = 3%nat.
Proof.
  destruct control_calls_retry_eintr as [H _].
  destruct (H 3 VIDIOC_STREAMON (AType V4L2_BUF_TYPE_VIDEO_CAPTURE)
              (world_of [reply_fail EINTR; reply_fail EINTR; reply_ok 0 None] no_frames)
              [reply_fail EINTR; reply_fail EINTR] (reply_ok 0 None) [])
    as (w' & Hrun & Ht & _).
  - reflexivity.
  - by repeat constructor.
  - reflexivity.
  - exists w'. split; [exact Hrun|]. by rewrite Ht.
Defined.

(** ** C3 *)

(** C3, as stated, fails where the unsigned products wrap: a driver that
    reports width 2^31 with stride 0 keeps stride 0, since 2 * 2^31 is 0 in
    32 bits; a driver that reports stride 65536 and height 65536 keeps the
    image size 0 it reported. *)
Lemma driver_paranoia_wraps :
  let narrow := {| fmt_type := V4L2_BUF_TYPE_VIDEO_CAPTURE;
                   fmt_pix := {| pix_width := 2147483648; pix_height := 1;
                                 pix_pixelformat := V4L2_PIX_FMT_YUYV;
                                 pix_field := V4L2_FIELD_INTERLACED;
                                 pix_bytesperline := 0; pix_sizeimage := 0 |} |} in
  let tall := {| fmt_type := V4L2_BUF_TYPE_VIDEO_CAPTURE;
                 fmt_pix := {| pix_width := 1; pix_height := 65536;
                               pix_pixelformat := V4L2_PIX_FMT_YUYV;
                               pix_field := V4L2_FIELD_INTERLACED;
                               pix_bytesperline := 65536; pix_sizeimage := 0 |} |} in
  ¬ (2 * pix_width (fmt_pix (driver_paranoia narrow))
       ≤ pix_bytesperline (fmt_pix (driver_paranoia narrow))) ∧
  ¬ (pix_bytesperline (fmt_pix (driver_paranoia tall)) *
       pix_height (fmt_pix (driver_paranoia tall))
       ≤ pix_sizeimage (fmt_pix (driver_paranoia tall))).
Proof. split; vm_compute; intros H; by apply H. Qed.

(** C3, amended. For every reported geometry whose 2 * width and whose
    (raised) stride * height fit in 32 bits, after the paranoia step the
    stride is at least 2 * width and the image size at least stride *
    height; a smaller reported value is raised to exactly that minimum, a
    value at or above it is kept, and width and height are not touched. *)
Theorem driver_paranoia_minimums fmt :
  let pix := fmt_pix fmt in
  let pix' := fmt_pix (driver_paranoia fmt) in
  0 ≤ pix_width pix → 2 * pix_width pix < 2 ^ 32 →
  0 ≤ pix_height pix →
  Z.max (pix_bytesperline pix) (2 * pix_width pix) * pix_height pix < 2 ^ 32 →
  pix_width pix' = pix_width pix ∧ pix_height pix' = pix_height pix ∧
  2 * pix_width pix' ≤ pix_bytesperline pix' ∧
  pix_bytesperline pix' * pix_height pix' ≤ pix_sizeimage pix' ∧
  (pix_bytesperline pix < 2 * pix_width pix →
     pix_bytesperline pix' = 2 * pix_width pix) ∧
  (2 * pix_width pix ≤ pix_bytesperline pix →
     pix_bytesperline pix' = pix_bytesperline pix) ∧
  (pix_sizeimage pix < pix_bytesperline pix' * pix_height pix →
     pix_sizeimage pix' = pix_bytesperline pix' * pix_height pix) ∧
  (pix_bytesperline pix' * pix_height pix ≤ pix_sizeimage pix →
     pix_sizeimage pix' = pix_sizeimage pix).
Proof.
  intros pix pix' Hw Hw2 Hh Hs. subst pix'. unfold driver_paranoia. fold pix. simpl.
  unfold u32. rewrite (Z.mod_small (pix_width pix * 2)) by lia.
  set (bpl := if pix_bytesperline pix <? pix_width pix * 2
              then pix_width pix * 2 else pix_bytesperline pix).
  assert (Hbpl : bpl = Z.max (pix_bytesperline pix) (2 * pix_width pix)).
  { subst bpl. destruct (Z.ltb_spec (pix_bytesperline pix) (pix_width pix * 2)); lia. }
  assert (0 ≤ bpl * pix_height pix < 2 ^ 32) by (rewrite Hbpl; nia).
  rewrite (Z.mod_small (bpl * pix_height pix)) by done.
  destruct (Z.ltb_spec (pix_sizeimage pix) (bpl * pix_height pix)); lia.
Qed.

Lemma driver_paranoia_minimums_witness :
  let fmt := {| fmt_type := V4L2_BUF_TYPE_VIDEO_CAPTURE;
                fmt_pix := {| pix_width := 640; pix_height := 480;
                              pix_pixelformat := V4L2_PIX_FMT_YUYV;
                              pix_field := V4L2_FIELD_INTERLACED;
                              pix_bytesperline := 640; pix_sizeimage := 307200 |} |} in
  pix_bytesperline (fmt_pix (driver_paranoia fmt)) = 1280 ∧
  pix_sizeimage (fmt_pix (driver_paranoia fmt)) = 614400.
Proof.
  intros fmt.
  destruct (driver_paranoia_minimums fmt) as (_ & _ & _ & _ & Hb & _ & Hs & _);
    [simpl; lia..|].
  split.
  - rewrite Hb; [reflexivity|simpl; lia].
  - rewrite Hs; [|rewrite Hb; simpl; lia]. rewrite Hb; [reflexivity|simpl; lia].
Defined.

(** ** C4 *)

Lemma request_buffers_eq name h w :
  request_buffers name h w =
    match xioctl h VIDIOC_REQBUFS req_arg w with
    | (Ret (r, a), w1) =>
        if r <? 0 then
          if errno w1 =? EINVAL
          then (Throw (name +:+ " does not support memory mapping"), w1)
          else (Throw "VIDIOC_REQBUFS", w1)
        else if req_count (get_req a) <? 2
        then (Throw ("Insufficient buffer memory on " +:+ name), w1)
        else (Ret (req_count (get_req a)), w1)
    | (Throw s, w1) => (Throw s, w1)
    | (Crash, w1) => (Crash, w1)
    | (Stuck, w1) => (Stuck, w1)
    end.
Proof.
  unfold request_buffers. fold req_arg. unfold bind, get_errno, ret_, throw_error, throw.
  destruct (xioctl h VIDIOC_REQBUFS req_arg w) as [[[r a]| | |] w1]; try done.
  destruct (r <? 0); [by destruct (errno w1 =? EINVAL)|].
  by destruct (req_count (get_req a) <? 2).
Qed.


Lemma xioctl_ok fh rq a w rp s :
  script w = rp :: s → 0 ≤ ret rp →
  xioctl fh rq a w =
    (Ret (ret rp, default a (out rp)), answered w (EvIoctl fh rq a) rp s).
Proof.
  intros Hs Hr. rewrite (xioctl_cons _ _ _ _ rp s) by done.
  unfold eintr. apply Z.ltb_ge in Hr. by rewrite Hr.
Qed.


(** ** C6 *)

Section Emits.
Variable P : event → Prop.

Lemma emits_nothing {A} (m : M A) : (∀ w, (m w).2 = w) → emits P m.
Proof. intros H w. exists []. by rewrite H, app_nil_r. Qed.

Lemma emits_bind {A B} (m : M A) (k : A → M B) :
  emits P m → (∀ a, emits P (k a)) → emits P (bind m k).
Proof.
  intros Hm Hk w. unfold bind. destruct (Hm w) as (t1 & Ht1 & Hp1).
  destruct (m w) as [[a| | |] w1]; simpl in *; try by exists t1.
  destruct (Hk a w1) as (t2 & Ht2 & Hp2).
  exists (t1 ++ t2). rewrite Ht2, Ht1, <- app_assoc. split; [done|].
  by apply Forall_app.
Qed.

Lemma emits_syscall mk : (∀ rp, P (mk rp)) → emits P (syscall mk).
Proof.
  intros Hmk w. unfold syscall. destruct (script w) as [|rp s]; simpl.
  - exists []. by rewrite app_nil_r.
  - exists [mk rp]. split; [done|]. by constructor.
Qed.

Lemma emits_log e : P e → emits P (log e).
Proof. intros He w. exists [e]. split; [done|]. by constructor. Qed.

Lemma emits_xioctl fh rq a :
  (∀ a' rp, P (EvIoctl fh rq a' rp)) → emits P (xioctl fh rq a).
Proof.
  intros HP w. destruct (xioctl_facts fh rq a w) as (l & _ & Ht & _).
  exists (ioctl_events fh rq a l). split; [done|]. clear Ht.
  revert a. induction l as [|rp l IH]; intros a; simpl; by constructor.
Qed.
End Emits.

Ltac emits_step :=
  lazymatch goal with
  | |- emits _ (bind _ _) => apply emits_bind; [|intros ?]
  | |- emits _ (ret_ _) => by apply emits_nothing
  | |- emits _ (throw _) => by apply emits_nothing
  | |- emits _ (throw_error _) => by apply emits_nothing
  | |- emits _ crash => by apply emits_nothing
  | |- emits _ get_errno => by apply emits_nothing
  | |- emits _ (xioctl _ _ _) => apply emits_xioctl; intros ? ?; simpl; tauto
  | |- emits _ (syscall _) => apply emits_syscall; intros ?; simpl; tauto
  | |- emits _ (log _) => apply emits_log; simpl; tauto
  | |- emits _ (if ?c then _ else _) => destruct c
  | |- emits _ (match ?x with _ => _ end) => destruct x
  end.

Lemma map_loop_keeps n : ∀ i h bufs, emits (λ e, ¬ is_release e) (map_loop n i h bufs).
Proof.
  induction n as [|n IH]; intros i h bufs; simpl; [by apply emits_nothing|].
  unfold mmap. repeat emits_step. apply IH.
Qed.

Lemma queue_loop_keeps n : ∀ i h, emits (λ e, ¬ is_release e) (queue_loop n i h).
Proof.
  induction n as [|n IH]; intros i h; simpl; [by apply emits_nothing|].
  repeat emits_step. apply IH.
Qed.

Lemma subdevice_ctor_keeps name force :
  emits (λ e, ¬ is_release e) (subdevice_ctor name force).
Proof.
  unfold subdevice_ctor, open_device, query_caps, reset_crop, negotiate_format,
    request_buffers, start_streaming, map_buffers, stream_on, stat, open.
  repeat first [apply map_loop_keeps | apply queue_loop_keeps | emits_step].
Qed.

(** C6 does not hold of the code.  The constructor makes no [munmap] and no
    [close] call on any path; when [mmap] fails for the third of four
    buffers it throws "mmap" with the descriptor still open and the first
    two regions still mapped. *)
Theorem failed_start_releases_nothing :
  (∀ name force_format, emits (λ e, ¬ is_release e) (subdevice_ctor name force_format)) ∧
  let res := subdevice_ctor "/dev/video1" false (world_of script_mmap_fails no_frames) in
  res.1 = Throw "mmap" ∧
  opened (trace res.2) = [3] ∧
  mappings (trace res.2) = [(4096, 16); (8192, 16)] ∧
  Forall (λ e, ¬ is_release e) (trace res.2) ∧
  script res.2 = [].
Proof.
  split; [apply subdevice_ctor_keeps|].
  intros res.
  destruct (subdevice_ctor_keeps "/dev/video1" false (world_of script_mmap_fails no_frames))
    as (t & Ht & Hrel).
  fold res in Ht. change (trace res.2 = t) in Ht.
  split; [by vm_compute|]. split; [by vm_compute|]. split; [by vm_compute|].
  split; [by rewrite Ht|by vm_compute].
Qed.

(** ** C4, the statement *)





(** ** The decoders *)

Lemma read_pixel_Some data i :
  (3 * i + 2 < length data)%nat → is_Some (read_pixel data i).
Proof.
  intros H. unfold read_pixel.
  destruct (lookup_lt_is_Some_2 data (3 * i)%nat) as [b0 ->]; [lia|].
  destruct (lookup_lt_is_Some_2 data (3 * i + 1)%nat) as [b1 ->]; [lia|].
  destruct (lookup_lt_is_Some_2 data (3 * i + 2)%nat) as [b2 ->]; [lia|].
  by eexists.
Qed.

Lemma read_pixel_None data i :
  (length data < 3 * i + 3)%nat → read_pixel data i = None.
Proof.
  intros H. unfold read_pixel.
  destruct (data !! (3 * i)%nat) as [b0|]; [|done]. cbn -[Nat.mul].
  destruct (data !! (3 * i + 1)%nat) as [b1|]; [|done]. cbn -[Nat.mul].
  rewrite (lookup_ge_None_2 data (3 * i + 2)%nat) by lia. done.
Qed.

Lemma read_pixel_take data m i :
  (3 * i + 3 ≤ m)%nat → read_pixel (take m data) i = read_pixel data i.
Proof. intros H. unfold read_pixel. by rewrite !lookup_take_lt by lia. Qed.

(** The loop writes entries [i .. i+n) of both planes from the packed
    elements of the same indices and leaves the other entries alone. *)
Lemma decode_loop_ok data n : ∀ i z y,
  (i + n ≤ length z)%nat → (i + n ≤ length y)%nat →
  (3 * (i + n) ≤ length data)%nat →
  ∃ z' y', decode_loop data n i z y = Some (z', y') ∧
    length z' = length z ∧ length y' = length y ∧
    (∀ j, (i ≤ j < i + n)%nat →
       z' !! j = px_z <$> read_pixel data j ∧ y' !! j = px_y <$> read_pixel data j) ∧
    (∀ j, (j < i ∨ i + n ≤ j)%nat → z' !! j = z !! j ∧ y' !! j = y !! j).
Proof.
  induction n as [|n IH]; intros i z y Hz Hy Hd; simpl.
  - exists z, y. repeat split; try done; lia.
  - destruct (read_pixel_Some data i) as [px Hpx]; [lia|]. rewrite Hpx. simpl.
    unfold array_set. rewrite !decide_True by lia. simpl.
    destruct (IH (S i) (<[i:=px_z px]> z) (<[i:=px_y px]> y))
      as (z' & y' & -> & Hlz & Hly & Hin & Hout);
      rewrite ?length_insert; try lia.
    exists z', y'. rewrite length_insert in Hlz, Hly.
    split; [done|]. split; [done|]. split; [done|]. split.
    + intros j Hj. destruct (decide (j = i)) as [->|Hne].
      * destruct (Hout i) as [-> ->]; [lia|].
        rewrite !list_lookup_insert_eq by lia. by rewrite Hpx.
      * apply Hin. lia.
    + intros j Hj. destruct (Hout j) as [-> ->]; [lia|].
      rewrite !list_lookup_insert_ne by lia. done.
Qed.

(** It reads all of them: an input that ends before element [i+n-1] does
    makes the loop leave the object. *)
Lemma decode_loop_short data n : ∀ i z y,
  (0 < n)%nat → (length data < 3 * (i + n))%nat → decode_loop data n i z y = None.
Proof.
  induction n as [|n IH]; intros i z y Hn Hd; [lia|]. simpl.
  destruct (read_pixel data i) as [px|] eqn:Hpx; [|done]. simpl.
  destruct (array_set z i (px_z px)) as [z'|]; [|done]. simpl.
  destruct (array_set y i (px_y px)) as [y'|]; [|done]. simpl.
  destruct n as [|n].
  - rewrite read_pixel_None in Hpx by lia. done.
  - apply IH; lia.
Qed.

(** And nothing beyond them. *)
Lemma decode_loop_take data m n : ∀ i z y,
  (3 * (i + n) ≤ m)%nat →
  decode_loop (take m data) n i z y = decode_loop data n i z y.
Proof.
  induction n as [|n IH]; intros i z y Hm; [done|]. simpl.
  rewrite read_pixel_take by lia.
  destruct (read_pixel data i) as [px|]; [|done]. simpl.
  destruct (array_set z i (px_z px)) as [z'|]; [|done]. simpl.
  destruct (array_set y i (px_y px)) as [y'|]; [|done]. simpl.
  apply IH. lia.
Qed.

(** The byte count is printed and nothing else. *)
Lemma decode_loop_size_blind data size mem fr :
  depth_callback data size mem fr =
    (λ zy, {| app_yuy2 := app_yuy2 fr; app_z := zy.1; app_y := zy.2;
              app_stdout := app_stdout fr ++ [(size, 320 * 240 * 3)] |}) <$>
    decode_loop (mem data) (Z.to_nat (320 * 240)) 0 (app_z fr) (app_y fr).
Proof. unfold depth_callback. by destruct (decode_loop _ _ _ _ _). Qed.

(** ** C10 *)

(** C10. [depth_callback] does not look at the byte count it is given: the
    planes it produces are the same for every count.  Given 230400 mapped
    bytes it rewrites every one of the 76800 entries of both planes from
    the packed elements, whatever count was reported; it reads neither less
    (with fewer than 230400 bytes mapped it leaves the region, whatever the
    count) nor more (bytes past the first 230400 do not matter). *)
Theorem depth_callback_ignores_size data mem fr :
  (∀ size size',
     planes <$> depth_callback data size mem fr =
     planes <$> depth_callback data size' mem fr) ∧
  (length (app_z fr) = Z.to_nat (320 * 240) →
   length (app_y fr) = Z.to_nat (320 * 240) →
   (Z.to_nat 230400 ≤ length (mem data))%nat →
   ∀ size, ∃ fr',
     depth_callback data size mem fr = Some fr' ∧
     length (app_z fr') = Z.to_nat (320 * 240) ∧
     length (app_y fr') = Z.to_nat (320 * 240) ∧
     app_yuy2 fr' = app_yuy2 fr ∧
     ∀ i, (i < Z.to_nat (320 * 240))%nat →
       app_z fr' !! i = px_z <$> read_pixel (mem data) i ∧
       app_y fr' !! i = px_y <$> read_pixel (mem data) i) ∧
  ((length (mem data) < Z.to_nat 230400)%nat →
   ∀ size, depth_callback data size mem fr = None) ∧
  (∀ mem' size,
     take (Z.to_nat 230400) (mem' data) = take (Z.to_nat 230400) (mem data) →
     depth_callback data size mem' fr = depth_callback data size mem fr).
Proof.
  split; [|split; [|split]].
  - intros size size'. rewrite !decode_loop_size_blind.
    by destruct (decode_loop _ _ _ _ _).
  - intros Hz Hy Hd size. rewrite decode_loop_size_blind.
    destruct (decode_loop_ok (mem data) (Z.to_nat (320 * 240)) 0 (app_z fr) (app_y fr))
      as (z' & y' & -> & Hlz & Hly & Hin & _); [lia..|].
    eexists. split; [done|]. simpl. rewrite Hlz, Hly.
    repeat split; try done; apply Hin; lia.
  - intros Hd size. rewrite decode_loop_size_blind, decode_loop_short; [done|lia..].
  - intros mem' size Heq. rewrite !decode_loop_size_blind.
    rewrite <- (decode_loop_take (mem' data) (Z.to_nat 230400)) by lia.
    rewrite <- (decode_loop_take (mem data) (Z.to_nat 230400)) by lia.
    by rewrite Heq.
Qed.

Lemma depth_callback_ignores_size_witness :
  ∃ fr', depth_callback 4096 100 (λ _, replicate (Z.to_nat 230400) 1) blank_frames = Some fr' ∧
         length (app_z fr') = Z.to_nat (320 * 240).
Proof.
  destruct (depth_callback_ignores_size 4096 (λ _, replicate (Z.to_nat 230400) 1) blank_frames)
    as (_ & H & _).
  destruct (H (length_replicate _ _) (length_replicate _ _)) with (size := 100)
    as (fr' & Hrun & Hz & _).
  - rewrite length_replicate. lia.
  - exists fr'. split; [exact Hrun|exact Hz].
Defined.

(** ** C2 *)

Lemma read_pixel_shift b0 b1 b2 data i :
  read_pixel (b0 :: b1 :: b2 :: data) (S i) = read_pixel data i.
Proof.
  unfold read_pixel.
  replace (3 * S i)%nat with (S (S (S (3 * i)))) by lia.
  replace (S (S (S (3 * i))) + 1)%nat with (S (S (S (3 * i + 1)))) by lia.
  replace (S (S (S (3 * i))) + 2)%nat with (S (S (S (3 * i + 2)))) by lia.
  done.
Qed.

Lemma read_pixel_pack pxs rest : ∀ i px,
  pxs !! i = Some px →
  read_pixel (pack_all pxs ++ rest) i = Some {| px_z := px_z px; px_y := px_y px |}.
Proof.
  induction pxs as [|p pxs IH]; intros i px Hpx; [done|].
  change (pack_all (p :: pxs) ++ rest)
    with (px_z p `mod` 256 :: px_z p `div` 256 :: px_y p :: (pack_all pxs ++ rest)).
  destruct i as [|i]; simpl in Hpx.
  - injection Hpx as ->. unfold read_pixel. simpl.
    do 2 f_equal. rewrite (Z.div_mod (px_z px) 256) at 3 by lia. lia.
  - rewrite read_pixel_shift. by apply IH.
Qed.

(** C2, as stated, fails on the code: the loop always runs over 320 * 240
    elements, so the two-element input (six bytes) of the claim makes it
    read past the input. *)
Lemma depth_callback_two_elements :
  let input := pack_all [ {| px_z := 100; px_y := 10 |}; {| px_z := 4000; px_y := 250 |} ] in
  input = [100; 0; 10; 160; 15; 250] ∧
  depth_callback 4096 6 (λ _, input) blank_frames = None.
Proof.
  split; [reflexivity|].
  rewrite decode_loop_size_blind, decode_loop_short; [done|lia|].
  change (6 < 3 * (0 + Z.to_nat (320 * 240)))%nat. lia.
Qed.

Lemma length_pack_all pxs : length (pack_all pxs) = (3 * length pxs)%nat.
Proof.
  induction pxs as [|p pxs IH]; [done|].
  change (pack_all (p :: pxs)) with (pack p ++ pack_all pxs).
  rewrite length_app, IH. simpl. lia.
Qed.

(** C2, amended. The geometry of the decode is fixed at 320 * 240.  For
    every input that starts with 320 * 240 packed elements, each a depth
    sample followed by an intensity sample, and whatever byte count was
    reported, the decode puts the depth sample of element [i] at index [i]
    of the depth plane and its intensity sample at index [i] of the
    intensity plane, for every [i] below 320 * 240.  In particular, when
    the first two elements have depth 100 and 4000 and intensity 10 and
    250, the depth plane starts with 100, 4000 and the intensity plane
    with 10, 250. *)
Theorem depth_decode_places_samples data size mem fr pxs rest :
  mem data = pack_all pxs ++ rest →
  length pxs = Z.to_nat (320 * 240) →
  length (app_z fr) = Z.to_nat (320 * 240) →
  length (app_y fr) = Z.to_nat (320 * 240) →
  ∃ fr',
    depth_callback data size mem fr = Some fr' ∧
    app_z fr' = px_z <$> pxs ∧ app_y fr' = px_y <$> pxs ∧
    (∀ i px, pxs !! i = Some px →
       app_z fr' !! i = Some (px_z px) ∧ app_y fr' !! i = Some (px_y px)) ∧
    (∀ tail, pxs = {| px_z := 100; px_y := 10 |} :: {| px_z := 4000; px_y := 250 |} :: tail →
       take 2 (app_z fr') = [100; 4000] ∧ take 2 (app_y fr') = [10; 250]).
Proof.
  intros Hmem Hn Hz Hy. rewrite decode_loop_size_blind.
  destruct (decode_loop_ok (mem data) (Z.to_nat (320 * 240)) 0 (app_z fr) (app_y fr))
    as (z' & y' & -> & Hlz & Hly & Hin & _); [lia..| |].
  { rewrite Hmem, length_app, length_pack_all. lia. }
  eexists. split; [done|]. simpl.
  assert (Hz' : z' = px_z <$> pxs).
  { apply list_eq. intros i. rewrite list_lookup_fmap.
    destruct (pxs !! i) as [px|] eqn:Hpx; simpl.
    - destruct (Hin i) as [-> _]; [apply lookup_lt_Some in Hpx; lia|].
      by rewrite Hmem, (read_pixel_pack _ _ _ _ Hpx).
    - apply lookup_ge_None in Hpx. apply lookup_ge_None. lia. }
  assert (Hy' : y' = px_y <$> pxs).
  { apply list_eq. intros i. rewrite list_lookup_fmap.
    destruct (pxs !! i) as [px|] eqn:Hpx; simpl.
    - destruct (Hin i) as [_ ->]; [apply lookup_lt_Some in Hpx; lia|].
      by rewrite Hmem, (read_pixel_pack _ _ _ _ Hpx).
    - apply lookup_ge_None in Hpx. apply lookup_ge_None. lia. }
  subst z' y'. split; [done|]. split; [done|]. split.
  - intros i px Hpx. by rewrite !list_lookup_fmap, Hpx.
  - by intros tail ->.
Qed.

Lemma depth_decode_places_samples_witness :
  ∃ fr', depth_callback 4096 230400 (λ _, pack_all frame_ex) blank_frames = Some fr' ∧
         take 2 (app_z fr') = [100; 4000] ∧ take 2 (app_y fr') = [10; 250].
Proof.
  destruct (depth_decode_places_samples 4096 230400 (λ _, pack_all frame_ex) blank_frames
              frame_ex [])
    as (fr' & Hrun & _ & _ & _ & H).
  - by rewrite app_nil_r.
  - unfold frame_ex. rewrite !length_cons, length_replicate. lia.
  - apply length_replicate.
  - apply length_replicate.
  - exists fr'. split; [exact Hrun|]. by apply (H _ eq_refl).
Defined.

(** ** C7 *)

Lemma memcpy_Some dst src n d :
  memcpy dst src n = Some d →
  0 ≤ n ≤ Z.of_nat (length src) ∧ n ≤ Z.of_nat (length dst) ∧
  take (Z.to_nat n) d = take (Z.to_nat n) src ∧
  drop (Z.to_nat n) d = drop (Z.to_nat n) dst ∧
  length d = length dst.
Proof.
  unfold memcpy.
  destruct (Z.leb_spec 0 n); [|done].
  destruct (Z.leb_spec n (Z.of_nat (length src))); [|done].
  destruct (Z.leb_spec n (Z.of_nat (length dst))); [|done].
  simpl. intros [= <-].
  assert (Hl : length (take (Z.to_nat n) src) = Z.to_nat n)
    by (rewrite length_take; lia).
  repeat split; try lia.
  - by rewrite take_app_length'.
  - by rewrite drop_app_length'.
  - rewrite length_app, Hl, length_drop. lia.
Qed.

Lemma memcpy_fits dst src n :
  0 ≤ n ≤ Z.of_nat (length src) → n ≤ Z.of_nat (length dst) →
  memcpy dst src n = Some (take (Z.to_nat n) src ++ drop (Z.to_nat n) dst).
Proof.
  intros [H0 H1] H2. unfold memcpy.
  apply Z.leb_le in H0, H1, H2. by rewrite H0, H1, H2.
Qed.

(** C7. The color callback copies and does nothing else.  Whenever [poll]
    returns, it has called the callback once, on some buffer with some byte
    count N, and the first N bytes of the destination are the first N bytes
    mapped at that buffer's address; the rest of the destination and the two
    other planes are as before.  (A count larger than the mapped region or
    than the destination array makes the copy leave an object, and then
    [poll] does not return.)  The copy itself succeeds for every count that
    fits both. *)
Theorem color_poll_passes_bytes :
  (∀ dev w w',
     poll dev color_callback w = (Ret tt, w') →
     ∃ t1 data size input t2,
       trace w' = trace w ++ t1 ++ EvCallback data size input :: t2 ∧
       callbacks t1 = [] ∧ callbacks t2 = [] ∧
       0 ≤ size ≤ Z.of_nat (length input) ∧
       take (Z.to_nat size) (app_yuy2 (app w')) = take (Z.to_nat size) input ∧
       drop (Z.to_nat size) (app_yuy2 (app w')) =
         drop (Z.to_nat size) (app_yuy2 (app w)) ∧
       length (app_yuy2 (app w')) = length (app_yuy2 (app w)) ∧
       app_z (app w') = app_z (app w) ∧ app_y (app w') = app_y (app w)) ∧
  (∀ data size mem fr,
     0 ≤ size ≤ Z.of_nat (length (mem data)) →
     size ≤ Z.of_nat (length (app_yuy2 fr)) →
     ∃ fr', color_callback data size mem fr = Some fr' ∧
            take (Z.to_nat size) (app_yuy2 fr') = take (Z.to_nat size) (mem data)).
Proof.
  split.
  - intros dev w w' Hrun.
    destruct (poll_sound dev color_callback w) as (t & Ht & _ & Hsh).
    rewrite Hrun in Ht, Hsh. simpl in Ht, Hsh.
    destruct (poll_delivered_shape _ _ _ _ _ _ Hsh eq_refl)
      as (tw & a & rp & mem & lq & rq & -> & Hw & _ & _ & _ & _ & Hf).
    simpl in Hf. unfold color_callback in Hf.
    destruct (memcpy _ _ _) as [d|] eqn:Hcp; [|done]. injection Hf as Hf.
    apply memcpy_Some in Hcp as (Hn & _ & Htake & Hdrop & Hlen).
    eexists (tw ++ [_]), _, _, _, _. rewrite <- Hf. simpl.
    split; [by rewrite Ht, <- !app_assoc|].
    rewrite callbacks_app, (waiting_no_callbacks tw), callbacks_ioctl_events by done.
    destruct Hn. by repeat split.
  - intros data size mem fr Hs Hd. unfold color_callback.
    rewrite memcpy_fits by done. eexists. split; [done|]. simpl.
    rewrite take_app_length'; [done|]. rewrite length_take. lia.
Qed.

Lemma color_poll_passes_bytes_witness :
  let w := world_of [ reply_ok 1 None;
                      reply_dqbuf 0 4 [(4096, [89; 85; 89; 86; 0; 0; 0; 0])];
                      reply_ok 0 None ]
             {| app_yuy2 := [7; 7; 7; 7; 7; 7]; app_z := []; app_y := []; app_stdout := [] |} in
  poll dev_ex color_callback w = (Ret tt, (poll dev_ex color_callback w).2) ∧
  ∃ size input,
    0 ≤ size ≤ Z.of_nat (length input) ∧
    take (Z.to_nat size) (app_yuy2 (app (poll dev_ex color_callback w).2)) =
      take (Z.to_nat size) input.
Proof.
  intros w.
  assert (Hrun : poll dev_ex color_callback w = (Ret tt, (poll dev_ex color_callback w).2))
    by (vm_compute; reflexivity).
  split; [exact Hrun|].
  destruct color_poll_passes_bytes as [H _].
  destruct (H dev_ex w _ Hrun)
    as (t1 & data & size & input & t2 & _ & _ & _ & Hn & Htake & _).
  exists size, input. split; [exact Hn|exact Htake].
Defined.

Example color_poll_run :
  let w := world_of [ reply_ok 1 None;
                      reply_dqbuf 0 4 [(4096, [89; 85; 89; 86; 0; 0; 0; 0])];
                      reply_ok 0 None ]
             {| app_yuy2 := [7; 7; 7; 7; 7; 7]; app_z := []; app_y := []; app_stdout := [] |} in
  (poll dev_ex color_callback w).1 = Ret tt ∧
  app_yuy2 (app (poll dev_ex color_callback w).2) = [89; 85; 89; 86; 7; 7] ∧
  callbacks (trace (poll dev_ex color_callback w).2) = [(4096, 4)].
Proof. by vm_compute. Qed.


(** * Further properties of the code *)

(** ** What can be thrown *)

Lemma tame_ret L {A} (a : A) : tame L (ret_ a).
Proof. by intros w. Qed.

Lemma tame_throw L {A} s : s ∈ L → tame L (@throw A s).
Proof. by intros H w. Qed.

Lemma tame_bind L {A B} (m : M A) (k : A → M B) :
  tame L m → (∀ a, tame L (k a)) → tame L (bind m k).
Proof.
  intros Hm Hk w. unfold bind. specialize (Hm w).
  destruct (m w) as [[a| | |] w1]; simpl in *; try done. apply Hk.
Qed.

Lemma tame_syscall L mk : tame L (syscall mk).
Proof. intros w. unfold syscall. by destruct (script w). Qed.

Lemma tame_log L e : tame L (log e).
Proof. by intros w. Qed.

Lemma tame_get_errno L : tame L get_errno.
Proof. by intros w. Qed.

Lemma tame_xioctl L fh rq a : tame L (xioctl fh rq a).
Proof.
  intros w. destruct (xioctl_facts fh rq a w) as (l & _ & _ & _ & H).
  by destruct (xioctl fh rq a w) as [[[r a']| | |] w1].
Qed.

Ltac in_list := repeat first [apply list_elem_of_here | apply list_elem_of_further].

Ltac tame_step :=
  lazymatch goal with
  | |- tame _ (bind _ _) => apply tame_bind; [|intros ?]
  | |- tame _ (ret_ _) => apply tame_ret
  | |- tame _ (throw _) => apply tame_throw; in_list
  | |- tame _ (throw_error _) => apply tame_throw; in_list
  | |- tame _ get_errno => apply tame_get_errno
  | |- tame _ (xioctl _ _ _) => apply tame_xioctl
  | |- tame _ (syscall _) => apply tame_syscall
  | |- tame _ (log _) => apply tame_log
  | |- tame _ (when_ ?c _) => unfold when_; destruct c
  | |- tame _ (if ?c then _ else _) => destruct c
  | |- tame _ (match ?x with _ => _ end) => destruct x
  end.

Lemma tame_map_loop name n : ∀ i h bufs, tame (ctor_errors name) (map_loop n i h bufs).
Proof.
  induction n as [|n IH]; intros i h bufs; simpl; [apply tame_ret|].
  unfold mmap, ctor_errors. repeat tame_step. apply IH.
Qed.

Lemma tame_queue_loop name n : ∀ i h, tame (ctor_errors name) (queue_loop n i h).
Proof.
  induction n as [|n IH]; intros i h; simpl; [apply tame_ret|].
  unfold ctor_errors. repeat tame_step. apply IH.
Qed.

Lemma tame_unmap_loop bufs : tame [] (unmap_loop bufs).
Proof.
  induction bufs as [|b bufs IH]; simpl; [apply tame_ret|].
  unfold munmap, warn_error. repeat tame_step. apply IH.
Qed.

(** In the model the pool is always allocated and the loop counters do
    not overflow. *)
Lemma subdevice_ctor_tame name force_format :
  tame (ctor_errors name) (subdevice_ctor name force_format).
Proof.
  unfold subdevice_ctor, open_device, query_caps, reset_crop, negotiate_format,
    request_buffers, start_streaming, map_buffers, stream_on, stat, open.
  repeat first [apply tame_map_loop | apply tame_queue_loop
               | unfold ctor_errors; tame_step].
Qed.

(** X1. In a run in which the kernel grants no more than VIDEO_MAX_FRAME
    buffers (the pool is then a vector of at most 32 entries and the [int]
    counters of the two loops stay below 32), the constructor never fails
    an assertion, and an exception it throws carries one of the fifteen
    messages of [ctor_errors]. *)
Theorem subdevice_ctor_errors name force_format w o w' t :
  subdevice_ctor name force_format w = (o, w') →
  trace w' = trace w ++ t →
  Forall (grants_at_most VIDEO_MAX_FRAME) t →
  match o with
  | Throw s => s ∈ ctor_errors name
  | Crash => False
  | _ => True
  end.
Proof.
  intros Hrun _ _. pose proof (subdevice_ctor_tame name force_format w) as H.
  by rewrite Hrun in H.
Qed.

Lemma subdevice_ctor_errors_witness :
  let r := subdevice_ctor "/dev/video1" false (world_of script_mmap_fails no_frames) in
  r.1 = Throw "mmap" ∧ "mmap" ∈ ctor_errors "/dev/video1" ∧
  Forall (grants_at_most VIDEO_MAX_FRAME) (trace r.2).
Proof.
  intros r.
  assert (Hg : Forall (grants_at_most VIDEO_MAX_FRAME) (trace r.2)).
  { vm_compute. repeat (constructor; [try done; discriminate|]). constructor. }
  pose proof (subdevice_ctor_errors "/dev/video1" false
                (world_of script_mmap_fails no_frames) (Throw "mmap") r.2 (trace r.2)) as H.
  split; [by vm_compute|]. split; [|exact Hg].
  apply H; [vm_compute; reflexivity|reflexivity|exact Hg].
Defined.

(** ** The destructor *)

Lemma warn_error_run s w :
  warn_error s w = (Ret tt, {| script := script w; trace := trace w ++ [EvStderr s (errno w)];
                               errno := errno w; shm := shm w; app := app w |}).
Proof. done. Qed.

Lemma syscall_then_warn {B} mk s (k : M B) w rp rest :
  script w = rp :: rest →
  bind (bind (syscall mk) (λ rp, ret_ (ret rp)))
       (λ r, bind (when_ (r <? 0) (warn_error s)) (λ _, k)) w =
  k (after_call w mk s rp rest).
Proof.
  intros Hs. unfold bind, syscall, ret_, when_, after_call, warned, answered.
  rewrite Hs. simpl.
  destruct (ret rp <? 0); simpl; [|done]. by rewrite <- app_assoc.
Qed.

Lemma unmap_loop_run bufs : ∀ w,
  (∃ rps, length rps = length bufs ∧
          script w = rps ++ script (unmap_loop bufs w).2 ∧
          (unmap_loop bufs w).1 = Ret tt ∧
          trace (unmap_loop bufs w).2 = trace w ++ unmap_events bufs rps ∧
          app (unmap_loop bufs w).2 = app w) ∨
  ((unmap_loop bufs w).1 = Stuck ∧ (length (script w) < length bufs)%nat).
Proof.
  induction bufs as [|b bufs IH]; intros w.
  { left. exists []. simpl. by rewrite app_nil_r. }
  destruct (script w) as [|rp rest] eqn:Hs.
  { right. simpl. unfold bind, munmap, bind, syscall. rewrite Hs. simpl. split; [done|lia]. }
  simpl unmap_loop. unfold munmap.
  rewrite (syscall_then_warn _ _ _ _ rp rest) by done.
  destruct (IH (after_call w (EvMunmap (b_start b) (b_length b)) "munmap" rp rest))
    as [(rps & Hlen & Hsc & Ho & Ht & Ha)|[Ho Hlen]].
  - left. exists (rp :: rps). simpl. rewrite Hlen. split; [done|].
    rewrite Ho, Ht, Ha. simpl in Hsc. rewrite Hsc at 1. simpl.
    by rewrite <- app_assoc.
  - right. split; [done|]. simpl in *. lia.
Qed.

Lemma unmaps_app t1 t2 : unmaps (t1 ++ t2) = unmaps t1 ++ unmaps t2.
Proof. induction t1 as [|e t1 IH]; [done|]. destruct e; simpl; by rewrite ?IH. Qed.

Lemma closes_app t1 t2 : closes (t1 ++ t2) = closes t1 ++ closes t2.
Proof. induction t1 as [|e t1 IH]; [done|]. destruct e; simpl; by rewrite ?IH. Qed.

Lemma warnings_app t1 t2 : warnings (t1 ++ t2) = warnings t1 ++ warnings t2.
Proof. induction t1 as [|e t1 IH]; [done|]. destruct e; simpl; by rewrite ?IH. Qed.

Lemma readers_ioctl_events fh rq a l :
  unmaps (ioctl_events fh rq a l) = [] ∧ closes (ioctl_events fh rq a l) = [] ∧
  warnings (ioctl_events fh rq a l) = [].
Proof. revert a. induction l as [|rp l IH]; intros a; [done|]. apply IH. Qed.

Lemma readers_warned s rp :
  unmaps (warned s rp) = [] ∧ closes (warned s rp) = [] ∧
  warnings (warned s rp) = complaint s rp.
Proof. unfold warned, complaint. by destruct (ret rp <? 0). Qed.

Lemma readers_unmap_events bufs : ∀ rps,
  length rps = length bufs →
  unmaps (unmap_events bufs rps) = (λ b, (b_start b, b_length b)) <$> bufs ∧
  closes (unmap_events bufs rps) = [] ∧
  warnings (unmap_events bufs rps) = rps ≫= complaint "munmap".
Proof.
  induction bufs as [|b bufs IH]; intros [|rp rps] Hlen; try done.
  destruct (IH rps) as (Hu & Hc & Hw); [by injection Hlen|].
  simpl. rewrite unmaps_app, closes_app, warnings_app, Hu, Hc, Hw.
  by destruct (readers_warned "munmap" rp) as (-> & -> & ->).
Qed.

(** Every run of the destructor, in full. *)
Lemma subdevice_dtor_run dev w o w' :
  subdevice_dtor dev w = (o, w') →
  (o = Ret tt ∧
   ∃ l rp rps rc,
     Forall (λ x, eintr x = true) l ∧ eintr rp = false ∧
     script w = l ++ rp :: rps ++ rc :: script w' ∧
     length rps = length (buffers dev) ∧
     trace w' =
       trace w ++ ioctl_events (fd dev) VIDIOC_STREAMOFF streamoff_arg (l ++ [rp]) ++
       warned "VIDIOC_STREAMOFF" rp ++ unmap_events (buffers dev) rps ++
       EvClose (fd dev) rc :: warned "close" rc ∧
     app w' = app w) ∨
  (o = Stuck ∧
   (Forall (λ x, eintr x = true) (script w) ∨
    ∃ l rp rest, Forall (λ x, eintr x = true) l ∧ eintr rp = false ∧
                 script w = l ++ rp :: rest ∧ (length rest ≤ length (buffers dev))%nat)).
Proof.
  unfold subdevice_dtor. fold streamoff_arg. unfold bind at 1.
  destruct (xioctl_facts (fd dev) VIDIOC_STREAMOFF streamoff_arg w)
    as (l & Hs & Ht & Ha & Hres).
  destruct (xioctl (fd dev) VIDIOC_STREAMOFF streamoff_arg w) as [[[r a]| | |] w1];
    simpl in Hs, Ht, Ha, Hres; try done.
  2:{ intros [= <- <-]. right. destruct Hres as [Hnil Hl]. split; [done|]. left.
      by rewrite Hs, Hnil, app_nil_r. }
  destruct Hres as (l0 & rp & -> & Hl0 & E & -> & _ & He).
  set (w2 := {| script := script w1; trace := trace w1 ++ warned "VIDIOC_STREAMOFF" rp;
                errno := errno w1; shm := shm w1; app := app w1 |}).
  assert (Hwarn : when_ (ret rp <? 0) (warn_error "VIDIOC_STREAMOFF") w1 = (Ret tt, w2)).
  { unfold when_, w2, warned. destruct (Z.ltb_spec (ret rp) 0) as [Hneg|_].
    - by rewrite warn_error_run, (He Hneg).
    - destruct w1. simpl. by rewrite app_nil_r. }
  unfold bind at 1. rewrite Hwarn. unfold bind at 1.
  destruct (unmap_loop_run (buffers dev) w2) as [(rps & Hlen & Hsc & Ho & Ht2 & Ha2)|[Ho Hlen]].
  2:{ destruct (unmap_loop (buffers dev) w2) as [o3 w3]. simpl in Ho. subst o3.
      intros [= <- <-]. right. split; [done|]. right. exists l0, rp, (script w1).
      repeat split; try done; [by rewrite Hs, <- app_assoc|simpl in Hlen; lia]. }
  destruct (unmap_loop (buffers dev) w2) as [o3 w3]. simpl in Ho, Hsc, Ht2, Ha2. subst o3.
  destruct (script w3) as [|rc rest] eqn:Hs3.
  { unfold close, bind, syscall. rewrite Hs3. intros [= <- <-]. right. split; [done|]. right.
    exists l0, rp, (script w1). repeat split; try done; [by rewrite Hs, <- app_assoc|].
    rewrite Hsc, app_nil_r. lia. }
  unfold close, bind, syscall, ret_, when_. rewrite Hs3.
  assert (Hw3 : trace w3 = trace w ++
            ioctl_events (fd dev) VIDIOC_STREAMOFF streamoff_arg (l0 ++ [rp]) ++
            warned "VIDIOC_STREAMOFF" rp ++ unmap_events (buffers dev) rps).
  { rewrite Ht2. unfold w2. simpl. by rewrite Ht, <- !app_assoc. }
  assert (Hsw : script w = l0 ++ rp :: rps ++ rc :: rest).
  { rewrite Hs, Hsc, <- app_assoc. done. }
  unfold warned at 2. destruct (ret rc <? 0) eqn:Hrc.
  - rewrite warn_error_run. intros [= <- <-]. left. split; [done|].
    exists l0, rp, rps, rc. simpl. rewrite Hrc.
    repeat split; try done; [|by rewrite Ha2].
    rewrite Hw3, <- !app_assoc. simpl. by rewrite <- ?app_assoc.
  - intros [= <- <-]. left. split; [done|].
    exists l0, rp, rps, rc. simpl.
    repeat split; try done; [|by rewrite Ha2].
    rewrite Hw3, <- !app_assoc. unfold warned at 2. by rewrite Hrc.
Qed.

Lemma eintr_split_unique l1 : ∀ l2 rp1 rp2 r1 r2,
  l1 ++ rp1 :: r1 = l2 ++ rp2 :: r2 →
  Forall (λ x, eintr x = true) l1 → Forall (λ x, eintr x = true) l2 →
  eintr rp1 = false → eintr rp2 = false →
  l1 = l2 ∧ rp1 = rp2 ∧ r1 = r2.
Proof.
  induction l1 as [|x l1 IH]; intros [|y l2] rp1 rp2 r1 r2 Heq H1 H2 E1 E2; simpl in Heq.
  - by injection Heq as -> ->.
  - injection Heq as -> ->. apply Forall_cons in H2 as [? _]. congruence.
  - injection Heq as -> <-. apply Forall_cons in H1 as [? _]. congruence.
  - injection Heq as -> Heq. apply Forall_cons in H1 as [_ H1], H2 as [_ H2].
    destruct (IH _ _ _ _ _ Heq H1 H2 E1 E2) as (-> & -> & ->). done.
Qed.

(** X2. The destructor never throws and never fails an assertion.  When it
    returns it has first asked for VIDIOC_STREAMOFF, then called [munmap]
    once for every buffer of the pool, in pool order, with that buffer's
    address and length, then [close] on the session's descriptor as its
    last call, whatever the kernel reported for any of them; the
    application's buffers are as before. *)
Theorem subdevice_dtor_releases dev w o w' t :
  subdevice_dtor dev w = (o, w') →
  trace w' = trace w ++ t →
  (o = Ret tt ∨ o = Stuck) ∧
  (o = Ret tt →
   unmaps t = (λ b, (b_start b, b_length b)) <$> buffers dev ∧
   closes t = [fd dev] ∧
   (∃ rp0 t', t = EvIoctl (fd dev) VIDIOC_STREAMOFF streamoff_arg rp0 :: t') ∧
   (∃ t1 rc, t = t1 ++ EvClose (fd dev) rc :: warned "close" rc ∧ closes t1 = [] ∧
             unmaps t1 = (λ b, (b_start b, b_length b)) <$> buffers dev) ∧
   app w' = app w).
Proof.
  intros Hrun Ht.
  destruct (subdevice_dtor_run _ _ _ _ Hrun)
    as [(-> & l & rp & rps & rc & Hl & E & Hs & Hlen & Ht' & Ha)|[-> _]]; [|by split; [right|]].
  split; [by left|]. intros _.
  rewrite Ht in Ht'. apply app_inv_head in Ht' as ->.
  destruct (readers_ioctl_events (fd dev) VIDIOC_STREAMOFF streamoff_arg (l ++ [rp]))
    as (Hu1 & Hc1 & _).
  destruct (readers_warned "VIDIOC_STREAMOFF" rp) as (Hu2 & Hc2 & _).
  destruct (readers_unmap_events (buffers dev) rps Hlen) as (Hu3 & Hc3 & _).
  destruct (readers_warned "close" rc) as (Hu4 & Hc4 & _).
  split; [|split; [|split; [|split; [|done]]]].
  - rewrite !unmaps_app, Hu1, Hu2, Hu3. simpl. by rewrite Hu4, app_nil_r.
  - rewrite !closes_app, Hc1, Hc2, Hc3. simpl. by rewrite Hc4.
  - destruct l as [|r0 l]; simpl; eauto.
  - exists (ioctl_events (fd dev) VIDIOC_STREAMOFF streamoff_arg (l ++ [rp]) ++
            warned "VIDIOC_STREAMOFF" rp ++ unmap_events (buffers dev) rps), rc.
    split; [by rewrite <- !app_assoc|].
    rewrite !closes_app, !unmaps_app, Hu1, Hu2, Hu3, Hc1, Hc2, Hc3. by rewrite app_nil_r.
Qed.

Lemma subdevice_dtor_releases_witness :
  let w := world_of [reply_ok 0 None; reply_fail 22; reply_ok 0 None; reply_fail 9] no_frames in
  (subdevice_dtor dev_ex w).1 = Ret tt ∧
  unmaps (trace (subdevice_dtor dev_ex w).2) = [(4096, 16); (8192, 16)] ∧
  closes (trace (subdevice_dtor dev_ex w).2) = [3].
Proof.
  intros w.
  destruct (subdevice_dtor_releases dev_ex w (Ret tt) (subdevice_dtor dev_ex w).2
              (trace (subdevice_dtor dev_ex w).2)) as [_ H].
  - vm_compute. reflexivity.
  - reflexivity.
  - destruct (H eq_refl) as (Hu & Hc & _). split; [by vm_compute|]. split; [exact Hu|exact Hc].
Defined.

Lemma replies_warned s rp : replies (warned s rp) = [].
Proof. unfold warned. by destruct (ret rp <? 0). Qed.

Lemma replies_unmap_events bufs : ∀ rps,
  length rps = length bufs → replies (unmap_events bufs rps) = rps.
Proof.
  induction bufs as [|b bufs IH]; intros [|rp rps] Hlen;
    [reflexivity|discriminate|discriminate|].
  injection Hlen as Hlen. simpl. by rewrite replies_app, replies_warned, IH.
Qed.

(** X3. Given one answer per call (after any number of interruptions of
    VIDIOC_STREAMOFF), the destructor returns, even when every call fails;
    it consumes exactly those answers.  Its trace is the calls in order,
    each call that failed followed at once by its line on stderr, which
    names the call and carries the [errno] that the call left; nothing else
    is written. *)
Theorem subdevice_dtor_completes dev w l rp rps rc s :
  script w = l ++ rp :: rps ++ rc :: s →
  Forall (λ x, eintr x = true) l → eintr rp = false →
  length rps = length (buffers dev) →
  ∃ w' t,
    subdevice_dtor dev w = (Ret tt, w') ∧ script w' = s ∧
    trace w' = trace w ++ t ∧
    t = ioctl_events (fd dev) VIDIOC_STREAMOFF streamoff_arg (l ++ [rp]) ++
        warned "VIDIOC_STREAMOFF" rp ++ unmap_events (buffers dev) rps ++
        EvClose (fd dev) rc :: warned "close" rc ∧
    replies t = l ++ rp :: rps ++ [rc] ∧
    warnings t = complaint "VIDIOC_STREAMOFF" rp ++ (rps ≫= complaint "munmap") ++
                 complaint "close" rc.
Proof.
  intros Hs Hl E Hlen.
  destruct (subdevice_dtor dev w) as [o w'] eqn:Hrun.
  destruct (subdevice_dtor_run _ _ _ _ Hrun)
    as [(-> & l' & rp' & rps' & rc' & Hl' & E' & Hs' & Hlen' & Ht' & Ha)
       |(-> & [Hall|(l' & rp' & rest & Hl' & E' & Hs' & Hshort)])].
  - rewrite Hs in Hs'.
    destruct (eintr_split_unique _ _ _ _ _ _ Hs' Hl Hl' E E') as (<- & <- & Hrest).
    apply app_inj_1 in Hrest as [<- [= <- Hw']]; [|congruence].
    eexists w', _. split; [done|]. split; [done|]. split; [exact Ht'|].
    split; [done|].
    destruct (readers_ioctl_events (fd dev) VIDIOC_STREAMOFF streamoff_arg (l ++ [rp]))
      as (_ & _ & Hw1).
    destruct (readers_unmap_events (buffers dev) rps Hlen) as (_ & _ & Hw3).
    destruct (readers_warned "VIDIOC_STREAMOFF" rp) as (_ & _ & Hw2).
    destruct (readers_warned "close" rc) as (_ & _ & Hw4).
    split.
    + rewrite !replies_app, replies_ioctl_events, replies_warned,
        replies_unmap_events by done.
      simpl. by rewrite replies_warned, <- app_assoc.
    + rewrite !warnings_app, Hw1, Hw2, Hw3. simpl. by rewrite Hw4.
  - rewrite Hs in Hall. apply Forall_app in Hall as [_ Hall].
    apply Forall_cons in Hall as [? _]. congruence.
  - rewrite Hs in Hs'.
    destruct (eintr_split_unique _ _ _ _ _ _ Hs' Hl Hl' E E') as (_ & _ & <-).
    rewrite length_app in Hshort. simpl in Hshort. lia.
Qed.

Lemma subdevice_dtor_completes_witness :
  ∃ w',
    subdevice_dtor dev_ex
      (world_of [reply_fail EINTR; reply_fail 19; reply_fail 22; reply_ok 0 None; reply_fail 9]
                no_frames) = (Ret tt, w') ∧
    script w' = [] ∧
    trace w' =
      [ EvIoctl 3 VIDIOC_STREAMOFF streamoff_arg (reply_fail EINTR);
        EvIoctl 3 VIDIOC_STREAMOFF streamoff_arg (reply_fail 19);
        EvStderr "VIDIOC_STREAMOFF" 19;
        EvMunmap 4096 16 (reply_fail 22); EvStderr "munmap" 22;
        EvMunmap 8192 16 (reply_ok 0 None);
        EvClose 3 (reply_fail 9); EvStderr "close" 9 ].
Proof.
  destruct (subdevice_dtor_completes dev_ex
              (world_of [reply_fail EINTR; reply_fail 19; reply_fail 22; reply_ok 0 None;
                         reply_fail 9] no_frames)
              [reply_fail EINTR] (reply_fail 19) [reply_fail 22; reply_ok 0 None]
              (reply_fail 9) [])
    as (w' & t & Hrun & Hs & Ht & Heq & _).
  - reflexivity.
  - repeat constructor.
  - reflexivity.
  - reflexivity.
  - exists w'. split; [exact Hrun|]. split; [exact Hs|].
    rewrite Ht, Heq. reflexivity.
Defined.

(** ** Every run of [poll] *)

Lemma buffer_at_in dev buf :
  index_ok dev buf = true → buffer_at dev (buf_index buf) ∈ buffers dev.
Proof.
  unfold index_ok, buffer_at. intros [H0 H1]%andb_prop.
  apply Z.leb_le in H0. apply Z.ltb_lt in H1.
  destruct (lookup_lt_is_Some_2 (buffers dev) (Z.to_nat (buf_index buf))) as [b Hb]; [lia|].
  rewrite Hb. simpl. apply list_elem_of_lookup. eauto.
Qed.

(** What one round can have done to the callback and to the frames. *)
Lemma exchange_callbacks dev f fr t o fr' :
  exchange_shape dev f fr t o fr' →
  (callbacks t = [] ∧ fr' = fr ∧ o ≠ Ret true) ∨
  (∃ b n mem, b ∈ buffers dev ∧ callbacks t = [(b_start b, n)] ∧
              (f (b_start b) n mem fr = Some fr' ∨
               f (b_start b) n mem fr = None ∧ fr' = fr ∧ o = Crash) ∧
              o ≠ Ret false).
Proof.
  intros [l Hl|l rp Hl Hr He|l rp Hl Hr He He'|l rp Hl Hr Hix
         |l rp mem buf data Hl Hr Hix Hf
         |l rp mem fr1 lq o1 buf data Hl Hr Hix Hf Hend].
  1-4: left; by rewrite callbacks_ioctl_events.
  - right. exists (buffer_at dev (buf_index buf)), (buf_bytesused buf), mem.
    split; [by apply buffer_at_in|].
    rewrite callbacks_app, callbacks_ioctl_events. split; [done|]. split; [|done].
    right. done.
  - right. exists (buffer_at dev (buf_index buf)), (buf_bytesused buf), mem.
    split; [by apply buffer_at_in|].
    rewrite callbacks_app, callbacks_ioctl_events. simpl.
    rewrite callbacks_ioctl_events. split; [done|]. split; [by left|].
    by destruct Hend.
Qed.

Lemma poll_callbacks dev f fr t o fr' :
  poll_shape dev f fr t o fr' →
  (callbacks t = [] ∧ fr' = fr ∧ o ≠ Ret tt) ∨
  (∃ b n mem, b ∈ buffers dev ∧ callbacks t = [(b_start b, n)] ∧
              (f (b_start b) n mem fr = Some fr' ∨
               f (b_start b) n mem fr = None ∧ fr' = fr ∧ o = Crash)).
Proof.
  induction 1 as [fr|fr rp t o fr' R E Hsh IH|fr rp R E|fr rp R
                 |fr rp t1 fr1 t o fr' R1 R0 Hex Hsh IH|fr rp t1 fr' R1 R0 Hex
                 |fr rp t1 s fr' R1 R0 Hex|fr rp t1 fr' R1 R0 Hex
                 |fr rp t1 fr' R1 R0 Hex];
    try (by left); try done.
  - destruct (exchange_callbacks _ _ _ _ _ _ Hex)
      as [(Hc & -> & _)|(b & n & mem & _ & _ & _ & Hne)]; [|done].
    simpl. rewrite callbacks_app, Hc. exact IH.
  - destruct (exchange_callbacks _ _ _ _ _ _ Hex)
      as [(_ & _ & Hne)|(b & n & mem & Hb & Hc & [Hf|(_ & _ & [=])] & _)]; [done|].
    right. exists b, n, mem. repeat split; try done. by left.
  - destruct (exchange_callbacks _ _ _ _ _ _ Hex)
      as [(Hc & -> & _)|(b & n & mem & Hb & Hc & [Hf|(_ & _ & [=])] & _)]; [by left|].
    right. exists b, n, mem. repeat split; try done. by left.
  - destruct (exchange_callbacks _ _ _ _ _ _ Hex)
      as [(Hc & -> & _)|(b & n & mem & Hb & Hc & [Hf|(Hf & -> & _)] & _)]; [by left|..].
    + right. exists b, n, mem. repeat split; try done. by left.
    + right. exists b, n, mem. repeat split; try done. by right.
  - destruct (exchange_callbacks _ _ _ _ _ _ Hex)
      as [(Hc & -> & _)|(b & n & mem & Hb & Hc & [Hf|(_ & _ & [=])] & _)]; [by left|].
    right. exists b, n, mem. repeat split; try done. by left.
Qed.

(** X4. In every run of [poll], however it ends, the callback is invoked
    at most once, and only on the start address of a buffer of the pool;
    the frames change only through that invocation: without one they are
    as before, with one they are what the callback made of them (or as
    before when the callback left an object, which ends the run).  A run
    that returns has made the invocation. *)
Theorem poll_callback_discipline dev f w o w' t :
  poll dev f w = (o, w') →
  trace w' = trace w ++ t →
  (callbacks t = [] ∧ app w' = app w ∧ o ≠ Ret tt) ∨
  (∃ b n mem, b ∈ buffers dev ∧ callbacks t = [(b_start b, n)] ∧
              (f (b_start b) n mem (app w) = Some (app w') ∨
               f (b_start b) n mem (app w) = None ∧ app w' = app w ∧ o = Crash)).
Proof.
  intros Hrun Ht.
  destruct (poll_sound dev f w) as (t0 & Ht0 & _ & Hsh).
  rewrite Hrun in Ht0, Hsh. simpl in Ht0, Hsh.
  rewrite Ht in Ht0. apply app_inv_head in Ht0 as <-.
  by apply poll_callbacks.
Qed.

Lemma poll_callback_discipline_witness :
  ∃ b n, b ∈ buffers dev_ex ∧
         callbacks (trace (poll dev_ex cb_ex (world_of script_ex no_frames)).2) =
           [(b_start b, n)].
Proof.
  destruct (poll_callback_discipline dev_ex cb_ex (world_of script_ex no_frames) (Ret tt)
              (poll dev_ex cb_ex (world_of script_ex no_frames)).2
              (trace (poll dev_ex cb_ex (world_of script_ex no_frames)).2))
    as [(_ & _ & Hne)|(b & n & mem & Hb & Hc & _)].
  - vm_compute. reflexivity.
  - reflexivity.
  - done.
  - by exists b, n.
Defined.

Lemma last_keep {A} (l1 l2 : list A) e : last l2 = Some e → last (l1 ++ l2) = Some e.
Proof. intros H. by rewrite last_app, H. Qed.

(** How a run of [poll] that throws or fails an assertion ended. *)
Lemma poll_failure_causes dev f fr t o fr' :
  poll_shape dev f fr t o fr' →
  match o with
  | Throw s =>
      s ∈ poll_errors ∧
      (s = "select" →
         ∃ rp, last t = Some (EvSelect (fd dev + 1) (fd dev) 2 0 rp) ∧
               ret rp = -1 ∧ err rp ≠ EINTR) ∧
      (s = "select timeout" →
         ∃ rp, last t = Some (EvSelect (fd dev + 1) (fd dev) 2 0 rp) ∧ ret rp = 0)
  | Crash =>
      (∃ a rp, last t = Some (EvIoctl (fd dev) VIDIOC_DQBUF a rp) ∧ 0 ≤ ret rp ∧
               index_ok dev (get_buf (default a (out rp))) = false) ∨
      (∃ data size mem, last t = Some (EvCallback data size (mem data)) ∧
                        f data size mem fr = None)
  | _ => True
  end.
Proof.
  induction 1 as [fr|fr rp t o fr' R E Hsh IH|fr rp R E|fr rp R
                 |fr rp t1 fr1 t o fr' R1 R0 Hex Hsh IH|fr rp t1 fr' R1 R0 Hex
                 |fr rp t1 s fr' R1 R0 Hex|fr rp t1 fr' R1 R0 Hex
                 |fr rp t1 fr' R1 R0 Hex]; try done.
  - destruct o as [|s| |]; try done.
    + destruct IH as (Hin & H1 & H2). split; [done|]. split.
      * intros Hs. destruct (H1 Hs) as (rp' & Hl & ?). exists rp'.
        split; [|done]. by apply (last_keep [_]).
      * intros Hs. destruct (H2 Hs) as (rp' & Hl & ?). exists rp'.
        split; [|done]. by apply (last_keep [_]).
    + destruct IH as [(a & rp' & Hl & ?)|(d & n & mem & Hl & ?)].
      * left. exists a, rp'. split; [|done]. by apply (last_keep [_]).
      * right. exists d, n, mem. split; [|done]. by apply (last_keep [_]).
  - split; [unfold poll_errors; in_list|]. split; [|done].
    intros _. by exists rp.
  - split; [unfold poll_errors; in_list|]. split; [done|].
    intros _. by exists rp.
  - assert (fr1 = fr) as ->.
    { inversion Hex as [|l rp0 Hl Hr He Ht1| | | |l rp0 mem0 fr0 lq0 o0 buf data Hl Hr Hix Hf Hend];
        subst; [done|by inversion Hend]. }
    destruct o as [|s| |]; try done.
    + destruct IH as (Hin & H1 & H2). split; [done|]. split.
      * intros Hs. destruct (H1 Hs) as (rp' & Hl & ?). exists rp'.
        split; [|done]. apply (last_keep (_ :: _)). done.
      * intros Hs. destruct (H2 Hs) as (rp' & Hl & ?). exists rp'.
        split; [|done]. apply (last_keep (_ :: _)). done.
    + destruct IH as [(a & rp' & Hl & ?)|(d & n & mem & Hl & ?)].
      * left. exists a, rp'. split; [|done]. by apply (last_keep (_ :: _)).
      * right. exists d, n, mem. split; [|done]. by apply (last_keep (_ :: _)).
  - inversion Hex as [| |l rp0 Hl Hr He He'| | |l rp0 mem fr0 lq o0 buf data Hl Hr Hix Hf Hend];
      subst.
    + split; [unfold poll_errors; in_list|]. by split.
    + inversion Hend; subst. split; [unfold poll_errors; in_list|]. by split.
  - inversion Hex as [| | |l rp0 Hl Hr Hix|l rp0 mem buf data Hl Hr Hix Hf
                     |l rp0 mem fr0 lq o0 buf data Hl Hr Hix Hf Hend]; subst.
    + left. exists (arg_after dq_arg l), rp0.
      rewrite <- arg_after_snoc. split; [|done].
      apply (last_keep [_]). by rewrite ioctl_events_snoc, last_snoc.
    + right. exists data, (buf_bytesused buf), mem. split; [|done].
      by rewrite app_comm_cons, last_snoc.
    + by inversion Hend.
Qed.

(** X5. On a session whose descriptor has a place in an [fd_set] (it is
    not negative and below FD_SETSIZE), a call of [poll] throws nothing but
    "select", "select timeout", "VIDIOC_DQBUF" and "VIDIOC_QBUF".  It throws
    "select" only right after a [select] that returned -1 with an error
    other than EINTR, and "select timeout" only right after a [select] that
    returned 0.  It fails an assertion only right after a successful
    VIDIOC_DQBUF that reported an index outside the pool, before any
    callback is made for it; otherwise the run leaves an object only in the
    callback itself. *)
Theorem poll_failure_modes dev f w o w' t :
  0 ≤ fd dev < FD_SETSIZE →
  poll dev f w = (o, w') →
  trace w' = trace w ++ t →
  match o with
  | Throw s =>
      s ∈ poll_errors ∧
      (s = "select" →
         ∃ rp, last t = Some (EvSelect (fd dev + 1) (fd dev) 2 0 rp) ∧
               ret rp = -1 ∧ err rp ≠ EINTR) ∧
      (s = "select timeout" →
         ∃ rp, last t = Some (EvSelect (fd dev + 1) (fd dev) 2 0 rp) ∧ ret rp = 0)
  | Crash =>
      (∃ a rp, last t = Some (EvIoctl (fd dev) VIDIOC_DQBUF a rp) ∧ 0 ≤ ret rp ∧
               index_ok dev (get_buf (default a (out rp))) = false) ∨
      (∃ data size mem, last t = Some (EvCallback data size (mem data)) ∧
                        f data size mem (app w) = None)
  | _ => True
  end.
Proof.
  intros _ Hrun Ht.
  destruct (poll_sound dev f w) as (t0 & Ht0 & _ & Hsh).
  rewrite Hrun in Ht0, Hsh. simpl in Ht0, Hsh.
  rewrite Ht in Ht0. apply app_inv_head in Ht0 as <-.
  by apply (poll_failure_causes _ _ _ _ _ _ Hsh).
Qed.

Lemma poll_failure_modes_witness :
  let w := world_of [reply_ok 1 None; reply_dqbuf 2 7 []] no_frames in
  (poll dev_ex cb_ex w).1 = Crash ∧
  ∃ a rp, last (trace (poll dev_ex cb_ex w).2) = Some (EvIoctl 3 VIDIOC_DQBUF a rp) ∧
          index_ok dev_ex (get_buf (default a (out rp))) = false.
Proof.
  intros w.
  pose proof (poll_failure_modes dev_ex cb_ex w Crash (poll dev_ex cb_ex w).2
                (trace (poll dev_ex cb_ex w).2)) as H.
  simpl in H. split; [by vm_compute|].
  destruct H as [(a & rp & Hl & _ & Hix)|(d & n & mem & _ & [=])].
  - unfold FD_SETSIZE. lia.
  - vm_compute. reflexivity.
  - reflexivity.
  - by exists a, rp.
Defined.

(** X6. When the wait comes back with 0 after any number of
    interruptions, [poll] throws "select timeout"; when it comes back with
    -1 and an error other than EINTR, [poll] throws "select".  Either way it
    has made nothing but [select] calls, each with a timeout of 2 s, has
    consumed exactly their answers, and has left the frames alone. *)
Theorem poll_wait_fails dev f w l rp s :
  script w = l ++ rp :: s →
  Forall (λ x, ret x = -1 ∧ err x = EINTR) l →
  ret rp = 0 ∨ (ret rp = -1 ∧ err rp ≠ EINTR) →
  ∃ w',
    poll dev f w = (Throw (if ret rp =? 0 then "select timeout" else "select"), w') ∧
    trace w' = trace w ++ (EvSelect (fd dev + 1) (fd dev) 2 0 <$> l ++ [rp]) ∧
    script w' = s ∧ app w' = app w.
Proof.
  intros Hs Hl Hrp.
  destruct (interrupted_facts dev l w (rp :: s) Hs) as (Hsi & Hti & Hai).
  rewrite (poll_interruptions dev f l w (rp :: s) Hs Hl).
  rewrite poll_unfold, (poll_round_eq _ _ _ rp s) by done. simpl.
  exists (answered (interrupted dev w l (rp :: s)) (ev_select dev) rp s). split.
  - destruct Hrp as [H0|[H1 He]].
    + by rewrite H0.
    + rewrite H1. simpl. apply Z.eqb_neq in He. by rewrite He.
  - simpl. by rewrite Hti, Hai, fmap_app, app_assoc.
Qed.

Lemma poll_wait_fails_witness :
  ∃ w', poll dev_ex cb_ex (world_of [reply_fail EINTR; reply_ok 0 None; reply_ok 1 None] no_frames)
          = (Throw "select timeout", w') ∧
        script w' = [reply_ok 1 None] ∧ length (trace w') = 2%nat.
Proof.
  destruct (poll_wait_fails dev_ex cb_ex
              (world_of [reply_fail EINTR; reply_ok 0 None; reply_ok 1 None] no_frames)
              [reply_fail EINTR] (reply_ok 0 None) [reply_ok 1 None])
    as (w' & Hrun & Ht & Hs & _).
  - reflexivity.
  - by repeat constructor.
  - by left.
  - exists w'. split; [exact Hrun|]. split; [exact Hs|]. by rewrite Ht.
Defined.

(** ** The capture tick of [main] *)

Lemma on_device_ioctl_events dev rq a l :
  Forall (on_device dev) (ioctl_events (fd dev) rq a l).
Proof. revert a. induction l as [|rp l IH]; intros a; simpl; by constructor. Qed.

Lemma exchange_on_device dev f fr t o fr' :
  exchange_shape dev f fr t o fr' → Forall (on_device dev) t.
Proof.
  intros [l Hl|l rp Hl Hr He|l rp Hl Hr He He'|l rp Hl Hr Hix
         |l rp mem buf data Hl Hr Hix Hf
         |l rp mem fr1 lq o1 buf data Hl Hr Hix Hf Hend];
    try apply on_device_ioctl_events.
  - apply Forall_app. split; [apply on_device_ioctl_events|].
    constructor; [|done]. exists (buffer_at dev (buf_index buf)).
    split; [by apply buffer_at_in|done].
  - apply Forall_app. split; [apply on_device_ioctl_events|].
    constructor; [|apply on_device_ioctl_events].
    exists (buffer_at dev (buf_index buf)). split; [by apply buffer_at_in|done].
Qed.

Lemma poll_on_device dev f fr t o fr' :
  poll_shape dev f fr t o fr' → Forall (on_device dev) t.
Proof.
  induction 1 as [fr|fr rp t o fr' R E Hsh IH|fr rp R E|fr rp R
                 |fr rp t1 fr1 t o fr' R1 R0 Hex Hsh IH|fr rp t1 fr' R1 R0 Hex
                 |fr rp t1 s fr' R1 R0 Hex|fr rp t1 fr' R1 R0 Hex
                 |fr rp t1 fr' R1 R0 Hex];
    try (constructor; [done|]); try done;
    try (by eapply exchange_on_device).
  apply Forall_app. split; [by eapply exchange_on_device|done].
Qed.

(** The run of one [poll] inside a larger computation. *)
Lemma poll_run_shape dev f w :
  ∃ t, trace (poll dev f w).2 = trace w ++ t ∧
       poll_shape dev f (app w) t (poll dev f w).1 (app (poll dev f w).2).
Proof. destruct (poll_sound dev f w) as (t & Ht & _ & Hsh). eauto. Qed.

(** X7. In one tick the second device is not touched before the first
    one is done with: the events of a tick are those of [poll] on the first
    device followed by those of [poll] on the second, and the second part is
    empty unless the first [poll] has ended with a successful VIDIOC_QBUF on
    the first device.  However the tick ends, at most two callbacks were
    made. *)
Theorem capture_tick_in_sequence dev0 dev1 w o w' t :
  capture_tick dev0 dev1 w = (o, w') →
  trace w' = trace w ++ t →
  ∃ t0 t1,
    t = t0 ++ t1 ∧
    Forall (on_device dev0) t0 ∧ Forall (on_device dev1) t1 ∧
    (length (callbacks t0) ≤ 1)%nat ∧ (length (callbacks t1) ≤ 1)%nat ∧
    (t1 ≠ [] ∨ o = Ret tt →
       ∃ a rq, last t0 = Some (EvIoctl (fd dev0) VIDIOC_QBUF a rq) ∧ 0 ≤ ret rq).
Proof.
  unfold capture_tick, bind. intros Hrun Ht.
  destruct (poll_run_shape dev0 color_callback w) as (t0 & Ht0 & Hsh0).
  assert (Hc0 : (length (callbacks t0) ≤ 1)%nat).
  { destruct (poll_callbacks _ _ _ _ _ _ Hsh0) as [(-> & _)|(b & n & mem & _ & -> & _)];
      simpl; lia. }
  destruct (poll dev0 color_callback w) as [o0 w1]. simpl in Ht0, Hsh0.
  assert (Hstop : o0 ≠ Ret tt → (o0, w1) = (o, w') →
            ∃ t1, t = t0 ++ t1 ∧ t1 = [] ∧ o ≠ Ret tt).
  { intros Hne [= <- <-]. exists []. rewrite Ht in Ht0. apply app_inv_head in Ht0 as ->.
    by rewrite app_nil_r. }
  destruct o0 as [[]| | |];
    try (destruct (Hstop ltac:(done) Hrun) as (t1 & -> & -> & Hne);
         exists t0, []; repeat split; try done; [by eapply poll_on_device|simpl; lia|];
         by intros [?|?]).
  clear Hstop.
  destruct (poll_run_shape dev1 depth_callback w1) as (t1 & Ht1 & Hsh1).
  rewrite Hrun in Ht1, Hsh1. simpl in Ht1, Hsh1.
  rewrite Ht0, <- app_assoc in Ht1. rewrite Ht in Ht1. apply app_inv_head in Ht1 as ->.
  exists t0, t1. repeat split; try done; try by eapply poll_on_device.
  - destruct (poll_callbacks _ _ _ _ _ _ Hsh1) as [(-> & _)|(b & n & mem & _ & -> & _)];
      simpl; lia.
  - intros _.
    destruct (poll_delivered_shape _ _ _ _ _ _ Hsh0 eq_refl)
      as (tw & a & rp & mem & lq & rq & -> & _ & _ & _ & _ & Hrq & _).
    exists (arg_after (ABuf (get_buf (default a (out rp)))) lq), rq. split; [|done].
    rewrite ioctl_events_snoc.
    by rewrite app_comm_cons, app_comm_cons, !app_assoc, last_snoc.
Qed.

(** What the depth callback made of its input, read back from a run that
    did not leave an object. *)
Lemma depth_callback_Some data size mem fr fr' :
  depth_callback data size mem fr = Some fr' →
  length (app_z fr) = Z.to_nat (320 * 240) →
  length (app_y fr) = Z.to_nat (320 * 240) →
  (Z.to_nat 230400 ≤ length (mem data))%nat ∧
  app_yuy2 fr' = app_yuy2 fr ∧
  app_stdout fr' = app_stdout fr ++ [(size, 320 * 240 * 3)] ∧
  length (app_z fr') = Z.to_nat (320 * 240) ∧
  length (app_y fr') = Z.to_nat (320 * 240) ∧
  ∀ i, (i < Z.to_nat (320 * 240))%nat →
    app_z fr' !! i = px_z <$> read_pixel (mem data) i ∧
    app_y fr' !! i = px_y <$> read_pixel (mem data) i.
Proof.
  intros Hrun Hz Hy. rewrite decode_loop_size_blind in Hrun.
  destruct (decide (length (mem data) < Z.to_nat 230400)%nat) as [Hshort|Hlong].
  { rewrite decode_loop_short in Hrun; [done|lia..]. }
  destruct (decode_loop_ok (mem data) (Z.to_nat (320 * 240)) 0 (app_z fr) (app_y fr))
    as (z' & y' & Hdec & Hlz & Hly & Hin & _); [lia..|].
  rewrite Hdec in Hrun. injection Hrun as <-. simpl.
  rewrite Hlz, Hly. repeat split; try done; try lia; apply Hin; lia.
Qed.

(** X8. When a tick returns, the three frame buffers hold the two frames
    just delivered: the first N0 bytes of the color buffer are the first N0
    bytes of the buffer that the first device filled, every entry of the
    depth and intensity planes comes from the packed element of the same
    index in the buffer that the second device filled, and the two byte
    counts were printed, in that order, each with its expected frame size. *)
Theorem capture_tick_frames dev0 dev1 w w' t :
  capture_tick dev0 dev1 w = (Ret tt, w') →
  trace w' = trace w ++ t →
  length (app_z (app w)) = Z.to_nat (320 * 240) →
  length (app_y (app w)) = Z.to_nat (320 * 240) →
  ∃ b0 n0 in0 b1 n1 in1 ta tb tc,
    t = ta ++ EvCallback (b_start b0) n0 in0 :: tb ++ EvCallback (b_start b1) n1 in1 :: tc ∧
    callbacks ta = [] ∧ callbacks tb = [] ∧ callbacks tc = [] ∧
    b0 ∈ buffers dev0 ∧ b1 ∈ buffers dev1 ∧
    0 ≤ n0 ≤ Z.of_nat (length in0) ∧
    take (Z.to_nat n0) (app_yuy2 (app w')) = take (Z.to_nat n0) in0 ∧
    drop (Z.to_nat n0) (app_yuy2 (app w')) = drop (Z.to_nat n0) (app_yuy2 (app w)) ∧
    (Z.to_nat 230400 ≤ length in1)%nat ∧
    (∀ i, (i < Z.to_nat (320 * 240))%nat →
       app_z (app w') !! i = px_z <$> read_pixel in1 i ∧
       app_y (app w') !! i = px_y <$> read_pixel in1 i) ∧
    app_stdout (app w') =
      app_stdout (app w) ++ [(n0, 640 * 480 * 2); (n1, 320 * 240 * 3)].
Proof.
  unfold capture_tick, bind. intros Hrun Ht Hz Hy.
  destruct (poll_run_shape dev0 color_callback w) as (t0 & Ht0 & Hsh0).
  destruct (poll dev0 color_callback w) as [[[]| | |] w1]; try done.
  simpl in Ht0, Hsh0.
  destruct (poll_run_shape dev1 depth_callback w1) as (t1 & Ht1 & Hsh1).
  rewrite Hrun in Ht1, Hsh1. simpl in Ht1, Hsh1.
  rewrite Ht0, <- app_assoc in Ht1. rewrite Ht in Ht1. apply app_inv_head in Ht1 as ->.
  destruct (poll_delivered_shape _ _ _ _ _ _ Hsh0 eq_refl)
    as (tw0 & a0 & rp0 & mem0 & lq0 & rq0 & -> & Hw0 & _ & Hix0 & _ & _ & Hf0).
  destruct (poll_delivered_shape _ _ _ _ _ _ Hsh1 eq_refl)
    as (tw1 & a1 & rp1 & mem1 & lq1 & rq1 & -> & Hw1 & _ & Hix1 & _ & _ & Hf1).
  cbv zeta in Hf0, Hf1. unfold color_callback in Hf0.
  destruct (memcpy _ _ _) as [d|] eqn:Hcp; [|done]. injection Hf0 as Hf0.
  apply memcpy_Some in Hcp as (Hn & _ & Htake & Hdrop & Hlen).
  rewrite <- Hf0 in Hf1.
  apply depth_callback_Some in Hf1 as (Hlong & Hyuy & Hout & _ & _ & Hplanes);
    [|exact Hz|exact Hy].
  cbn [app_yuy2 app_stdout] in Hyuy, Hout.
  set (buf0 := get_buf (default a0 (out rp0))) in *.
  set (buf1 := get_buf (default a1 (out rp1))) in *.
  exists (buffer_at dev0 (buf_index buf0)), (buf_bytesused buf0),
    (mem0 (b_start (buffer_at dev0 (buf_index buf0)))),
    (buffer_at dev1 (buf_index buf1)), (buf_bytesused buf1),
    (mem1 (b_start (buffer_at dev1 (buf_index buf1)))),
    (tw0 ++ [EvIoctl (fd dev0) VIDIOC_DQBUF a0 rp0]),
    (ioctl_events (fd dev0) VIDIOC_QBUF (ABuf buf0) (lq0 ++ [rq0]) ++
       tw1 ++ [EvIoctl (fd dev1) VIDIOC_DQBUF a1 rp1]),
    (ioctl_events (fd dev1) VIDIOC_QBUF (ABuf buf1) (lq1 ++ [rq1])).
  split; [by rewrite <- !app_assoc; cbn [app]; rewrite <- ?app_assoc|].
  rewrite !callbacks_app, (waiting_no_callbacks tw0), (waiting_no_callbacks tw1),
    !callbacks_ioctl_events by done.
  rewrite Hyuy, Hout, <- app_assoc.
  repeat split; try done; try by apply buffer_at_in.
  - lia.
  - lia.
  - by apply Hplanes.
  - by apply Hplanes.
Qed.

(** A tick that is given a frame by each device. *)
Lemma capture_tick_run dev0 dev1 w r0 d0 q0 r1 d1 q1 s :
  script w = r0 :: d0 :: q0 :: r1 :: d1 :: q1 :: s →
  ret r0 ≠ -1 → ret r0 ≠ 0 → 0 ≤ ret d0 → 0 ≤ ret q0 →
  ret r1 ≠ -1 → ret r1 ≠ 0 → 0 ≤ ret d1 → 0 ≤ ret q1 →
  let buf0 := get_buf (default dq_arg (out d0)) in
  let buf1 := get_buf (default dq_arg (out d1)) in
  let in0 := filled (shm w) [r0; d0] (b_start (buffer_at dev0 (buf_index buf0))) in
  let in1 := filled (shm w) [r0; d0; q0; r1; d1]
               (b_start (buffer_at dev1 (buf_index buf1))) in
  index_ok dev0 buf0 = true → index_ok dev1 buf1 = true →
  0 ≤ buf_bytesused buf0 ≤ Z.of_nat (length in0) →
  buf_bytesused buf0 ≤ Z.of_nat (length (app_yuy2 (app w))) →
  length (app_z (app w)) = Z.to_nat (320 * 240) →
  length (app_y (app w)) = Z.to_nat (320 * 240) →
  (Z.to_nat 230400 ≤ length in1)%nat →
  ∃ w',
    capture_tick dev0 dev1 w = (Ret tt, w') ∧ script w' = s ∧
    trace w' = trace w ++
      [ ev_select dev0 r0; EvIoctl (fd dev0) VIDIOC_DQBUF dq_arg d0;
        EvCallback (b_start (buffer_at dev0 (buf_index buf0))) (buf_bytesused buf0) in0;
        EvIoctl (fd dev0) VIDIOC_QBUF (ABuf buf0) q0;
        ev_select dev1 r1; EvIoctl (fd dev1) VIDIOC_DQBUF dq_arg d1;
        EvCallback (b_start (buffer_at dev1 (buf_index buf1))) (buf_bytesused buf1) in1;
        EvIoctl (fd dev1) VIDIOC_QBUF (ABuf buf1) q1 ].
Proof.
  intros Hs R0 R0' Hd0 Hq0 R1 R1' Hd1 Hq1 buf0 buf1 in0 in1 Hix0 Hix1 Hn0 Hdst Hz Hy Hlong.
  destruct (decode_loop_ok in1 (Z.to_nat (320 * 240)) 0 (app_z (app w)) (app_y (app w)))
    as (z' & y' & Hdec & _); [lia..|].
  unfold capture_tick, bind.
  erewrite (poll_delivers dev0 color_callback w r0 d0 q0); [|done..|].
  2:{ unfold color_callback. cbn [shm answered]. fold buf0.
      change (foldl store (foldl store (shm w) (dma r0)) (dma d0)) with (filled (shm w) [r0; d0]).
      fold in0. by rewrite memcpy_fits. }
  erewrite (poll_delivers dev1 depth_callback _ r1 d1 q1 s); [|done..|].
  2:{ unfold depth_callback. cbn [shm answered delivered_to app app_z app_y]. fold buf0 buf1.
      change (foldl store (foldl store (foldl store (foldl store (foldl store (shm w)
                (dma r0)) (dma d0)) (dma q0)) (dma r1)) (dma d1))
        with (filled (shm w) [r0; d0; q0; r1; d1]).
      fold in1. by rewrite Hdec. }
  eexists. split; [done|]. split; [done|].
  cbn [trace answered delivered_to shm]. by rewrite <- !app_assoc.
Qed.

(** X9. A tick that finds a frame waiting on each device returns.  Given
    six replies -- ready, a successful dequeue and a successful requeue, for
    the first device and then for the second -- with dequeued indexes inside
    the pools, a color frame that fits the color buffer and the mapped
    buffer, planes of 320*240 entries and at least 230400 readable bytes in
    the depth buffer, the tick consumes exactly these six replies, calls each
    callback once on the buffer the kernel named, and returns. *)
Theorem capture_tick_completes dev0 dev1 w r0 d0 q0 r1 d1 q1 s :
  script w = r0 :: d0 :: q0 :: r1 :: d1 :: q1 :: s →
  ret r0 ≠ -1 → ret r0 ≠ 0 → 0 ≤ ret d0 → 0 ≤ ret q0 →
  ret r1 ≠ -1 → ret r1 ≠ 0 → 0 ≤ ret d1 → 0 ≤ ret q1 →
  let buf0 := get_buf (default dq_arg (out d0)) in
  let buf1 := get_buf (default dq_arg (out d1)) in
  let data0 := b_start (buffer_at dev0 (buf_index buf0)) in
  let data1 := b_start (buffer_at dev1 (buf_index buf1)) in
  index_ok dev0 buf0 = true → index_ok dev1 buf1 = true →
  0 ≤ buf_bytesused buf0 ≤ Z.of_nat (length (filled (shm w) [r0; d0] data0)) →
  buf_bytesused buf0 ≤ Z.of_nat (length (app_yuy2 (app w))) →
  length (app_z (app w)) = Z.to_nat (320 * 240) →
  length (app_y (app w)) = Z.to_nat (320 * 240) →
  (Z.to_nat 230400 ≤ length (filled (shm w) [r0; d0; q0; r1; d1] data1))%nat →
  ∃ w' t,
    capture_tick dev0 dev1 w = (Ret tt, w') ∧ script w' = s ∧
    trace w' = trace w ++ t ∧
    replies t = [r0; d0; q0; r1; d1; q1] ∧
    callbacks t = [(data0, buf_bytesused buf0); (data1, buf_bytesused buf1)].
Proof.
  intros Hs R0 R0' Hd0 Hq0 R1 R1' Hd1 Hq1 buf0 buf1 data0 data1 Hix0 Hix1 Hn0 Hdst Hz Hy Hlong.
  destruct (capture_tick_run dev0 dev1 w r0 d0 q0 r1 d1 q1 s) as (w' & Hrun & Hs' & Ht);
    try done.
  by eexists w', _.
Qed.

(** What the device wrote last into a mapped region is what is read there. *)
Lemma filled_last m l rp a bytes :
  dma rp = [(a, bytes)] → filled m (l ++ [rp]) a = bytes.
Proof.
  intros Hrp. unfold filled. rewrite foldl_snoc, Hrp. cbn [foldl]. unfold store.
  cbn [fst snd]. by rewrite Z.eqb_refl.
Qed.

Lemma capture_tick_in_sequence_witness :
  ∃ w' t0 t1,
    capture_tick dev_ex dev_depth_ex (world_of script_tick blank_frames) = (Ret tt, w') ∧
    trace w' = t0 ++ t1 ∧
    Forall (on_device dev_ex) t0 ∧ Forall (on_device dev_depth_ex) t1 ∧
    (length (callbacks t0) ≤ 1)%nat ∧ (length (callbacks t1) ≤ 1)%nat ∧
    t1 ≠ [] ∧
    ∃ a rq, last t0 = Some (EvIoctl 3 VIDIOC_QBUF a rq) ∧ 0 ≤ ret rq.
Proof.
  destruct (capture_tick_run dev_ex dev_depth_ex (world_of script_tick blank_frames)
              (reply_ok 1 None) (reply_dqbuf 0 4 [(4096, [89; 85; 89; 86])]) (reply_ok 0 None)
              (reply_ok 1 None)
              (reply_dqbuf 1 230400 [(2097152, replicate (Z.to_nat 230400) 1)])
              (reply_ok 0 None) [])
    as (w' & Hrun & Hs & Ht).
  - reflexivity.
  - discriminate.
  - discriminate.
  - discriminate.
  - discriminate.
  - discriminate.
  - discriminate.
  - discriminate.
  - discriminate.
  - reflexivity.
  - reflexivity.
  - split; discriminate.
  - change (4 ≤ Z.of_nat (length (replicate (Z.to_nat (640 * 480 * 2)) 0))).
    rewrite length_replicate. lia.
  - apply length_replicate.
  - apply length_replicate.
  - rewrite (filled_last _ [reply_ok 1 None; reply_dqbuf 0 4 [(4096, [89; 85; 89; 86])];
                             reply_ok 0 None; reply_ok 1 None]
               (reply_dqbuf 1 230400 [(2097152, replicate (Z.to_nat 230400) 1)])
               2097152 (replicate (Z.to_nat 230400) 1) eq_refl).
    rewrite length_replicate. lia.
  - destruct (capture_tick_in_sequence dev_ex dev_depth_ex
                (world_of script_tick blank_frames) (Ret tt) w' _ Hrun Ht)
      as (t0 & t1 & Hsplit & H0 & H1 & Hc0 & Hc1 & Hlast).
    destruct (Hlast (or_intror eq_refl)) as (a & rq & Hl0 & Hrq).
    exists w', t0, t1. split; [exact Hrun|]. split; [rewrite Ht; exact Hsplit|].
    split; [exact H0|]. split; [exact H1|]. split; [exact Hc0|]. split; [exact Hc1|].
    split; [|exists a, rq; split; [exact Hl0|exact Hrq]].
    intros Hnil. clear Hl0 Hlast Hc0 Hc1 H1 Ht Hrun.
    rewrite Hnil, app_nil_r in Hsplit. rewrite <- Hsplit in H0.
    do 4 apply Forall_cons in H0 as [_ H0].
    apply Forall_cons in H0 as [[Hfd _] _].
    change (4 = 3) in Hfd. discriminate Hfd.
Defined.

Lemma capture_tick_completes_witness :
  ∃ w' t,
    capture_tick dev_ex dev_depth_ex (world_of script_tick blank_frames) = (Ret tt, w') ∧
    script w' = [] ∧ trace w' = t ∧
    callbacks t = [(4096, 4); (2097152, 230400)].
Proof.
  destruct (capture_tick_completes dev_ex dev_depth_ex (world_of script_tick blank_frames)
              (reply_ok 1 None) (reply_dqbuf 0 4 [(4096, [89; 85; 89; 86])]) (reply_ok 0 None)
              (reply_ok 1 None)
              (reply_dqbuf 1 230400 [(2097152, replicate (Z.to_nat 230400) 1)])
              (reply_ok 0 None) [])
    as (w' & t & Hrun & Hs & Ht & _ & Hc).
  - reflexivity.
  - discriminate.
  - discriminate.
  - discriminate.
  - discriminate.
  - discriminate.
  - discriminate.
  - discriminate.
  - discriminate.
  - reflexivity.
  - reflexivity.
  - split; discriminate.
  - change (4 ≤ Z.of_nat (length (replicate (Z.to_nat (640 * 480 * 2)) 0))).
    rewrite length_replicate. lia.
  - apply length_replicate.
  - apply length_replicate.
  - rewrite (filled_last _ [reply_ok 1 None; reply_dqbuf 0 4 [(4096, [89; 85; 89; 86])];
                             reply_ok 0 None; reply_ok 1 None]
               (reply_dqbuf 1 230400 [(2097152, replicate (Z.to_nat 230400) 1)])
               2097152 (replicate (Z.to_nat 230400) 1) eq_refl).
    rewrite length_replicate. lia.
  - exists w', t. split; [exact Hrun|]. split; [exact Hs|]. split; [exact Ht|exact Hc].
Defined.

Lemma capture_tick_frames_witness :
  ∃ w' n0 in0 n1,
    capture_tick dev_ex dev_depth_ex (world_of script_tick blank_frames) = (Ret tt, w') ∧
    take (Z.to_nat n0) (app_yuy2 (app w')) = take (Z.to_nat n0) in0 ∧
    app_stdout (app w') = [(n0, 640 * 480 * 2); (n1, 320 * 240 * 3)].
Proof.
  destruct (capture_tick_run dev_ex dev_depth_ex (world_of script_tick blank_frames)
              (reply_ok 1 None) (reply_dqbuf 0 4 [(4096, [89; 85; 89; 86])]) (reply_ok 0 None)
              (reply_ok 1 None)
              (reply_dqbuf 1 230400 [(2097152, replicate (Z.to_nat 230400) 1)])
              (reply_ok 0 None) [])
    as (w' & Hrun & Hs & Ht).
  - reflexivity.
  - discriminate.
  - discriminate.
  - discriminate.
  - discriminate.
  - discriminate.
  - discriminate.
  - discriminate.
  - discriminate.
  - reflexivity.
  - reflexivity.
  - split; discriminate.
  - change (4 ≤ Z.of_nat (length (replicate (Z.to_nat (640 * 480 * 2)) 0))).
    rewrite length_replicate. lia.
  - apply length_replicate.
  - apply length_replicate.
  - rewrite (filled_last _ [reply_ok 1 None; reply_dqbuf 0 4 [(4096, [89; 85; 89; 86])];
                             reply_ok 0 None; reply_ok 1 None]
               (reply_dqbuf 1 230400 [(2097152, replicate (Z.to_nat 230400) 1)])
               2097152 (replicate (Z.to_nat 230400) 1) eq_refl).
    rewrite length_replicate. lia.
  - destruct (capture_tick_frames dev_ex dev_depth_ex (world_of script_tick blank_frames) w' _
                Hrun Ht (length_replicate _ _) (length_replicate _ _))
      as (b0 & n0 & in0 & b1 & n1 & in1 & ta & tb & tc & Hsplit & Ha & Hb & Hc & _ & _ &
          _ & Htake & _ & _ & _ & Hout).
    exists w', n0, in0, n1. split; [exact Hrun|]. split; [exact Htake|exact Hout].
Defined.

(** ** The constructor, when it returns *)

Lemma xioctl_returns fh rq a w r a' w' :
  xioctl fh rq a w = (Ret (r, a'), w') →
  ∃ l rp, trace w' = trace w ++ ioctl_events fh rq a (l ++ [rp]) ∧
          Forall (λ x, eintr x = true) l ∧ eintr rp = false ∧
          r = ret rp ∧ a' = arg_after a (l ++ [rp]).
Proof.
  intros Hrun. destruct (xioctl_facts fh rq a w) as (l & _ & Ht & _ & Hres).
  rewrite Hrun in Ht, Hres. simpl in Ht, Hres.
  destruct Hres as (l0 & rp & -> & Hl0 & E & -> & -> & _). by exists l0, rp.
Qed.

Lemma map_loop_post n : ∀ i h bufs w bufs' w',
  map_loop n i h bufs w = (Ret bufs', w') →
  ∃ t, trace w' = trace w ++ t ∧ map_post h n i bufs bufs' t.
Proof.
  induction n as [|n IH]; intros i h bufs w bufs' w' Hrun; simpl in Hrun.
  - injection Hrun as <- <-. exists []. by rewrite app_nil_r.
  - unfold bind at 1 in Hrun.
    destruct (xioctl h VIDIOC_QUERYBUF _ w) as [[[r a]| | |] w1] eqn:Hq; try done.
    apply xioctl_returns in Hq as (l & rq & Ht1 & Hl & E & -> & ->).
    destruct (ret rq <? 0) eqn:Hr; [done|]. apply Z.ltb_ge in Hr.
    unfold bind at 1, mmap, bind at 1, syscall in Hrun.
    destruct (script w1) as [|rm s]; [done|]. simpl in Hrun.
    destruct (ret rm =? MAP_FAILED) eqn:Hm; [done|]. apply Z.eqb_neq in Hm.
    apply IH in Hrun as (t' & Ht' & Hpost). simpl in Ht'.
    eexists. split; [|exists l, rq, rm, t'; by repeat split].
    rewrite Ht', Ht1, <- !app_assoc. done.
Qed.

Lemma queue_loop_post n : ∀ i h w w',
  queue_loop n i h w = (Ret tt, w') →
  ∃ t, trace w' = trace w ++ t ∧ queue_post h n i t.
Proof.
  induction n as [|n IH]; intros i h w w' Hrun; simpl in Hrun.
  - injection Hrun as <-. exists []. by rewrite app_nil_r.
  - unfold bind at 1 in Hrun.
    destruct (xioctl h VIDIOC_QBUF _ w) as [[[r a]| | |] w1] eqn:Hq; try done.
    apply xioctl_returns in Hq as (l & rq & Ht1 & Hl & E & -> & ->).
    destruct (ret rq <? 0) eqn:Hr; [done|]. apply Z.ltb_ge in Hr.
    apply IH in Hrun as (t' & Ht' & Hpost).
    eexists. split; [|exists l, rq, t'; by repeat split].
    by rewrite Ht', Ht1, <- !app_assoc.
Qed.

Lemma open_device_returns name w h w' :
  open_device name w = (Ret h, w') →
  ∃ rs ro, trace w' = trace w ++ [EvStat name rs; EvOpen name (Z.lor O_RDWR O_NONBLOCK) ro] ∧
           h = ret ro ∧ 0 ≤ ret ro ∧
           0 ≤ ret rs ∧ S_ISCHR (get_mode (default (AStat 0) (out rs))) = true.
Proof.
  unfold open_device, stat, open, bind, syscall, ret_. intros Hrun.
  destruct (script w) as [|rs s]; [done|]. simpl in Hrun.
  destruct (ret rs <? 0) eqn:Hs; [done|]. apply Z.ltb_ge in Hs.
  destruct (S_ISCHR _) eqn:Hchr; [|done]. simpl in Hrun.
  destruct s as [|ro s]; [done|]. simpl in Hrun.
  destruct (ret ro <? 0) eqn:Ho; [done|]. apply Z.ltb_ge in Ho.
  injection Hrun as <- <-. exists rs, ro. simpl. by rewrite <- app_assoc.
Qed.

Ltac control_step :=
  lazymatch goal with
  | |- emits _ (bind _ _) => apply emits_bind; [|intros ?]
  | |- emits _ (ret_ _) => by apply emits_nothing
  | |- emits _ (throw _) => by apply emits_nothing
  | |- emits _ (throw_error _) => by apply emits_nothing
  | |- emits _ get_errno => by apply emits_nothing
  | |- emits _ (xioctl _ _ _) => apply emits_xioctl; intros ? ?; by repeat split
  | |- emits _ (syscall _) => apply emits_syscall; intros ?; by repeat split
  | |- emits _ (if ?c then _ else _) => destruct c
  | |- emits _ (match ?x with _ => _ end) => destruct x
  end.

Lemma negotiation_controls name h force :
  emits (λ e, control_event e ∧ on_handle h e)
    (query_caps name h ;;; reset_crop h ;;;
     let* fmt := negotiate_format h force in
     let* count := request_buffers name h in ret_ (fmt, count)).
Proof.
  unfold query_caps, reset_crop, negotiate_format, request_buffers.
  repeat control_step.
Qed.

Lemma request_buffers_count name h w count w' :
  request_buffers name h w = (Ret count, w') → 2 ≤ count.
Proof.
  rewrite request_buffers_eq.
  destruct (xioctl h VIDIOC_REQBUFS req_arg w) as [[[r a]| | |] w1]; try done.
  destruct (r <? 0); [by destruct (errno w1 =? EINVAL)|].
  destruct (req_count (get_req a) <? 2) eqn:Hc; [done|].
  apply Z.ltb_ge in Hc. by intros [= <- _].
Qed.

Lemma start_streaming_post name h count w dev w' :
  start_streaming name h count w = (Ret dev, w') →
  ∃ tm tq l rp,
    trace w' = trace w ++ tm ++ tq ++ ioctl_events h VIDIOC_STREAMON streamon_arg (l ++ [rp]) ∧
    dev_name dev = name ∧ fd dev = h ∧
    map_post h (Z.to_nat count) 0
      (replicate (Z.to_nat count) {| b_start := 0; b_length := 0 |}) (buffers dev) tm ∧
    queue_post h (length (buffers dev)) 0 tq ∧
    Forall (λ x, eintr x = true) l ∧ 0 ≤ ret rp.
Proof.
  unfold start_streaming, map_buffers, stream_on. intros Hrun.
  unfold bind at 1 in Hrun.
  destruct (map_loop _ _ _ _ w) as [[bufs| | |] w1] eqn:Hm; try done.
  apply map_loop_post in Hm as (tm & Htm & Hmap).
  unfold bind at 1 in Hrun.
  destruct (queue_loop _ _ _ w1) as [[[]| | |] w2] eqn:Hq; try done.
  apply queue_loop_post in Hq as (tq & Htq & Hqueue).
  unfold bind at 1 in Hrun. unfold bind at 1 in Hrun.
  destruct (xioctl h VIDIOC_STREAMON _ w2) as [[[r a]| | |] w3] eqn:Hs; try done.
  apply xioctl_returns in Hs as (l & rp & Hts & Hl & E & -> & ->).
  destruct (ret rp <? 0) eqn:Hr; [done|]. apply Z.ltb_ge in Hr.
  injection Hrun as <- <-.
  exists tm, tq, l, rp. simpl. rewrite Hts, Htq, Htm, <- !app_assoc. done.
Qed.

(** The run of a constructor that returns. *)
Lemma subdevice_ctor_run name force w dev w' :
  subdevice_ctor name force w = (Ret dev, w') →
  ∃ t, trace w' = trace w ++ t ∧ start_trace name dev t.
Proof.
  unfold subdevice_ctor. intros Hrun.
  unfold bind at 1 in Hrun.
  destruct (open_device name w) as [[h| | |] w1] eqn:Ho; try done.
  apply open_device_returns in Ho as (rs & ro & Ht1 & -> & Hro & Hrs & Hchr).
  destruct (negotiation_controls name (ret ro) force w1) as (tc & Htc & Hctl).
  unfold bind at 1 in Hrun. unfold bind at 1 in Htc.
  destruct (query_caps name (ret ro) w1) as [[[]| | |] w2]; try done.
  unfold bind at 1 in Hrun. unfold bind at 1 in Htc.
  destruct (reset_crop (ret ro) w2) as [[[]| | |] w3]; try done.
  unfold bind at 1 in Hrun. unfold bind at 1 in Htc.
  destruct (negotiate_format (ret ro) force w3) as [[fmt| | |] w4]; try done.
  unfold bind at 1 in Hrun. unfold bind at 1 in Htc.
  destruct (request_buffers name (ret ro) w4) as [[count| | |] w5] eqn:Hreq; try done.
  apply request_buffers_count in Hreq. simpl in Htc.
  apply start_streaming_post in Hrun as (tm & tq & l & rp & Ht & Hn & Hfd & Hmap & Hq & Hl & Hrp).
  eexists. split.
  - rewrite Ht, Htc, Ht1, <- !app_assoc. simpl. done.
  - exists rs, ro, tc, count, tm, tq, l, rp. rewrite Hfd.
    repeat split; try done.
    + eapply Forall_impl; [exact Hctl|]. by intros e [? ?].
    + eapply Forall_impl; [exact Hctl|]. by intros e [? ?].
Qed.

Lemma opened_app t1 t2 : opened (t1 ++ t2) = opened t1 ++ opened t2.
Proof.
  induction t1 as [|e t1 IH]; simpl; [done|].
  destruct e; simpl; rewrite ?IH; try done. by destruct (ret rp <? 0).
Qed.

Lemma mappings_app t1 t2 : mappings (t1 ++ t2) = mappings t1 ++ mappings t2.
Proof.
  induction t1 as [|e t1 IH]; simpl; [done|].
  destruct e; simpl; rewrite ?IH; try done. by destruct (ret rp =? MAP_FAILED).
Qed.

Lemma on_handle_ioctl_events h rq a l : Forall (on_handle h) (ioctl_events h rq a l).
Proof. revert a. induction l as [|rp l IH]; intros a; simpl; by constructor. Qed.

Lemma mappings_ioctl_events h rq a l : mappings (ioctl_events h rq a l) = [].
Proof. revert a. induction l as [|rp l IH]; intros a; simpl; [done|]. apply IH. Qed.

(** Calls on a descriptor open nothing, write nothing to stderr and invoke
    no callback. *)
Lemma on_handle_readers h t :
  Forall (on_handle h) t → opened t = [] ∧ warnings t = [] ∧ callbacks t = [].
Proof. induction 1 as [|e t He _ IH]; [done|]. by destruct e. Qed.

Lemma control_mappings t : Forall control_event t → mappings t = [].
Proof. induction 1 as [|e t He _ IH]; [done|]. by destruct e. Qed.

Lemma control_owner k t : Forall control_event t → ∀ o, foldl (owner_step k) o t = o.
Proof.
  induction 1 as [|e t He _ IH]; intros o; [done|]. simpl. rewrite IH.
  destruct e; try done. simpl in He. by destruct rq, He.
Qed.

Lemma control_ioctl_events h rq a l :
  rq ≠ VIDIOC_QBUF → rq ≠ VIDIOC_DQBUF → Forall control_event (ioctl_events h rq a l).
Proof. intros ? ?. revert a. induction l as [|rp l IH]; intros a; simpl; by constructor. Qed.

(** Interrupted calls hand nothing over. *)
Lemma owner_interrupted k h rq l : ∀ a o,
  Forall (λ x, eintr x = true) l → foldl (owner_step k) o (ioctl_events h rq a l) = o.
Proof.
  induction l as [|rp l IH]; intros a o Hl; [done|].
  apply Forall_cons in Hl as [E Hl]. simpl. rewrite IH by done.
  unfold eintr in E. apply andb_true_iff in E as [Hneg _]. apply Z.ltb_lt in Hneg.
  assert (Hle : (0 <=? ret rp) = false) by (apply Z.leb_gt; lia).
  destruct rq; simpl; by rewrite ?Hle.
Qed.

Lemma map_post_facts h n : ∀ i bufs bufs' t,
  (i + n ≤ length bufs)%nat → map_post h n i bufs bufs' t →
  length bufs' = length bufs ∧
  (∀ j, (j < i)%nat → bufs' !! j = bufs !! j) ∧
  mappings t = (λ b, (b_start b, b_length b)) <$> take n (drop i bufs') ∧
  Forall (λ b, b_start b ≠ MAP_FAILED) (take n (drop i bufs')) ∧
  Forall (on_handle h) t ∧
  (∀ k o, foldl (owner_step k) o t = o).
Proof.
  induction n as [|n IH]; intros i bufs bufs' t Hlen Hpost; simpl in Hpost.
  - destruct Hpost as [-> ->]. by rewrite take_0.
  - destruct Hpost as (l & rq & rm & t' & -> & Hl & Hrq & Hrm & Hpost).
    set (b := {| b_start := ret rm;
                 b_length := buf_length (get_buf (arg_after (querybuf_arg i) (l ++ [rq]))) |})
      in *.
    apply IH in Hpost as (Hlen' & Hkeep & Hmaps & Hok & Hon & Hown);
      [|rewrite length_insert; lia].
    rewrite length_insert in Hlen'.
    assert (Hi : bufs' !! i = Some b).
    { rewrite Hkeep by lia. apply list_lookup_insert_eq. lia. }
    rewrite (drop_S _ _ _ Hi). split; [done|]. split.
    { intros j Hj. rewrite Hkeep by lia. apply list_lookup_insert_ne. lia. }
    split.
    { rewrite mappings_app, mappings_ioctl_events. simpl.
      apply Z.eqb_neq in Hrm. by rewrite Hrm, Hmaps. }
    split; [by constructor|]. split.
    { apply Forall_app. split; [apply on_handle_ioctl_events|by constructor]. }
    intros k o. rewrite foldl_app. simpl. rewrite Hown.
    apply control_owner, control_ioctl_events; discriminate.
Qed.

Lemma queue_post_facts h n : ∀ i t,
  queue_post h n i t →
  mappings t = [] ∧ Forall (on_handle h) t ∧
  (Forall quiet (replies t) → ∀ k o,
     foldl (owner_step k) o t =
       if bool_decide (Z.of_nat i ≤ k < Z.of_nat (i + n)) then QueuedToDevice else o).
Proof.
  induction n as [|n IH]; intros i t Hpost; simpl in Hpost.
  - subst t. repeat split; try done. intros _ k o. simpl.
    rewrite bool_decide_eq_false_2; [done|lia].
  - destruct Hpost as (l & rp & t' & -> & Hl & Hrp & Hpost).
    apply IH in Hpost as (Hmaps & Hon & Hown). split; [|split].
    + by rewrite mappings_app, mappings_ioctl_events.
    + apply Forall_app. split; [apply on_handle_ioctl_events|done].
    + rewrite replies_app, replies_ioctl_events, !Forall_app.
      intros [[Hql _] Hqt] k o.
      rewrite foldl_app, Hown, ioctl_events_snoc, foldl_app, owner_interrupted by done.
      rewrite arg_after_quiet by done. simpl.
      apply Z.leb_le in Hrp. rewrite Hrp. simpl.
      destruct (Z.eqb_spec (Z.of_nat i) k) as [<-|Hne];
        repeat case_bool_decide; try done; lia.
Qed.

(** What the trace of a successful start says. *)
Lemma start_trace_facts name dev t :
  start_trace name dev t →
  dev_name dev = name ∧ 0 ≤ fd dev ∧ opened t = [fd dev] ∧
  (2 ≤ length (buffers dev))%nat ∧
  mappings t = (λ b, (b_start b, b_length b)) <$> buffers dev ∧
  Forall (λ b, b_start b ≠ MAP_FAILED) (buffers dev) ∧
  warnings t = [] ∧ callbacks t = [] ∧
  (∃ t0 a rp, t = t0 ++ [EvIoctl (fd dev) VIDIOC_STREAMON a rp] ∧ 0 ≤ ret rp) ∧
  (Forall quiet (replies t) →
   ∀ i, (i < length (buffers dev))%nat → owner t (Z.of_nat i) = QueuedToDevice).
Proof.
  intros (rs & ro & tc & count & tm & tq & l & rp & -> & Hn & Hfd & Hro & _ & _ &
          Hctl & Hon & Hcount & Hmap & Hq & Hl & Hrp).
  apply map_post_facts in Hmap as (Hlen & _ & Hmaps & Hok & Honm & Hownm);
    [|by rewrite length_replicate].
  rewrite length_replicate in Hlen. rewrite drop_0, <- Hlen, firstn_all in Hmaps, Hok.
  apply queue_post_facts in Hq as (Hmq & Honq & Hownq).
  pose proof (on_handle_ioctl_events (fd dev) VIDIOC_STREAMON streamon_arg (l ++ [rp])) as Hons.
  assert (Hrest : Forall (on_handle (fd dev))
            (tc ++ tm ++ tq ++ ioctl_events (fd dev) VIDIOC_STREAMON streamon_arg (l ++ [rp])))
    by (by rewrite !Forall_app).
  apply on_handle_readers in Hrest as (Hopen & Hwarn & Hcb).
  split; [done|]. split; [lia|]. split.
  { simpl. apply Z.ltb_ge in Hro. by rewrite Hro, Hopen, Hfd. }
  split; [lia|]. split.
  { simpl. by rewrite !mappings_app, (control_mappings tc), Hmaps, Hmq,
      mappings_ioctl_events, app_nil_r. }
  split; [done|]. split; [done|]. split; [done|]. split.
  { exists (EvStat name rs :: EvOpen name (Z.lor O_RDWR O_NONBLOCK) ro ::
            tc ++ tm ++ tq ++ ioctl_events (fd dev) VIDIOC_STREAMON streamon_arg l),
      (arg_after streamon_arg l), rp.
    split; [|done]. rewrite ioctl_events_snoc. simpl. by rewrite <- !app_assoc. }
  intros Hquiet i Hi. unfold owner. simpl in Hquiet |- *.
  rewrite !replies_app, !Forall_cons, !Forall_app in Hquiet.
  destruct Hquiet as (_ & _ & _ & _ & Hqq & _).
  rewrite !foldl_app, (control_owner _ tc), Hownm, Hownq by done.
  rewrite control_owner by (apply control_ioctl_events; discriminate).
  rewrite bool_decide_eq_true_2; [done|lia].
Qed.

(** X10. A constructor that returns hands over a session that is ready to
    stream: it carries the name it was given and the descriptor that [open]
    returned, which is not negative and the only one opened; its pool has at
    least two buffers, each of them a region that [mmap] returned (none is
    MAP_FAILED), in the order of the mappings and with the length mapped;
    nothing went to stderr and no callback was made; the last call is a
    successful VIDIOC_STREAMON; and, interrupted calls having left their
    argument alone, every buffer of the pool is queued to the device. *)
Theorem subdevice_ctor_starts name force_format w dev w' t :
  subdevice_ctor name force_format w = (Ret dev, w') →
  trace w' = trace w ++ t →
  dev_name dev = name ∧ 0 ≤ fd dev ∧ opened t = [fd dev] ∧
  (2 ≤ length (buffers dev))%nat ∧
  mappings t = (λ b, (b_start b, b_length b)) <$> buffers dev ∧
  Forall (λ b, b_start b ≠ MAP_FAILED) (buffers dev) ∧
  warnings t = [] ∧ callbacks t = [] ∧
  (∃ t0 a rp, t = t0 ++ [EvIoctl (fd dev) VIDIOC_STREAMON a rp] ∧ 0 ≤ ret rp) ∧
  (Forall quiet (replies t) →
   ∀ i, (i < length (buffers dev))%nat → owner t (Z.of_nat i) = QueuedToDevice).
Proof.
  intros Hrun Ht. apply subdevice_ctor_run in Hrun as (t0 & Ht0 & Hshape).
  rewrite Ht in Ht0. apply app_inv_head in Ht0 as <-.
  by apply start_trace_facts.
Qed.

Lemma subdevice_ctor_starts_witness :
  let r := subdevice_ctor "/dev/video1" false (world_of script_two no_frames) in
  r.1 = Ret dev_video1_ex ∧
  opened (trace r.2) = [3] ∧
  mappings (trace r.2) = [(4096, 16); (8192, 16)] ∧
  (Forall quiet (replies (trace r.2)) →
   ∀ i, (i < 2)%nat → owner (trace r.2) (Z.of_nat i) = QueuedToDevice).
Proof.
  intros r.
  destruct (subdevice_ctor_starts "/dev/video1" false (world_of script_two no_frames)
              dev_video1_ex r.2 (trace r.2))
    as (_ & _ & Ho & _ & Hm & _ & _ & _ & _ & Hq).
  - vm_compute. reflexivity.
  - reflexivity.
  - split; [by vm_compute|]. split; [exact Ho|]. split; [exact Hm|exact Hq].
Defined.

(** ** A session from start to end *)

Lemma subdevice_dtor_gives_back dev w w' t :
  subdevice_dtor dev w = (Ret tt, w') →
  trace w' = trace w ++ t →
  unmaps t = (λ b, (b_start b, b_length b)) <$> buffers dev ∧ closes t = [fd dev].
Proof.
  intros Hrun Ht.
  destruct (subdevice_dtor_run _ _ _ _ Hrun)
    as [(_ & l & rp & rps & rc & _ & _ & _ & Hlen & Ht' & _)|[[=] _]].
  rewrite Ht in Ht'. apply app_inv_head in Ht' as ->.
  destruct (readers_ioctl_events (fd dev) VIDIOC_STREAMOFF streamoff_arg (l ++ [rp]))
    as (Hu1 & Hc1 & _).
  destruct (readers_warned "VIDIOC_STREAMOFF" rp) as (Hu2 & Hc2 & _).
  destruct (readers_unmap_events (buffers dev) rps Hlen) as (Hu3 & Hc3 & _).
  destruct (readers_warned "close" rc) as (Hu4 & Hc4 & _).
  rewrite !unmaps_app, !closes_app, Hu1, Hu2, Hu3, Hc1, Hc2, Hc3. simpl.
  by rewrite Hu4, Hc4, app_nil_r.
Qed.

(** X11. A session gives back what it took.  When the constructor has
    returned a session and, at any later time, the destructor of that
    session returns, the regions the destructor unmaps are the regions the
    constructor mapped, with the same addresses and lengths and in the same
    order, and the descriptor it closes is the one the constructor opened. *)
Theorem session_gives_back name force_format w dev w1 tc w2 w3 td :
  subdevice_ctor name force_format w = (Ret dev, w1) →
  trace w1 = trace w ++ tc →
  subdevice_dtor dev w2 = (Ret tt, w3) →
  trace w3 = trace w2 ++ td →
  unmaps td = mappings tc ∧ closes td = opened tc.
Proof.
  intros Hc Htc Hd Htd.
  apply subdevice_ctor_run in Hc as (t0 & Ht0 & Hshape).
  rewrite Htc in Ht0. apply app_inv_head in Ht0 as <-.
  apply start_trace_facts in Hshape as (_ & _ & -> & _ & -> & _).
  by apply (subdevice_dtor_gives_back dev w2 w3).
Qed.

Lemma session_gives_back_witness :
  let r := subdevice_ctor "/dev/video1" false (world_of script_two no_frames) in
  let r' := subdevice_dtor dev_video1_ex
              (world_of [reply_ok 0 None; reply_ok 0 None; reply_ok 0 None; reply_ok 0 None]
                        no_frames) in
  unmaps (trace r'.2) = mappings (trace r.2) ∧ closes (trace r'.2) = opened (trace r.2).
Proof.
  intros r r'.
  apply (session_gives_back "/dev/video1" false (world_of script_two no_frames)
           dev_video1_ex r.2 (trace r.2)
           (world_of [reply_ok 0 None; reply_ok 0 None; reply_ok 0 None; reply_ok 0 None]
                     no_frames) r'.2 (trace r'.2)).
  - vm_compute. reflexivity.
  - reflexivity.
  - vm_compute. reflexivity.
  - reflexivity.
Defined.

(** ** What the constructor touches *)

Lemma map_loop_on_handle n : ∀ i h bufs, emits (on_handle h) (map_loop n i h bufs).
Proof.
  induction n as [|n IH]; intros i h bufs; simpl; [by apply emits_nothing|].
  unfold mmap. repeat control_step. apply IH.
Qed.

Lemma queue_loop_on_handle n : ∀ i h, emits (on_handle h) (queue_loop n i h).
Proof.
  induction n as [|n IH]; intros i h; simpl; [by apply emits_nothing|].
  repeat control_step. apply IH.
Qed.

Lemma after_open_on_handle name h force :
  emits (on_handle h)
    (query_caps name h ;;; reset_crop h ;;;
     let* fmt := negotiate_format h force in
     let fmt := driver_paranoia fmt in
     let* count := request_buffers name h in
     start_streaming name h count).
Proof.
  unfold query_caps, reset_crop, negotiate_format, request_buffers, start_streaming,
    map_buffers, stream_on.
  repeat first [apply map_loop_on_handle | apply queue_loop_on_handle | control_step].
Qed.

(** X12. The constructor reaches the device only through the descriptor
    it has opened.  Its first call is [stat] on the name it was given; when
    that fails it writes "Cannot identify" to stderr and throws "bad", and
    when the name is not a character device it throws "<name> is no device",
    in both cases without any further call.  Otherwise its second call is
    [open] of that name, read-write and non-blocking; when that fails it
    writes "Cannot open" and throws "bad" without any further call.
    Otherwise everything that follows, however the constructor ends, is an
    [ioctl] or an [mmap] on the descriptor that [open] returned. *)
Theorem subdevice_ctor_guarded name force_format w o w' t :
  subdevice_ctor name force_format w = (o, w') →
  trace w' = trace w ++ t →
  match t with
  | [] => o = Stuck
  | e :: t1 =>
      ∃ rs, e = EvStat name rs ∧
        if ret rs <? 0 then t1 = [EvStderr "Cannot identify" (err rs)] ∧ o = Throw "bad"
        else if negb (S_ISCHR (get_mode (default (AStat 0) (out rs))))
        then t1 = [] ∧ o = Throw (name +:+ " is no device")
        else match t1 with
             | [] => o = Stuck
             | e' :: t2 =>
                 ∃ ro, e' = EvOpen name (Z.lor O_RDWR O_NONBLOCK) ro ∧
                   if ret ro <? 0
                   then t2 = [EvStderr "Cannot open" (err ro)] ∧ o = Throw "bad"
                   else Forall (on_handle (ret ro)) t2
             end
  end.
Proof.
  unfold subdevice_ctor. unfold bind at 1.
  unfold open_device, stat, open, bind at 1 2 3, syscall, ret_.
  destruct (script w) as [|rs s] eqn:Hs; simpl.
  { intros [= <- <-] Ht. rewrite <- (app_nil_r (trace w)) in Ht at 1.
    by apply app_inv_head in Ht as <-. }
  destruct (ret rs <? 0) eqn:Hrs; simpl.
  { intros [= <- <-]. simpl. rewrite <- app_assoc. intros Ht.
    apply app_inv_head in Ht as <-. exists rs. by rewrite Hrs. }
  destruct (S_ISCHR _) eqn:Hchr; simpl.
  2:{ intros [= <- <-]. simpl. intros Ht.
      apply app_inv_head in Ht as <-. exists rs. by rewrite Hrs, Hchr. }
  unfold bind at 1. simpl.
  destruct s as [|ro s']; simpl.
  { intros [= <- <-]. simpl. intros Ht.
    apply app_inv_head in Ht as <-. exists rs. by rewrite Hrs, Hchr. }
  destruct (ret ro <? 0) eqn:Hro; simpl.
  { intros [= <- <-]. simpl. rewrite <- !app_assoc. intros Ht.
    apply app_inv_head in Ht as <-. exists rs. rewrite Hrs, Hchr. simpl.
    split; [done|]. exists ro. by rewrite Hro. }
  intros Hrun Ht.
  match type of Hrun with _ ?w1 = _ =>
    destruct (after_open_on_handle name (ret ro) force_format w1) as (t2 & Ht2 & Hon)
  end.
  cbv zeta in Ht2. rewrite Hrun in Ht2. simpl in Ht2. rewrite <- !app_assoc in Ht2.
  rewrite Ht in Ht2. apply app_inv_head in Ht2 as ->.
  exists rs. rewrite Hrs, Hchr. simpl. split; [done|]. exists ro. by rewrite Hro.
Qed.

Lemma subdevice_ctor_guarded_witness :
  let r := subdevice_ctor "/dev/video1" false (world_of script_mmap_fails no_frames) in
  r.1 = Throw "mmap" ∧
  ∃ t2, trace r.2 = EvStat "/dev/video1" (reply_ok 0 (Some (AStat S_IFCHR))) ::
                    EvOpen "/dev/video1" (Z.lor O_RDWR O_NONBLOCK) (reply_ok 3 None) :: t2 ∧
        Forall (on_handle 3) t2.
Proof.
  intros r. split; [by vm_compute|].
  pose proof (subdevice_ctor_guarded "/dev/video1" false
                (world_of script_mmap_fails no_frames) r.1 r.2 (trace r.2)
                (surjective_pairing r) eq_refl) as H.
  vm_compute in H. destruct H as (rs & [= <-] & ro & [= <-] & H).
  eexists. split; [vm_compute; reflexivity|]. exact H.
Defined.

(** ** The paranoia step, with or without wrap-around *)

(** X13. Whatever the driver reported, wrap-around or not, the paranoia
    step never lowers the stride or the image size and touches no other
    field; afterwards the stride is at least the 32-bit value of 2 * width
    and the image size at least the 32-bit value of stride * height; and
    applying the step a second time changes nothing. *)
Theorem driver_paranoia_raises_only fmt :
  let pix := fmt_pix fmt in
  let pix' := fmt_pix (driver_paranoia fmt) in
  fmt_type (driver_paranoia fmt) = fmt_type fmt ∧
  pix_width pix' = pix_width pix ∧ pix_height pix' = pix_height pix ∧
  pix_pixelformat pix' = pix_pixelformat pix ∧ pix_field pix' = pix_field pix ∧
  pix_bytesperline pix ≤ pix_bytesperline pix' ∧
  pix_sizeimage pix ≤ pix_sizeimage pix' ∧
  u32 (pix_width pix * 2) ≤ pix_bytesperline pix' ∧
  u32 (pix_bytesperline pix' * pix_height pix) ≤ pix_sizeimage pix' ∧
  driver_paranoia (driver_paranoia fmt) = driver_paranoia fmt.
Proof.
  intros pix pix'. subst pix'. unfold driver_paranoia. fold pix. cbn [fmt_pix fmt_type
    pix_width pix_height pix_pixelformat pix_field pix_bytesperline pix_sizeimage].
  set (m1 := u32 (pix_width pix * 2)).
  set (bpl := if pix_bytesperline pix <? m1 then m1 else pix_bytesperline pix).
  set (m2 := u32 (bpl * pix_height pix)).
  set (si := if pix_sizeimage pix <? m2 then m2 else pix_sizeimage pix).
  assert (Hb : pix_bytesperline pix ≤ bpl ∧ m1 ≤ bpl).
  { subst bpl. destruct (Z.ltb_spec (pix_bytesperline pix) m1); lia. }
  assert (Hs : pix_sizeimage pix ≤ si ∧ m2 ≤ si).
  { subst si. destruct (Z.ltb_spec (pix_sizeimage pix) m2); lia. }
  repeat split; try done; try lia.
  assert (Hb' : (bpl <? m1) = false) by (apply Z.ltb_ge; lia).
  rewrite Hb'. fold m2.
  assert (Hs' : (si <? m2) = false) by (apply Z.ltb_ge; lia).
  by rewrite Hs'.
Qed.

(** ** A frame that does not fit *)

(** A callback that leaves an object: the run of [poll] up to there. *)
Lemma poll_callback_fault dev f w r d s :
  script w = r :: d :: s →
  ret r ≠ -1 → ret r ≠ 0 → 0 ≤ ret d →
  let w1 := answered w (ev_select dev) r (d :: s) in
  let w2 := answered w1 (EvIoctl (fd dev) VIDIOC_DQBUF dq_arg) d s in
  let buf := get_buf (default dq_arg (out d)) in
  let data := b_start (buffer_at dev (buf_index buf)) in
  index_ok dev buf = true →
  f data (buf_bytesused buf) (shm w2) (app w) = None →
  poll dev f w = (Crash, delivered_to w2 data (buf_bytesused buf) (app w)).
Proof.
  intros Hs R1 R0 Hd w1 w2 buf data Hix Hf.
  assert (Ed : eintr d = false).
  { unfold eintr. apply Z.ltb_ge in Hd. by rewrite Hd. }
  rewrite poll_unfold, (poll_round_eq _ _ _ r (d :: s)) by done.
  simpl. apply Z.eqb_neq in R1, R0. rewrite R1, R0.
  rewrite exchange_eq.
  rewrite (xioctl_cons _ _ _ _ d s) by done. rewrite Ed.
  apply Z.ltb_ge in Hd. rewrite Hd. fold buf. rewrite Hix.
  subst w1 w2 data. simpl in Hf |- *. by rewrite Hf.
Qed.

(** X14. The color callback trusts the byte count.  When the descriptor
    is ready and the kernel hands over a buffer of the pool whose
    [bytesused] exceeds the size of the color buffer, or the bytes mapped at
    the buffer's address, [poll] makes the [select] and the VIDIOC_DQBUF and
    invokes the callback on that buffer with that count, and the [memcpy] of
    the callback then copies outside an object.  From there on the run has
    no defined behaviour, which is what the outcome [Crash] stands for;
    nothing is said about what the program does after the copy. *)
Theorem color_poll_overrun dev w r d s :
  script w = r :: d :: s →
  ret r ≠ -1 → ret r ≠ 0 → 0 ≤ ret d →
  let buf := get_buf (default dq_arg (out d)) in
  let data := b_start (buffer_at dev (buf_index buf)) in
  let mem := filled (shm w) [r; d] in
  index_ok dev buf = true →
  Z.of_nat (length (app_yuy2 (app w))) < buf_bytesused buf ∨
  Z.of_nat (length (mem data)) < buf_bytesused buf →
  memcpy (app_yuy2 (app w)) (mem data) (buf_bytesused buf) = None ∧
  ∃ w' t,
    poll dev color_callback w = (Crash, w') ∧
    trace w' = trace w ++ ev_select dev r :: EvIoctl (fd dev) VIDIOC_DQBUF dq_arg d ::
                          EvCallback data (buf_bytesused buf) (mem data) :: t.
Proof.
  intros Hs R1 R0 Hd buf data mem Hix Hbig.
  assert (Hcopy : memcpy (app_yuy2 (app w)) (mem data) (buf_bytesused buf) = None).
  { unfold memcpy.
    destruct (Z.leb_spec (buf_bytesused buf) (Z.of_nat (length (mem data))));
      destruct (Z.leb_spec (buf_bytesused buf) (Z.of_nat (length (app_yuy2 (app w)))));
      rewrite ?andb_false_r; try done; lia. }
  split; [done|]. eexists _, []. split.
  - apply (poll_callback_fault dev color_callback w r d s); try done.
    fold buf data. unfold color_callback. cbn [shm answered].
    change (foldl store (foldl store (shm w) (dma r)) (dma d)) with mem.
    by rewrite Hcopy.
  - cbn [trace delivered_to answered shm]. fold buf data.
    change (foldl store (foldl store (shm w) (dma r)) (dma d)) with mem.
    by rewrite <- !app_assoc.
Qed.

Lemma color_poll_overrun_witness :
  let w := world_of [reply_ok 1 None; reply_dqbuf 0 8 [(4096, [1; 2; 3; 4; 5; 6; 7; 8])]]
             {| app_yuy2 := [0; 0; 0; 0]; app_z := []; app_y := []; app_stdout := [] |} in
  memcpy [0; 0; 0; 0] [1; 2; 3; 4; 5; 6; 7; 8] 8 = None ∧
  ∃ w' t, poll dev_ex color_callback w = (Crash, w') ∧
          trace w' = ev_select dev_ex (reply_ok 1 None) ::
                     EvIoctl 3 VIDIOC_DQBUF dq_arg
                       (reply_dqbuf 0 8 [(4096, [1; 2; 3; 4; 5; 6; 7; 8])]) ::
                     EvCallback 4096 8 [1; 2; 3; 4; 5; 6; 7; 8] :: t.
Proof.
  intros w.
  destruct (color_poll_overrun dev_ex w (reply_ok 1 None)
              (reply_dqbuf 0 8 [(4096, [1; 2; 3; 4; 5; 6; 7; 8])]) [])
    as (Hcopy & w' & t & Hrun & Ht).
  - reflexivity.
  - discriminate.
  - discriminate.
  - discriminate.
  - reflexivity.
  - left. simpl. lia.
  - split; [exact Hcopy|]. exists w', t. split; [exact Hrun|exact Ht].
Defined.

(** ** What the constructor's exceptions say *)

Section Wp.
Variable E : string → world → Prop.
Variable base : list event.

Lemma wp_bind {A B} (m : M A) (k : A → M B) Q w :
  wp E m (λ a w', wp E (k a) Q w') w → wp E (bind m k) Q w.
Proof. unfold wp, bind. by destruct (m w) as [[a| | |] w']. Qed.

Lemma wp_then {A B} (m : M A) (k : A → M B) Q w :
  wp E m (λ _ w', extends base w') w →
  (∀ a w', extends base w' → wp E (k a) Q w') →
  wp E (bind m k) Q w.
Proof.
  intros Hm Hk. apply wp_bind. unfold wp in *.
  destruct (m w) as [[a| | |] w']; try done. by apply Hk.
Qed.

Lemma wp_ret {A} (a : A) (Q : A → world → Prop) w : Q a w → wp E (ret_ a) Q w.
Proof. done. Qed.

Lemma wp_throw {A} s (Q : A → world → Prop) w : E s w → wp E (throw s) Q w.
Proof. done. Qed.

Lemma wp_get_errno (Q : Z → world → Prop) w : Q (errno w) w → wp E get_errno Q w.
Proof. done. Qed.

Lemma wp_log e (Q : unit → world → Prop) w :
  (∀ w', trace w' = trace w ++ [e] → Q tt w') → wp E (log e) Q w.
Proof. intros H. unfold wp, log. by apply H. Qed.

Lemma wp_syscall mk (Q : reply → world → Prop) w :
  extends base w →
  (∀ t rp w', trace w' = base ++ t ++ [mk rp] → errno w' = (if ret rp <? 0 then err rp else errno w) →
              Q rp w') →
  wp E (syscall mk) Q w.
Proof.
  intros [t Ht] H. unfold wp, syscall. destruct (script w) as [|rp s]; [done|].
  apply (H t); [|done]. simpl. by rewrite Ht, <- app_assoc.
Qed.

Lemma wp_xioctl fh rq a (Q : Z * arg → world → Prop) w :
  extends base w →
  (∀ t a0 rp w',
     trace w' = base ++ t ++ [EvIoctl fh rq a0 rp] → eintr rp = false →
     (ret rp < 0 → errno w' = err rp) →
     Q (ret rp, default a0 (out rp)) w') →
  wp E (xioctl fh rq a) Q w.
Proof.
  intros [t Ht] H. unfold wp.
  destruct (xioctl_facts fh rq a w) as (l & _ & Ht' & _ & Hres).
  destruct (xioctl fh rq a w) as [[[r a']| | |] w']; simpl in *; try done.
  destruct Hres as (l0 & rp & -> & _ & E0 & -> & -> & Herr).
  rewrite arg_after_snoc.
  apply (H (t ++ ioctl_events fh rq a l0)); [|done..].
  by rewrite Ht', Ht, ioctl_events_snoc, <- !app_assoc.
Qed.
End Wp.

Ltac wp_call Hb :=
  first [ apply wp_bind, (wp_xioctl _ _ _ _ _ _ _ Hb)
        | apply (wp_xioctl _ _ _ _ _ _ _ Hb)
        | apply wp_bind, (wp_syscall _ _ _ _ _ Hb)
        | apply (wp_syscall _ _ _ _ _ Hb) ].

Ltac wp_blame := apply wp_throw; eexists _, _; split; [eassumption|].

Ltac wp_done := apply wp_ret; eexists; eassumption.

Lemma open_device_explained name base w :
  extends base w →
  wp (explained name base) (open_device name) (λ _ w', extends base w') w.
Proof.
  intros Hb. unfold open_device, stat, open.
  apply wp_bind. wp_call Hb. intros t rs w1 Ht1 _. apply wp_ret. cbn beta iota.
  destruct (ret rs <? 0) eqn:Hrs.
  { apply wp_bind, wp_bind, wp_get_errno, wp_log. intros w2 Ht2. apply wp_throw.
    exists (t ++ [EvStat name rs]), (EvStderr "Cannot identify" (errno w1)).
    split; [|constructor]. by rewrite Ht2, Ht1, <- !app_assoc. }
  apply Z.ltb_ge in Hrs.
  destruct (S_ISCHR _) eqn:Hchr; simpl.
  2:{ wp_blame. by constructor. }
  assert (Hb1 : extends base w1) by (eexists; eassumption).
  apply wp_bind. wp_call Hb1. intros t' ro w2 Ht2 _. apply wp_ret.
  destruct (ret ro <? 0) eqn:Hro; [|wp_done].
  apply wp_bind, wp_bind, wp_get_errno, wp_log. intros w3 Ht3. apply wp_throw.
  exists (t' ++ [EvOpen name (Z.lor O_RDWR O_NONBLOCK) ro]), (EvStderr "Cannot open" (errno w2)).
  split; [|constructor]. by rewrite Ht3, Ht2, <- !app_assoc.
Qed.

Ltac wp_failed Hr E0 :=
  apply Z.ltb_lt in Hr; wp_blame; apply fail_call;
    [in_list | done | by apply eintr_false_neg | try (intros [|]; discriminate)].

Lemma query_caps_explained name h base w :
  extends base w →
  wp (explained name base) (query_caps name h) (λ _ w', extends base w') w.
Proof.
  intros Hb. unfold query_caps.
  wp_call Hb. intros t a0 rp w1 Ht1 E0 Herr. cbn beta iota.
  apply wp_bind. destruct (ret rp <? 0) eqn:Hr.
  { apply wp_bind, wp_get_errno. destruct (errno w1 =? EINVAL) eqn:He.
    - apply Z.ltb_lt in Hr. apply Z.eqb_eq in He. rewrite Herr in He by done.
      wp_blame. by constructor.
    - apply Z.eqb_neq in He. wp_failed Hr E0.
      intros _. by rewrite <- Herr. }
  apply Z.ltb_ge in Hr. apply wp_ret. cbv zeta.
  destruct (Z.land _ V4L2_CAP_VIDEO_CAPTURE =? 0) eqn:Hcap.
  { apply Z.eqb_eq in Hcap. wp_blame. by constructor. }
  destruct (Z.land _ V4L2_CAP_STREAMING =? 0) eqn:Hstr; [|wp_done].
  apply Z.eqb_eq in Hstr. wp_blame. by constructor.
Qed.

Lemma reset_crop_explained name h base w :
  extends base w →
  wp (explained name base) (reset_crop h) (λ _ w', extends base w') w.
Proof.
  intros Hb. unfold reset_crop.
  wp_call Hb. intros t a0 rp w1 Ht1 E0 Herr. cbn beta iota.
  destruct (ret rp =? 0); [|wp_done].
  assert (Hb1 : extends base w1) by (eexists; eassumption).
  wp_call Hb1. intros t' a1 rp' w2 Ht2 _ _. wp_done.
Qed.

Lemma negotiate_format_explained name h force base w :
  extends base w →
  wp (explained name base) (negotiate_format h force) (λ _ w', extends base w') w.
Proof.
  intros Hb. unfold negotiate_format, throw_error.
  destruct force; wp_call Hb; intros t a0 rp w1 Ht1 E0 Herr; cbn beta iota;
    (destruct (ret rp <? 0) eqn:Hr; [wp_failed Hr E0|wp_done]).
Qed.

Lemma request_buffers_explained name h base w :
  extends base w →
  wp (explained name base) (request_buffers name h) (λ _ w', extends base w') w.
Proof.
  intros Hb. unfold request_buffers, throw_error.
  wp_call Hb. intros t a0 rp w1 Ht1 E0 Herr. cbn beta iota.
  apply wp_bind. destruct (ret rp <? 0) eqn:Hr.
  { apply wp_bind, wp_get_errno. destruct (errno w1 =? EINVAL) eqn:He.
    - apply Z.ltb_lt in Hr. apply Z.eqb_eq in He. rewrite Herr in He by done.
      wp_blame. by constructor.
    - apply Z.eqb_neq in He. wp_failed Hr E0.
      intros _. by rewrite <- Herr. }
  apply Z.ltb_ge in Hr. apply wp_ret. cbv zeta.
  destruct (req_count _ <? 2) eqn:Hc; [|wp_done].
  apply Z.ltb_lt in Hc. wp_blame. by constructor.
Qed.

Lemma map_loop_explained name base n : ∀ i h bufs w,
  extends base w →
  wp (explained name base) (map_loop n i h bufs) (λ _ w', extends base w') w.
Proof.
  induction n as [|n IH]; intros i h bufs w Hb; simpl; [by apply wp_ret|].
  unfold throw_error, mmap.
  wp_call Hb. intros t a0 rp w1 Ht1 E0 Herr. cbn beta iota.
  destruct (ret rp <? 0) eqn:Hr; [wp_failed Hr E0|]. cbv zeta.
  assert (Hb1 : extends base w1) by (eexists; eassumption).
  apply wp_bind. wp_call Hb1. intros t' rm w2 Ht2 _. apply wp_ret.
  destruct (ret rm =? MAP_FAILED) eqn:Hm.
  { apply Z.eqb_eq in Hm. wp_blame. by constructor. }
  apply IH. eexists; eassumption.
Qed.

Lemma queue_loop_explained name base n : ∀ i h w,
  extends base w →
  wp (explained name base) (queue_loop n i h) (λ _ w', extends base w') w.
Proof.
  induction n as [|n IH]; intros i h w Hb; simpl; [by apply wp_ret|].
  unfold throw_error.
  wp_call Hb. intros t a0 rp w1 Ht1 E0 Herr. cbn beta iota.
  destruct (ret rp <? 0) eqn:Hr; [wp_failed Hr E0|].
  apply IH. eexists; eassumption.
Qed.

Lemma stream_on_explained name h base w :
  extends base w →
  wp (explained name base) (stream_on h) (λ _ w', extends base w') w.
Proof.
  intros Hb. unfold stream_on, throw_error.
  wp_call Hb. intros t a0 rp w1 Ht1 E0 Herr. cbn beta iota.
  destruct (ret rp <? 0) eqn:Hr; [wp_failed Hr E0|wp_done].
Qed.

Lemma subdevice_ctor_explained name force base w :
  extends base w →
  wp (explained name base) (subdevice_ctor name force) (λ _ w', extends base w') w.
Proof.
  intros Hb. unfold subdevice_ctor, start_streaming, map_buffers.
  apply (wp_then _ base); [by apply open_device_explained|]. intros h w1 Hb1.
  apply (wp_then _ base); [by apply query_caps_explained|]. intros _ w2 Hb2.
  apply (wp_then _ base); [by apply (reset_crop_explained name)|]. intros _ w3 Hb3.
  apply (wp_then _ base); [by apply (negotiate_format_explained name)|]. intros fmt w4 Hb4.
  cbv zeta.
  apply (wp_then _ base); [by apply request_buffers_explained|]. intros count w5 Hb5.
  apply (wp_then _ base); [by apply map_loop_explained|]. intros bufs w6 Hb6.
  apply (wp_then _ base); [by apply queue_loop_explained|]. intros _ w7 Hb7.
  apply (wp_then _ base); [by apply stream_on_explained|]. intros _ w8 Hb8.
  by apply wp_ret.
Qed.

(** X15. An exception of the constructor names what went wrong in the
    call just made.  Whenever the constructor throws [s], the last thing it
    did before is the event that [ctor_failure] pairs with [s]: "bad" follows
    the line "Cannot identify" or "Cannot open" on stderr; "<name> is no
    device" a successful [stat] that did not report a character device; a
    message that is the name of a request ("VIDIOC_QBUF" and the like) a
    call of that request that failed with an error other than EINTR (and
    other than EINVAL for VIDIOC_QUERYCAP and VIDIOC_REQBUFS, which have
    messages of their own for it); "mmap" an [mmap] that returned
    MAP_FAILED; the messages about capabilities a successful
    VIDIOC_QUERYCAP whose answer lacks the capability; and "Insufficient
    buffer memory" a successful VIDIOC_REQBUFS that granted fewer than 2
    buffers. *)
Theorem subdevice_ctor_blames name force_format w s w' :
  subdevice_ctor name force_format w = (Throw s, w') →
  ∃ t e, trace w' = trace w ++ t ++ [e] ∧ ctor_failure name s e.
Proof.
  intros Hrun.
  assert (Hb : extends (trace w) w) by (exists []; by rewrite app_nil_r).
  pose proof (subdevice_ctor_explained name force_format (trace w) w Hb) as H.
  unfold wp in H. by rewrite Hrun in H.
Qed.

Lemma subdevice_ctor_blames_witness :
  ∃ t len prot flags h off rp,
    trace (subdevice_ctor "/dev/video1" false (world_of script_mmap_fails no_frames)).2 =
      t ++ [EvMmap len prot flags h off rp] ∧ ret rp = MAP_FAILED.
Proof.
  destruct (subdevice_ctor_blames "/dev/video1" false (world_of script_mmap_fails no_frames)
              "mmap" (subdevice_ctor "/dev/video1" false
                        (world_of script_mmap_fails no_frames)).2)
    as (t & e & Ht & Hf).
  - vm_compute. reflexivity.
  - inversion Hf as [| | | | | | | |len prot flags h off rp Hrp|s rq h a rp Hin];
      subst.
    + by exists t, len, prot, flags, h, off, rp.
    + exfalso. revert Hin. unfold blamed. rewrite !elem_of_cons, elem_of_nil.
      intros [|[|[|[|[|[|[|]]]]]]]; congruence.
Defined.

(** ** Scripts under which the start succeeds *)

Lemma map_loop_completes h pairs : ∀ i bufs w rest,
  script w = interleaved pairs ++ rest →
  Forall (λ p, 0 ≤ ret p.1 ∧ ret p.2 ≠ MAP_FAILED) pairs →
  (i + length pairs ≤ length bufs)%nat →
  ∃ w', map_loop (length pairs) i h bufs w =
          (Ret (take i bufs ++ (mapped <$> pairs) ++ drop (i + length pairs) bufs), w') ∧
        script w' = rest.
Proof.
  induction pairs as [|[q m] pairs IH]; intros i bufs w rest Hs Hok Hlen.
  - exists w. simpl. rewrite Nat.add_0_r, take_drop. done.
  - apply Forall_cons in Hok as [[Hq Hm] Hok]. simpl in Hq, Hm, Hlen.
    change (interleaved ((q, m) :: pairs)) with (q :: m :: interleaved pairs) in Hs.
    cbn [length map_loop]. unfold bind at 1.
    rewrite (xioctl_ok _ _ _ _ q (m :: interleaved pairs ++ rest)) by done.
    apply Z.ltb_ge in Hq. cbn beta iota. rewrite Hq.
    unfold bind at 1, mmap, bind at 1, syscall. cbn [script answered].
    apply Z.eqb_neq in Hm. cbn beta iota. unfold ret_ at 1. cbn beta iota. rewrite Hm.
    match goal with |- ∃ w', map_loop _ _ _ ?bufs1 ?w1 = _ ∧ _ =>
      destruct (IH (S i) bufs1 w1 rest) as (w' & Hrun & Hrest);
        [done|done|rewrite length_insert; lia|]
    end.
    exists w'. split; [|done]. rewrite Hrun. do 2 f_equal.
    match goal with |- context [<[i:=?b]> bufs] =>
      assert (Hi : <[i:=b]> bufs !! i = Some b) by (apply list_lookup_insert_eq; lia)
    end.
    rewrite (take_S_r _ _ _ Hi).
    rewrite take_insert_ge by lia. rewrite drop_insert_lt by lia.
    rewrite <- app_assoc. simpl. do 3 f_equal; [|f_equal; lia].
    unfold mapped, reported_length. simpl. by destruct (out q).
Qed.

Lemma queue_loop_completes h rqs : ∀ i w rest,
  script w = rqs ++ rest → Forall (λ r, 0 ≤ ret r) rqs →
  ∃ w', queue_loop (length rqs) i h w = (Ret tt, w') ∧ script w' = rest.
Proof.
  induction rqs as [|r rqs IH]; intros i w rest Hs Hok.
  - by exists w.
  - apply Forall_cons in Hok as [Hr Hok].
    cbn [length queue_loop]. unfold bind at 1.
    rewrite (xioctl_ok _ _ _ _ r (rqs ++ rest)) by done.
    apply Z.ltb_ge in Hr. cbn beta iota. rewrite Hr. by apply IH.
Qed.

(** X16. For every granted count up to VIDEO_MAX_FRAME (the most a
    queue holds; the pool is then a vector of at most 32 entries and the
    [int] counters of the loops stay below 32), a start whose calls all
    succeed returns.  Given, for each of the [count] buffers, a successful
    answer to VIDIOC_QUERYBUF and an answer to [mmap] other than MAP_FAILED,
    then [count] successful answers to VIDIOC_QBUF and one to
    VIDIOC_STREAMON, lines 139-168 consume exactly these answers and
    return a session on the same descriptor whose pool lists, in index
    order, the address each [mmap] returned with the length the kernel
    reported for that buffer. *)
Theorem start_streaming_completes name h count w pairs rqs so s :
  0 ≤ count ≤ VIDEO_MAX_FRAME →
  length pairs = Z.to_nat count → length rqs = Z.to_nat count →
  script w = interleaved pairs ++ rqs ++ so :: s →
  Forall (λ p, 0 ≤ ret p.1 ∧ ret p.2 ≠ MAP_FAILED) pairs →
  Forall (λ r, 0 ≤ ret r) rqs → 0 ≤ ret so →
  ∃ w',
    start_streaming name h count w =
      (Ret {| dev_name := name; fd := h; buffers := mapped <$> pairs |}, w') ∧
    script w' = s.
Proof.
  intros _ Hp Hq Hs Hok Hqok Hso.
  unfold start_streaming, map_buffers. rewrite <- Hp.
  destruct (map_loop_completes h pairs 0
              (replicate (length pairs) {| b_start := 0; b_length := 0 |}) w
              (rqs ++ so :: s) Hs Hok) as (w1 & Hmap & Hs1);
    [by rewrite length_replicate|].
  rewrite take_0, drop_ge, app_nil_r in Hmap by (rewrite length_replicate; simpl; lia).
  unfold bind at 1. rewrite Hmap. cbn beta iota. rewrite app_nil_l.
  rewrite length_fmap, Hp, <- Hq.
  destruct (queue_loop_completes h rqs 0 w1 (so :: s) Hs1 Hqok) as (w2 & Hqueue & Hs2).
  unfold bind at 1. rewrite Hqueue. cbn beta iota.
  unfold stream_on. unfold bind at 1. unfold bind at 1.
  rewrite (xioctl_ok _ _ _ _ so s) by done.
  apply Z.ltb_ge in Hso. cbn beta iota. rewrite Hso.
  eexists. split; reflexivity.
Qed.

Lemma start_streaming_completes_witness :
  ∃ w', start_streaming "/dev/video1" 3 2
          (world_of [ described 0 16 0; reply_ok 4096 None; described 1 16 16;
                      reply_ok 8192 None; reply_ok 0 None; reply_ok 0 None; reply_ok 0 None ]
                    no_frames) = (Ret dev_video1_ex, w') ∧
        script w' = [].
Proof.
  apply (start_streaming_completes "/dev/video1" 3 2 _
           [(described 0 16 0, reply_ok 4096 None); (described 1 16 16, reply_ok 8192 None)]
           [reply_ok 0 None; reply_ok 0 None] (reply_ok 0 None) []).
  - unfold VIDEO_MAX_FRAME. lia.
  - reflexivity.
  - reflexivity.
  - reflexivity.
  - repeat constructor; discriminate.
  - repeat constructor; discriminate.
  - discriminate.
Defined.

(** ** Which format request is made *)

Lemma map_loop_emits (P : event → Prop) n :
  (∀ h a rp, P (EvIoctl h VIDIOC_QUERYBUF a rp)) →
  (∀ len prot flags h off rp, P (EvMmap len prot flags h off rp)) →
  ∀ i h bufs, emits P (map_loop n i h bufs).
Proof.
  intros Hq Hm. induction n as [|n IH]; intros i h bufs; simpl; [by apply emits_nothing|].
  apply emits_bind; [by apply emits_xioctl|]. intros [r a].
  destruct (r <? 0); [by apply emits_nothing|].
  apply emits_bind; [|intros p; destruct (p =? MAP_FAILED); [by apply emits_nothing|apply IH]].
  unfold mmap. apply emits_bind; [by apply emits_syscall|]. intros rp. by apply emits_nothing.
Qed.

Lemma queue_loop_emits (P : event → Prop) n :
  (∀ h a rp, P (EvIoctl h VIDIOC_QBUF a rp)) →
  ∀ i h, emits P (queue_loop n i h).
Proof.
  intros Hq. induction n as [|n IH]; intros i h; simpl; [by apply emits_nothing|].
  apply emits_bind; [by apply emits_xioctl|]. intros [r a].
  destruct (r <? 0); [by apply emits_nothing|apply IH].
Qed.

(** X17. The constructor sets the format only when asked to force it and
    reads it only otherwise: in every run VIDIOC_S_FMT is issued only with
    [force_format] true, and VIDIOC_G_FMT only with [force_format] false. *)
Theorem subdevice_ctor_format_request name force_format :
  emits (λ e, match e with
              | EvIoctl _ VIDIOC_S_FMT _ _ => force_format = true
              | EvIoctl _ VIDIOC_G_FMT _ _ => force_format = false
              | _ => True
              end)
    (subdevice_ctor name force_format).
Proof.
  unfold subdevice_ctor, open_device, query_caps, reset_crop, negotiate_format,
    request_buffers, start_streaming, map_buffers, stream_on, stat, open.
  destruct force_format;
    repeat first [ by apply map_loop_emits | by apply queue_loop_emits
                 | by apply emits_log | control_step ].
Qed.
